(** * Analogue synthesizer simulations: DSP core and step sequencer

    A shallow embedding of the numerical core of the repository:

    - [worklets/MoogLadderProcessor.js]  (4-pole saturating ladder filter),
    - [worklets/KorgFilterProcessor.js]  (4-pole hard-clip transistor ladder),
    - [worklets/BBDChorusProcessor.js]   (bucket-brigade chorus),
    - [core/Sequencer.js]                (lookahead step sequencer),
    - [core/utils.js]                    (envelope and note helpers),
    - [core/MidiController.js]           (MIDI message routing),
    - [plugins/TR808/TR808.js]           (the pattern callback of the drum
                                          machine).

    Number model.  A JavaScript number is embedded as a value of [num]: an
    exact rational, one of the two infinities, or NaN.  The special values
    follow the IEEE-754 rules the source relies on (comparisons with NaN are
    false, [Math.min]/[Math.max] propagate NaN, infinity minus infinity is
    NaN, a non-zero number divided by zero is infinite).  Rounding of finite
    results, overflow of finite results, the narrowing of a number stored in
    a [Float32Array] and the sign of zero are not modelled: finite arithmetic
    is exact.  Where a component only ever handles finite numbers (sequencer,
    chorus, envelopes) it is embedded over [Q] directly, integers that index
    arrays or count steps over [Z].  Host functions the source calls
    ([Math.tan], [Math.sin]) and the worklet global [sampleRate] are
    parameters. *)

From Stdlib Require Import ZArith QArith Qabs Qround Lqa Lia String List Bool.
From stdpp Require Import base list.

Local Open Scope Q_scope.

(** * Part I: the embedding *)

(** ** Rational helpers *)

Definition Qltb (a b : Q) : bool := negb (Qle_bool b a).

(** [Math.PI], the binary64 number nearest to π. *)
Definition Math_PI : Q := 884279719003555 # 281474976710656.

(** A count as a rational. *)
Definition Qnat (n : nat) : Q := inject_Z (Z.of_nat n).

(** ** JavaScript numbers *)

Module JS.

Inductive num : Type :=
| Num (q : Q)
| PosInf
| NegInf
| NaN.

Declare Scope num_scope.
Delimit Scope num_scope with num.
Bind Scope num_scope with num.

(** Equality of numbers: rationals are compared by value. *)
Definition num_eq (a b : num) : Prop :=
  match a, b with
  | Num x, Num y => x == y
  | PosInf, PosInf | NegInf, NegInf | NaN, NaN => True
  | _, _ => False
  end.

Definition finite (a : num) : Prop :=
  match a with Num _ => True | _ => False end.

(** A finite number within [[lo, hi]], and within [[-B, B]]. *)
Definition in_range (lo hi : Q) (a : num) : Prop :=
  match a with Num x => lo <= x <= hi | _ => False end.

Definition bounded (B : Q) (a : num) : Prop := in_range (- B) B a.

Definition neg (a : num) : num :=
  match a with
  | Num x => Num (- x)
  | PosInf => NegInf
  | NegInf => PosInf
  | NaN => NaN
  end.

Definition add (a b : num) : num :=
  match a, b with
  | NaN, _ | _, NaN => NaN
  | Num x, Num y => Num (x + y)
  | PosInf, NegInf | NegInf, PosInf => NaN
  | PosInf, _ | _, PosInf => PosInf
  | NegInf, _ | _, NegInf => NegInf
  end.

Definition sub (a b : num) : num := add a (neg b).

(** An infinity scaled by a rational: the sign follows the factor, and
    infinity times zero is NaN. *)
Definition scale_inf (pos : bool) (y : Q) : num :=
  if Qeq_bool y 0 then NaN
  else if Bool.eqb pos (Qltb 0 y) then PosInf else NegInf.

Definition mul (a b : num) : num :=
  match a, b with
  | NaN, _ | _, NaN => NaN
  | Num x, Num y => Num (x * y)
  | PosInf, Num y | Num y, PosInf => scale_inf true y
  | NegInf, Num y | Num y, NegInf => scale_inf false y
  | PosInf, PosInf | NegInf, NegInf => PosInf
  | PosInf, NegInf | NegInf, PosInf => NegInf
  end.

Definition div (a b : num) : num :=
  match a, b with
  | NaN, _ | _, NaN => NaN
  | Num x, Num y =>
      if Qeq_bool y 0 then
        if Qeq_bool x 0 then NaN else if Qltb 0 x then PosInf else NegInf
      else Num (x / y)
  | Num _, _ => Num 0
  | PosInf, Num y => if Qltb y 0 then NegInf else PosInf
  | NegInf, Num y => if Qltb y 0 then PosInf else NegInf
  | _, _ => NaN
  end.

(** [a < b] as JavaScript evaluates it: false whenever NaN is involved. *)
Definition ltb (a b : num) : bool :=
  match a, b with
  | NaN, _ | _, NaN => false
  | Num x, Num y => Qltb x y
  | NegInf, NegInf => false
  | NegInf, _ => true
  | _, PosInf => match a with PosInf => false | _ => true end
  | _, _ => false
  end.

Definition gtb (a b : num) : bool := ltb b a.

(** [Math.min] and [Math.max]: NaN if either argument is NaN. *)
Definition min (a b : num) : num :=
  match a, b with
  | NaN, _ | _, NaN => NaN
  | _, _ => if ltb b a then b else a
  end.

Definition max (a b : num) : num :=
  match a, b with
  | NaN, _ | _, NaN => NaN
  | _, _ => if ltb a b then b else a
  end.

Definition abs (a : num) : num :=
  match a with
  | Num x => Num (Qabs x)
  | PosInf | NegInf => PosInf
  | NaN => NaN
  end.

(** A host function on the reals ([Math.tan]) lifted to numbers: NaN at the
    infinities and at NaN. *)
Definition lift (f : Q -> Q) (a : num) : num :=
  match a with Num x => Num (f x) | _ => NaN end.

Module Import Notations.
Coercion Num : Q >-> num.
Infix "+" := add : num_scope.
Infix "-" := sub : num_scope.
Infix "*" := mul : num_scope.
Infix "/" := div : num_scope.
Notation "- x" := (neg x) : num_scope.
Infix "<?" := ltb : num_scope.
Infix ">?" := gtb : num_scope.
Infix "==" := num_eq : num_scope.
End Notations.

(** A typed-array or parameter-array read: an index past the end reads
    [undefined], which arithmetic turns into NaN. *)
Definition read (a : list num) (i : nat) : num := default NaN (a !! i).

(** An a-rate parameter array holds one value per sample, a k-rate one a
    single value: [p.length > 1 ? p[i] : p[0]]. *)
Definition param_at (p : list num) (i : nat) : num :=
  if (1 <? length p)%nat then read p i else read p 0.

(** The magnitude of a finite number (0 for the special values). *)
Definition magnitude (a : num) : Q :=
  match a with Num x => Qabs x | _ => 0 end.

End JS.

Import JS.Notations.

(** ** worklets/MoogLadderProcessor.js *)

Module MoogLadderProcessor.
Local Open Scope num_scope.

Record t : Type := mk {
  _y1 : JS.num; _y2 : JS.num; _y3 : JS.num; _y4 : JS.num;
  _oldX : JS.num;
  _oldY1 : JS.num; _oldY2 : JS.num; _oldY3 : JS.num; _oldY4 : JS.num
}.

(** [constructor()] *)
Definition constructor : t := mk 0 0 0 0 0 0 0 0 0.

(** [_tanh(x)]: fast tanh approximation. *)
Definition _tanh (x : JS.num) : JS.num :=
  if x >? 3 then 1
  else if x <? -3 then -1
  else
    let x2 := x * x in
    x * (27 + x2) / (27 + 9 * x2).

Section Process.
(** The [sampleRate] global of the worklet scope. *)
Variable sampleRate : JS.num.

(** The four stage values carried through the per-sample loop. *)
Definition stages : Type := (JS.num * JS.num * JS.num * JS.num)%type.

(** Body of the per-sample loop: the new stage values; the sample written
    to [output[i]] is the new [y4]. *)
Definition sample (cutoff resonance inp : JS.num) (s : stages) : stages :=
  let '(y1, y2, y3, y4) := s in
  let SR := sampleRate in
  let f := (2 * cutoff) / SR in
  let fc := JS.min f 0.999 in
  let fb := resonance * (1 - 0.15 * fc * fc) in
  let x := inp - fb * y4 in
  let y1 := y1 + fc * (_tanh (x * 0.5) - _tanh (y1 * 0.5)) in
  let y2 := y2 + fc * (_tanh (y1 * 0.5) - _tanh (y2 * 0.5)) in
  let y3 := y3 + fc * (_tanh (y2 * 0.5) - _tanh (y3 * 0.5)) in
  let y4 := y4 + fc * (_tanh (y3 * 0.5) - _tanh (y4 * 0.5)) in
  (y1, y2, y3, y4).

(** [for (let i = 0; i < len; i++)], with [n] iterations left. *)
Fixpoint loop (n i : nat) (input cutoffs resonances : list JS.num)
    (s : stages) (output : list JS.num) : stages * list JS.num :=
  match n with
  | O => (s, output)
  | S n' =>
      let cutoff := JS.param_at cutoffs i in
      let resonance := JS.param_at resonances i in
      let s' := sample cutoff resonance (JS.read input i) s in
      loop n' (S i) input cutoffs resonances s' (<[i := s'.2]> output)
  end.

(** [process(inputs, outputs, parameters)]: [input] is [inputs[0][0]]
    ([None] when no channel is connected), [output] is [outputs[0][0]]. *)
Definition process (self : t) (input : option (list JS.num))
    (output cutoffs resonances : list JS.num) : t * list JS.num :=
  match input with
  | None => (self, output)
  | Some input =>
      let len := length output in
      let '((y1, y2, y3, y4), output') :=
        loop len 0 input cutoffs resonances
             (_y1 self, _y2 self, _y3 self, _y4 self) output in
      (mk y1 y2 y3 y4 (_oldX self)
          (_oldY1 self) (_oldY2 self) (_oldY3 self) (_oldY4 self),
       output')
  end.

(** *** Reference definition of one filter step, after the specification *)

(** The saturator: [±1] for [|x| > 3], the rational form otherwise. *)
Definition sat (x : JS.num) : JS.num :=
  if JS.abs x >? 3 then (if x >? 0 then 1 else -1)
  else x * (27 + x * x) / (27 + 9 * (x * x)).

(** One one-pole stage: [y + fc·(sat(stageInput·0.5) − sat(y·0.5))]. *)
Definition stage_ref (fc stage_input y : JS.num) : JS.num :=
  y + fc * (sat (stage_input * 0.5) - sat (y * 0.5)).

Definition sample_ref (cutoff resonance inp : JS.num) (s : stages)
    : stages :=
  let '(y1, y2, y3, y4) := s in
  let fc := JS.min (2 * cutoff / sampleRate) 0.999 in
  let fb := resonance * (1 - 0.15 * (fc * fc)) in
  let x := inp - fb * y4 in
  let y1' := stage_ref fc x y1 in
  let y2' := stage_ref fc y1' y2 in
  let y3' := stage_ref fc y2' y3 in
  let y4' := stage_ref fc y3' y4 in
  (y1', y2', y3', y4').

Definition stages_eq (a b : stages) : Prop :=
  a.1.1.1 == b.1.1.1 /\ a.1.1.2 == b.1.1.2 /\ a.1.2 == b.1.2 /\ a.2 == b.2.
End Process.

(** All four stage values within [[-B, B]]. *)
Definition stages_bounded (B : Q) (s : stages) : Prop :=
  JS.bounded B s.1.1.1 /\ JS.bounded B s.1.1.2 /\
  JS.bounded B s.1.2 /\ JS.bounded B s.2.

(** The persisted stage values of a processor, all finite, all within
    [[-B, B]]. *)
Definition persisted (self : t) : stages :=
  (_y1 self, _y2 self, _y3 self, _y4 self).

Definition state_finite (self : t) : Prop :=
  JS.finite (_y1 self) /\ JS.finite (_y2 self) /\
  JS.finite (_y3 self) /\ JS.finite (_y4 self).

Definition state_bounded (B : Q) (self : t) : Prop :=
  stages_bounded B (persisted self).

(** The stage values with their polarity inverted; all four at zero; all
    four NaN. *)
Definition neg_stages (s : stages) : stages :=
  (- s.1.1.1, - s.1.1.2, - s.1.2, - s.2).

Definition silent (s : stages) : Prop :=
  s.1.1.1 == 0 /\ s.1.1.2 == 0 /\ s.1.2 == 0 /\ s.2 == 0.

Definition poisoned (s : stages) : Prop :=
  s = (JS.NaN, JS.NaN, JS.NaN, JS.NaN).

End MoogLadderProcessor.

(** ** worklets/KorgFilterProcessor.js *)

Module KorgFilterProcessor.
Local Open Scope num_scope.

Record t : Type := mk {
  _s1 : JS.num; _s2 : JS.num; _s3 : JS.num; _s4 : JS.num
}.

(** [constructor()] *)
Definition constructor : t := mk 0 0 0 0.

(** [_clip(x)]: hard-clip saturation. *)
Definition _clip (x : JS.num) : JS.num :=
  JS.max (-1) (JS.min 1 (x * 0.7)).

Section Process.
(** The [sampleRate] global of the worklet scope, and the host's [Math.tan]
    on finite arguments. *)
Variable sampleRate : JS.num.
Variable tan : Q -> Q.

Definition Math_tan (x : JS.num) : JS.num := JS.lift tan x.

Definition stages : Type := (JS.num * JS.num * JS.num * JS.num)%type.

(** Body of the per-sample loop: the new stage values; the sample written
    to [output[i]] is the new [s4]. *)
Definition sample (cutoff peak inp : JS.num) (s : stages) : stages :=
  let '(s1, s2, s3, s4) := s in
  let SR := sampleRate in
  let g := Math_tan (Math_PI * JS.min cutoff (SR * 0.49) / SR) in
  let G := g / (1 + g) in
  let fb := peak * 4 in
  let u := _clip (inp - fb * s4) in
  let s1 := s1 + G * (_clip u - s1) in
  let s2 := s2 + G * (_clip s1 - s2) in
  let s3 := s3 + G * (_clip s2 - s3) in
  let s4 := s4 + G * (_clip s3 - s4) in
  (s1, s2, s3, s4).

(** [for (let i = 0; i < output.length; i++)], with [n] iterations left. *)
Fixpoint loop (n i : nat) (input cutoffs peaks : list JS.num)
    (s : stages) (output : list JS.num) : stages * list JS.num :=
  match n with
  | O => (s, output)
  | S n' =>
      let cutoff := JS.param_at cutoffs i in
      let peak := JS.param_at peaks i in
      let s' := sample cutoff peak (JS.read input i) s in
      loop n' (S i) input cutoffs peaks s' (<[i := s'.2]> output)
  end.

(** [process(inputs, outputs, parameters)]. *)
Definition process (self : t) (input : option (list JS.num))
    (output cutoffs peaks : list JS.num) : t * list JS.num :=
  match input with
  | None => (self, output)
  | Some input =>
      let '((s1, s2, s3, s4), output') :=
        loop (length output) 0 input cutoffs peaks
             (_s1 self, _s2 self, _s3 self, _s4 self) output in
      (mk s1 s2 s3 s4, output')
  end.

(** *** Reference definition of one filter step, after the specification *)

(** [clip(x) = max(-1, min(1, 0.7·x))]. *)
Definition clip_ref (x : JS.num) : JS.num :=
  JS.max (-1) (JS.min 1 (0.7 * x)).

(** One stage: [s + G·(clip(stageInput) − s)]. *)
Definition stage_ref (G stage_input s : JS.num) : JS.num :=
  s + G * (clip_ref stage_input - s).

Definition sample_ref (cutoff peak inp : JS.num) (s : stages) : stages :=
  let '(s1, s2, s3, s4) := s in
  let g :=
    Math_tan (Math_PI * JS.min cutoff (0.49 * sampleRate) / sampleRate) in
  let G := g / (1 + g) in
  let fb := peak * 4 in
  let filter_input := clip_ref (inp - fb * s4) in
  let s1' := stage_ref G filter_input s1 in
  let s2' := stage_ref G s1' s2 in
  let s3' := stage_ref G s2' s3 in
  let s4' := stage_ref G s3' s4 in
  (s1', s2', s3', s4').

End Process.

(** All four stage values within [[-B, B]]. *)
Definition stages_bounded (B : Q) (s : stages) : Prop :=
  JS.bounded B s.1.1.1 /\ JS.bounded B s.1.1.2 /\
  JS.bounded B s.1.2 /\ JS.bounded B s.2.

(** The persisted stage values of a processor, all finite, all within
    [[-B, B]]. *)
Definition persisted (self : t) : stages :=
  (_s1 self, _s2 self, _s3 self, _s4 self).

Definition state_finite (self : t) : Prop :=
  JS.finite (_s1 self) /\ JS.finite (_s2 self) /\
  JS.finite (_s3 self) /\ JS.finite (_s4 self).

Definition state_bounded (B : Q) (self : t) : Prop :=
  stages_bounded B (persisted self).

(** The stage values with their polarity inverted; all four at zero; all
    four NaN. *)
Definition neg_stages (s : stages) : stages :=
  (- s.1.1.1, - s.1.1.2, - s.1.2, - s.2).

Definition stages_eq (a b : stages) : Prop :=
  a.1.1.1 == b.1.1.1 /\ a.1.1.2 == b.1.1.2 /\ a.1.2 == b.1.2 /\ a.2 == b.2.

Definition silent (s : stages) : Prop :=
  s.1.1.1 == 0 /\ s.1.1.2 == 0 /\ s.1.2 == 0 /\ s.2 == 0.

Definition poisoned (s : stages) : Prop :=
  s = (JS.NaN, JS.NaN, JS.NaN, JS.NaN).

End KorgFilterProcessor.

(** ** core/Sequencer.js *)

Module Sequencer.

(** [Math.min], [Math.max] and the module's [clamp] on finite numbers. *)
Definition Math_min (a b : Q) : Q := if Qltb b a then b else a.
Definition Math_max (a b : Q) : Q := if Qltb a b then b else a.
Definition clamp (v min max : Q) : Q := Math_max min (Math_min max v).

(** A registered callback, known by its identity. *)
Definition listener : Type := nat.

(** The object [{step, time}] handed to a callback. *)
Record StepEvent : Type := { step : Z; time : Q }.

(** One invocation [fn(event)]. *)
Definition call : Type := (listener * StepEvent)%type.

Record t : Type := mk {
  _bpm : Q;
  _steps : Z;
  _swing : Q;
  _currentStep : Z;
  _nextStepTime : Q;
  _running : bool;
  _timerID : option Z;
  _scheduleAheadTime : Q;
  _lookaheadInterval : Q;
  _listeners : list listener
}.

(** [constructor(audioEngine)] *)
Definition constructor : t :=
  {| _bpm := 120; _steps := 16; _swing := 0; _currentStep := 0;
     _nextStepTime := 0; _running := false; _timerID := None;
     _scheduleAheadTime := 0.1; _lookaheadInterval := 25;
     _listeners := [] |}.

Definition with_listeners (ls : list listener) (self : t) : t :=
  mk (_bpm self) (_steps self) (_swing self) (_currentStep self)
     (_nextStepTime self) (_running self) (_timerID self)
     (_scheduleAheadTime self) (_lookaheadInterval self) ls.

(** [onStep(fn)] and [offStep(fn)] *)
Definition onStep (fn : listener) (self : t) : t :=
  with_listeners (_listeners self ++ [fn]) self.

Definition offStep (fn : listener) (self : t) : t :=
  with_listeners (filter (fun l => l <> fn) (_listeners self)) self.

(** [set bpm(v)], [set steps(v)], [set swing(v)] *)
Definition set_bpm (v : Q) (self : t) : t :=
  mk (Math_max 20 (Math_min 400 v)) (_steps self) (_swing self)
     (_currentStep self) (_nextStepTime self) (_running self) (_timerID self)
     (_scheduleAheadTime self) (_lookaheadInterval self) (_listeners self).

Definition set_steps (v : Z) (self : t) : t :=
  mk (_bpm self) v (_swing self)
     (_currentStep self) (_nextStepTime self) (_running self) (_timerID self)
     (_scheduleAheadTime self) (_lookaheadInterval self) (_listeners self).

Definition set_swing (v : Q) (self : t) : t :=
  mk (_bpm self) (_steps self) (clamp v 0 0.5)
     (_currentStep self) (_nextStepTime self) (_running self) (_timerID self)
     (_scheduleAheadTime self) (_lookaheadInterval self) (_listeners self).

(** [this._listeners.forEach(fn => fn(ev))]: the invocations, in
    registration order. *)
Definition dispatch (ls : list listener) (ev : StepEvent) : list call :=
  map (fun fn => (fn, ev)) ls.

(** [start()]: [currentTime] is the audio clock read through the engine,
    [timer] the handle [setInterval] returns. *)
Definition start (currentTime : Q) (timer : Z) (self : t) : t :=
  if _running self then self
  else
    mk (_bpm self) (_steps self) (_swing self)
       0%Z (currentTime + 0.05) true (Some timer)
       (_scheduleAheadTime self) (_lookaheadInterval self) (_listeners self).

(** [stop()]: the new state and the invocations it makes. *)
Definition stop (self : t) : t * list call :=
  (mk (_bpm self) (_steps self) (_swing self)
      0%Z (_nextStepTime self) false None
      (_scheduleAheadTime self) (_lookaheadInterval self) (_listeners self),
   dispatch (_listeners self) {| step := -1; time := 0 |}).

(** [_stepDuration()]: a sixteenth note. *)
Definition _stepDuration (self : t) : Q := (60 / _bpm self) / 4.

(** The body of the [while] loop of [_schedule]: the event emitted and the
    state after the two updates.  JavaScript's [%] on integers is [Z.rem]
    (for a zero step count it gives NaN, which is outside this model). *)
Definition schedule_step (self : t) : t * StepEvent :=
  let step := _currentStep self in
  let t := _nextStepTime self in
  let t :=
    if Qltb 0 (_swing self) && (Z.rem step 2 =? 1)%Z
    then t + _stepDuration self * _swing self
    else t in
  (mk (_bpm self) (_steps self) (_swing self)
      (Z.rem (_currentStep self + 1) (_steps self))
      (_nextStepTime self + _stepDuration self)
      (_running self) (_timerID self)
      (_scheduleAheadTime self) (_lookaheadInterval self) (_listeners self),
   {| step := step; time := t |}).

(** [_schedule()] at audio-clock reading [currentTime]; [None] when the
    loop has not finished within [fuel] iterations. *)
Fixpoint _schedule (fuel : nat) (currentTime : Q) (self : t)
    : option (t * list call) :=
  if Qltb (_nextStepTime self) (currentTime + _scheduleAheadTime self) then
    match fuel with
    | O => None
    | S fuel' =>
        let '(self', ev) := schedule_step self in
        match _schedule fuel' currentTime self' with
        | Some (self'', calls) =>
            Some (self'', dispatch (_listeners self) ev ++ calls)
        | None => None
        end
    end
  else Some (self, []).

(** One firing of the interval timer armed by [start()]; nothing fires once
    [stop()] has cleared it. *)
Definition tick (fuel : nat) (currentTime : Q) (self : t)
    : option (t * list call) :=
  match _timerID self with
  | Some _ => _schedule fuel currentTime self
  | None => Some (self, [])
  end.

(** Successive timer firings at the given clock readings. *)
Fixpoint ticks (fuel : nat) (clock : list Q) (self : t)
    : option (t * list call) :=
  match clock with
  | [] => Some (self, [])
  | now :: clock' =>
      match tick fuel now self with
      | Some (self', calls) =>
          match ticks fuel clock' self' with
          | Some (self'', calls') => Some (self'', calls ++ calls')
          | None => None
          end
      | None => None
      end
  end.

(** Assignments to the three writable properties. *)
Inductive assignment : Type :=
| SetBpm (v : Q)
| SetSteps (v : Z)
| SetSwing (v : Q).

Definition assign (self : t) (a : assignment) : t :=
  match a with
  | SetBpm v => set_bpm v self
  | SetSteps v => set_steps v self
  | SetSwing v => set_swing v self
  end.

Definition assign_all (l : list assignment) (self : t) : t :=
  fold_left assign l self.


(** The loop body iterated: the state after [n] iterations and the events
    they emit. *)
Fixpoint advance (n : nat) (self : t) : t :=
  match n with
  | O => self
  | S n' => advance n' (schedule_step self).1
  end.

Fixpoint emitted (n : nat) (self : t) : list StepEvent :=
  match n with
  | O => []
  | S n' => (schedule_step self).2 :: emitted n' (schedule_step self).1
  end.

(** The bounds of the data model, as the specification states them. *)
Definition data_model_bounds (self : t) : Prop :=
  20 <= _bpm self <= 400 /\
  (_steps self = 16 \/ _steps self = 32)%Z /\
  0 <= _swing self <= 0.5.

(** The step count an assignment sequence leaves behind. *)
Definition last_steps (l : list assignment) (d : Z) : Z :=
  fold_left (fun acc a => match a with SetSteps v => v | _ => acc end) l d.

(** The reset sentinel of [stop()]. *)
Definition reset_event : StepEvent := {| step := -1; time := 0 |}.

End Sequencer.

(** ** worklets/BBDChorusProcessor.js *)

Module BBDChorusProcessor.

(** [Math.round] and [Math.ceil], and JavaScript's [%] on finite numbers
    (the result takes the sign of the dividend). *)
Definition Math_round (x : Q) : Z := Qfloor (x + 0.5).
Definition Math_ceil (x : Q) : Z := Qceiling x.
Definition Qtrunc (x : Q) : Z := (Qnum x ÷ Zpos (Qden x))%Z.
Definition Qrem (a b : Q) : Q := a - b * inject_Z (Qtrunc (a / b)).

(** A typed-array read and write at an integer index: a read outside the
    array is [undefined] ([None]), a write outside it is dropped. *)
Definition get (buf : list Q) (i : Z) : option Q :=
  if (i <? 0)%Z then None else buf !! Z.to_nat i.

Definition set (buf : list Q) (i : Z) (x : Q) : list Q :=
  if (i <? 0)%Z then buf else <[Z.to_nat i := x]> buf.

Record t : Type := mk {
  _bufSize : Z;
  _buf1 : list Q;
  _buf2 : list Q;
  _writePos : Z;
  _lfoPhase1 : Q;
  _lfoPhase2 : Q
}.

(** The channels of [outputs[0]]: [outR] is [None] when there is a single
    channel, in which case the source's [outR] is the very array [outL]. *)
Record channels : Type := { outL : list Q; outR : option (list Q) }.

Section Process.
(** The [sampleRate] global of the worklet scope and the host's [Math.sin]. *)
Variable sampleRate : Q.
Variable sin : Q -> Q.

(** [constructor()] *)
Definition constructor : t :=
  let maxDelayMs := 30 in
  let bufSize := (Math_ceil (sampleRate * maxDelayMs / 1000) + 1)%Z in
  {| _bufSize := bufSize;
     _buf1 := replicate (Z.to_nat bufSize) 0;
     _buf2 := replicate (Z.to_nat bufSize) 0;
     _writePos := 0;
     _lfoPhase1 := 0;
     _lfoPhase2 := Math_PI |}.

(** [_readInterp(buf, writePos, delaySamples)]; [None] when a read falls
    outside the buffer (the source then computes with [undefined]). *)
Definition _readInterp (self : t) (buf : list Q) (writePos : Z)
    (delaySamples : Q) : option Q :=
  let ri := inject_Z writePos - delaySamples in
  let i0 :=
    Z.rem (Z.rem (Qfloor ri) (_bufSize self) + _bufSize self)
          (_bufSize self) in
  let i1 := Z.rem (i0 + 1) (_bufSize self) in
  let frac := ri - inject_Z (Qfloor ri) in
  match get buf i0, get buf i1 with
  | Some b0, Some b1 => Some (b0 * (1 - frac) + b1 * frac)
  | _, _ => None
  end.

(** [outL[i] = v; if (outR !== outL) outR[i] = w] *)
Definition write_both (out : channels) (i : nat) (v w : Q) : channels :=
  {| outL := <[i := v]> (outL out);
     outR := (fun r => <[i := w]> r) <$> outR out |}.

Definition with_buffers (self : t) (b1 b2 : list Q) : t :=
  mk (_bufSize self) b1 b2 (_writePos self)
     (_lfoPhase1 self) (_lfoPhase2 self).

(** One iteration of the per-sample loop, for input sample [x] at index
    [i]. *)
Definition sample (mode : Z) (rate depth : Q) (i : nat) (x : Q)
    (self : t) (out : channels) : option (t * channels) :=
  let SR := sampleRate in
  let baseDelayMs1 := 15 in
  let baseDelayMs2 := 8 in
  let swingMs1 := 6 * depth in
  let swingMs2 := 4 * depth in
  let lfoInc := (2 * Math_PI * rate) / SR in
  let self := with_buffers self (set (_buf1 self) (_writePos self) x)
                                (set (_buf2 self) (_writePos self) x) in
  let next_pos := Z.rem (_writePos self + 1) (_bufSize self) in
  if (mode =? 0)%Z then
    Some (mk (_bufSize self) (_buf1 self) (_buf2 self) next_pos
             (_lfoPhase1 self) (_lfoPhase2 self),
          write_both out i x x)
  else if (mode =? 1)%Z then
    let lfoVal := sin (_lfoPhase1 self) in
    let delMs := baseDelayMs1 + lfoVal * swingMs1 in
    let delSmp := delMs * SR / 1000 in
    match _readInterp self (_buf1 self) (_writePos self) delSmp with
    | Some wet =>
        let o := x * 0.5 + wet * 0.5 in
        Some (mk (_bufSize self) (_buf1 self) (_buf2 self) next_pos
                 (Qrem (_lfoPhase1 self + lfoInc) (2 * Math_PI))
                 (_lfoPhase2 self),
              write_both out i o o)
    | None => None
    end
  else
    let lfo1 := sin (_lfoPhase1 self) in
    let lfo2 := sin (_lfoPhase2 self) in
    let delMs1 := baseDelayMs2 + lfo1 * swingMs2 in
    let delMs2 := baseDelayMs2 + lfo2 * swingMs2 in
    match _readInterp self (_buf1 self) (_writePos self) (delMs1 * SR / 1000),
          _readInterp self (_buf2 self) (_writePos self) (delMs2 * SR / 1000)
    with
    | Some wet1, Some wet2 =>
        let l := <[i := x * 0.5 + wet1 * 0.5]> (outL out) in
        let out' :=
          match outR out with
          | Some r =>
              {| outL := l; outR := Some (<[i := x * 0.5 + wet2 * 0.5]> r) |}
          | None =>
              {| outL :=
                   match l !! i with
                   | Some v => <[i := (v + x * 0.5 + wet2 * 0.5) * 0.5]> l
                   | None => l
                   end;
                 outR := None |}
          end in
        Some (mk (_bufSize self) (_buf1 self) (_buf2 self) next_pos
                 (Qrem (_lfoPhase1 self + lfoInc) (2 * Math_PI))
                 (Qrem (_lfoPhase2 self + lfoInc) (2 * Math_PI)),
              out')
    | _, _ => None
    end.

(** [for (let i = 0; i < input.length; i++)] over the samples still to be
    read, [i] being the index of the first of them. *)
Fixpoint loop (mode : Z) (rate depth : Q) (i : nat) (input : list Q)
    (self : t) (out : channels) : option (t * channels) :=
  match input with
  | [] => Some (self, out)
  | x :: input' =>
      match sample mode rate depth i x self out with
      | Some (self', out') => loop mode rate depth (S i) input' self' out'
      | None => None
      end
  end.

(** [process(inputs, outputs, parameters)]: the k-rate parameters are given
    by their first value. *)
Definition process (self : t) (input : option (list Q)) (out : channels)
    (mode rate depth : Q) : option (t * channels) :=
  match input with
  | None => Some (self, out)
  | Some input => loop (Math_round mode) rate depth 0 input self out
  end.

End Process.

(** The delay-line invariant: a positive capacity, both buffers of that
    capacity, the write cursor inside them. *)
Definition delay_line_ok (self : t) : Prop :=
  (0 < _bufSize self)%Z /\
  Z.of_nat (length (_buf1 self)) = _bufSize self /\
  Z.of_nat (length (_buf2 self)) = _bufSize self /\
  (0 <= _writePos self < _bufSize self)%Z.

(** Samples stored one after the other from index [i] on. *)
Fixpoint store (i : nat) (xs l : list Q) : list Q :=
  match xs with
  | [] => l
  | x :: xs' => store (S i) xs' (<[i := x]> l)
  end.

(** Both LFO phases within one turn, [[0, 2π)]. *)
Definition phases_ok (self : t) : Prop :=
  0 <= _lfoPhase1 self < 2 * Math_PI /\
  0 <= _lfoPhase2 self < 2 * Math_PI.

(** The sample fed to the chorus [d] samples before the end of the stream
    [h] of all samples fed so far; zero before its start. *)
Definition back (h : list Q) (d : nat) : Q := nth d (rev h) 0.

(** The delay line holds the stream [h]: counted back from the write
    cursor, the cell [d] places behind it holds the sample [d - 1] samples
    before the end of [h], in both buffers. *)
Definition holds (h : list Q) (self : t) : Prop :=
  delay_line_ok self /\
  forall d : Z, (1 <= d <= _bufSize self)%Z ->
    let cell := Z.to_nat ((_writePos self - d) mod _bufSize self) in
    _buf1 self !! cell = Some (back h (Z.to_nat (d - 1))) /\
    _buf2 self !! cell = Some (back h (Z.to_nat (d - 1))).

(** The sample that mode 1 writes at depth 0 for the input [x], on top of
    the stream [H] that ends with it: the delay is 15 ms, taken between the
    two stored samples around it. *)
Definition comb (sampleRate : Q) (H : list Q) (x : Q) : Q :=
  let D := 15 * sampleRate / 1000 in
  let c := Z.to_nat (Qceiling D) in
  let frac := inject_Z (Qceiling D) - D in
  x * 0.5 + (back H c * (1 - frac) + back H (c - 1) * frac) * 0.5.

End BBDChorusProcessor.

(** ** core/utils.js: envelope helpers *)

Module utils.

(** An event on the automation timeline of an [AudioParam], named after the
    method that schedules it, with its target value and its time. *)
Inductive event : Type :=
| SetValue (value time : Q)
| LinearRamp (value time : Q)
| ExponentialRamp (value time : Q).

Definition event_value (e : event) : Q :=
  match e with
  | SetValue v _ | LinearRamp v _ | ExponentialRamp v _ => v
  end.

Definition event_time (e : event) : Q :=
  match e with
  | SetValue _ t | LinearRamp _ t | ExponentialRamp _ t => t
  end.

(** The timeline of an [AudioParam]: its events in time order, events of
    equal time in the order of their scheduling. *)
Definition AudioParam : Type := list event.

Fixpoint insert_event (e : event) (param : AudioParam) : AudioParam :=
  match param with
  | [] => [e]
  | e' :: param' =>
      if Qltb (event_time e) (event_time e') then e :: param
      else e' :: insert_event e param'
  end.

(** [param.cancelScheduledValues(t)] drops the events at or after [t]. *)
Definition cancelScheduledValues (t : Q) (param : AudioParam) : AudioParam :=
  List.filter (fun e => Qltb (event_time e) t) param.

Definition setValueAtTime (v t : Q) (param : AudioParam) : AudioParam :=
  insert_event (SetValue v t) param.

Definition linearRampToValueAtTime (v t : Q) (param : AudioParam)
    : AudioParam :=
  insert_event (LinearRamp v t) param.

Definition exponentialRampToValueAtTime (v t : Q) (param : AudioParam)
    : AudioParam :=
  insert_event (ExponentialRamp v t) param.

(** [scheduleADSR(param, ctx, a, d, s, r, now, peakLevel = 1)]: the timeline
    and the returned sustain start time. *)
Definition scheduleADSR (param : AudioParam) (a d s r now : Q)
    (peakLevel : option Q) : AudioParam * Q :=
  let peakLevel := default 1 peakLevel in
  let param := cancelScheduledValues now param in
  let param := setValueAtTime 0 now param in
  let param := linearRampToValueAtTime peakLevel (now + a) param in
  let param := linearRampToValueAtTime (s * peakLevel) (now + a + d) param in
  (param, now + a + d).

(** [schedulePercEnv(param, ctx, attackTime, decayTime, now, peakLevel = 1)] *)
Definition schedulePercEnv (param : AudioParam)
    (attackTime decayTime now : Q) (peakLevel : option Q) : AudioParam :=
  let peakLevel := default 1 peakLevel in
  let param := cancelScheduledValues now param in
  let param := setValueAtTime 0.0001 now param in
  let param := linearRampToValueAtTime peakLevel (now + attackTime) param in
  exponentialRampToValueAtTime 0.0001 (now + attackTime + decayTime) param.

(** A ramp of a timeline: it runs from the value and time of the event
    before it to its own target value and time. *)
Inductive curve : Type := Linear | Exponential.

Record ramp : Type := {
  ramp_curve : curve;
  ramp_from : Q; ramp_start : Q;
  ramp_to : Q; ramp_end : Q
}.

Fixpoint ramps_after (prev : event) (param : AudioParam) : list ramp :=
  match param with
  | [] => []
  | e :: param' =>
      match e with
      | SetValue _ _ => ramps_after e param'
      | LinearRamp v t =>
          Build_ramp Linear (event_value prev) (event_time prev) v t
            :: ramps_after e param'
      | ExponentialRamp v t =>
          Build_ramp Exponential (event_value prev) (event_time prev) v t
            :: ramps_after e param'
      end
  end.

Definition ramps (param : AudioParam) : list ramp :=
  match param with
  | [] => []
  | e :: param' => ramps_after e param'
  end.

(** The target of every exponential ramp is strictly positive. *)
Definition exponential_targets_positive (param : AudioParam) : Prop :=
  Forall (fun e => match e with
                   | ExponentialRamp v _ => 0 < v
                   | _ => True
                   end) param.

(** [clamp(v, min, max)] *)
Definition clamp (v min max : JS.num) : JS.num := JS.max min (JS.min max v).

(** [scheduleRelease(param, now, r)]: [value] is the reading of
    [param.value] the function starts with. *)
Definition scheduleRelease (param : AudioParam) (value now r : Q)
    : AudioParam :=
  let current := value in
  let param := cancelScheduledValues now param in
  let param := setValueAtTime current now param in
  linearRampToValueAtTime 0.00001 (now + r) param.

(** The own properties of the object literal [map] of [noteNameToMidi]. *)
Definition note_map : list (string * Z) :=
  [("C"%string, 0%Z); ("C#"%string, 1%Z); ("Db"%string, 1%Z);
   ("D"%string, 2%Z); ("D#"%string, 3%Z); ("Eb"%string, 3%Z);
   ("E"%string, 4%Z); ("F"%string, 5%Z); ("F#"%string, 6%Z);
   ("Gb"%string, 6%Z); ("G"%string, 7%Z); ("G#"%string, 8%Z);
   ("Ab"%string, 8%Z); ("A"%string, 9%Z); ("A#"%string, 10%Z);
   ("Bb"%string, 10%Z); ("B"%string, 11%Z)].

(** The property names an object literal inherits from [Object.prototype]:
    looking one of them up finds a function or an object, not [undefined]. *)
Definition Object_prototype : list string :=
  ["constructor"; "__defineGetter__"; "__defineSetter__"; "hasOwnProperty";
   "__lookupGetter__"; "__lookupSetter__"; "isPrototypeOf";
   "propertyIsEnumerable"; "toString"; "valueOf"; "__proto__";
   "toLocaleString"]%string.

(** The own property [o[name]] of an object literal. *)
Fixpoint own_property (name : string) (o : list (string * Z)) : option Z :=
  match o with
  | [] => None
  | (k, v) :: o' => if String.eqb name k then Some v else own_property name o'
  end.

(** [noteNameToMidi(name, octave)] on an integer octave: [map[name] ?? 0]
    falls back to 0 when the lookup is [undefined]; [None] when the lookup
    finds an inherited property, the sum then not being a number. *)
Definition noteNameToMidi (name : string) (octave : Z) : option Z :=
  match own_property name note_map with
  | Some v => Some (12 * (octave + 1) + v)%Z
  | None =>
      if existsb (String.eqb name) Object_prototype then None
      else Some (12 * (octave + 1) + 0)%Z
  end.

End utils.

(** ** core/MidiController.js *)

Module MidiController.

(** The message object handed to a listener, by its [type] field. *)
Inductive message : Type :=
| noteon (note : Z) (velocity : Q) (channel : Z)
| noteoff (note : Z) (velocity : Q) (channel : Z)
| pitchbend (value : Q) (channel : Z)
| cc (controller : Z) (value : Q) (channel : Z).

(** A registered callback, known by its identity, and one invocation
    [fn(msg)]. *)
Definition listener : Type := nat.
Definition call : Type := (listener * message)%type.

(** The bindings of the module closure.  [_listeners] is an object keyed by
    integer ids: its own properties are kept in the order in which
    [Object.values] enumerates integer keys, ascending. *)
Record t : Type := mk {
  _listeners : list (Z * listener);
  _nextId : Z;
  _channel : option Z
}.

Definition initial : t :=
  {| _listeners := []; _nextId := 1; _channel := None |}.

(** [o[id] = fn] on an object with integer keys. *)
Fixpoint set_property (id : Z) (fn : listener) (o : list (Z * listener))
    : list (Z * listener) :=
  match o with
  | [] => [(id, fn)]
  | (k, v) :: o' =>
      if (id =? k)%Z then (id, fn) :: o'
      else if (id <? k)%Z then (id, fn) :: o
      else (k, v) :: set_property id fn o'
  end.

(** [delete o[id]] *)
Definition delete_property (id : Z) (o : list (Z * listener))
    : list (Z * listener) :=
  List.filter (fun kv => negb (kv.1 =? id)%Z) o.

(** [Object.values(o)] *)
Definition Object_values (o : list (Z * listener)) : list listener :=
  map snd o.

(** [addListener(fn)]: the new bindings and the id returned. *)
Definition addListener (fn : listener) (self : t) : t * Z :=
  let id := _nextId self in
  ({| _listeners := set_property id fn (_listeners self);
      _nextId := (_nextId self + 1)%Z;
      _channel := _channel self |},
   id).

(** [removeListener(id)] *)
Definition removeListener (id : Z) (self : t) : t :=
  {| _listeners := delete_property id (_listeners self);
     _nextId := _nextId self;
     _channel := _channel self |}.

(** [setChannel(ch)]: [None] is [null], all channels. *)
Definition setChannel (ch : option Z) (self : t) : t :=
  {| _listeners := _listeners self;
     _nextId := _nextId self;
     _channel := ch |}.

(** [_channel !== null && ch !== _channel] *)
Definition filtered_out (self : t) (ch : Z) : bool :=
  match _channel self with
  | Some c => negb (ch =? c)%Z
  | None => false
  end.

(** [Object.values(_listeners).forEach(fn => fn(msg))] *)
Definition deliver (self : t) (msg : message) : list call :=
  map (fun fn => (fn, msg)) (Object_values (_listeners self)).

(** [_onMessage(event)] on the bytes of [event.data]: the invocations it
    makes.  The four kinds of message it forwards carry two data bytes;
    [None] stands for one of them cut short, whose fields would be
    [undefined]. *)
Definition _onMessage (self : t) (data : list Z) : option (list call) :=
  match data with
  | [] => Some []
  | status :: rest =>
      let type := Z.land status 0xf0 in
      let ch := Z.land status 0x0f in
      if filtered_out self ch then Some []
      else if (type =? 0x90)%Z then
        match rest with
        | data1 :: data2 :: _ =>
            Some (deliver self
                    (if (0 <? data2)%Z
                     then noteon data1 (inject_Z data2 / 127) ch
                     else noteoff data1 0 ch))
        | _ => None
        end
      else if (type =? 0x80)%Z then
        match rest with
        | data1 :: data2 :: _ =>
            Some (deliver self (noteoff data1 (inject_Z data2 / 127) ch))
        | _ => None
        end
      else if (type =? 0xe0)%Z then
        match rest with
        | data1 :: data2 :: _ =>
            Some (deliver self
                    (pitchbend
                       ((inject_Z (Z.lor (Z.shiftl data2 7) data1) - 8192)
                        / 8192) ch))
        | _ => None
        end
      else if (type =? 0xb0)%Z then
        match rest with
        | data1 :: data2 :: _ =>
            Some (deliver self (cc data1 (inject_Z data2 / 127) ch))
        | _ => None
        end
      else Some []
  end.

(** A byte of a [Uint8Array]. *)
Definition byte (b : Z) : Prop := (0 <= b <= 255)%Z.

(** A MIDI data byte: the top bit is clear. *)
Definition data_byte (b : Z) : Prop := (0 <= b <= 127)%Z.

(** The ids of the registered listeners are below the next id to hand out,
    in ascending order. *)
Definition ids_fresh (self : t) : Prop :=
  Forall (fun kv => (kv.1 < _nextId self)%Z) (_listeners self).

(** The channel filter lets channel [ch] through. *)
Definition passes (self : t) (ch : Z) : Prop :=
  _channel self = None \/ _channel self = Some ch.

(** The states reached from the initial one by registering and removing
    listeners and by setting the channel. *)
Inductive reachable : t -> Prop :=
| reach_initial : reachable initial
| reach_add fn self : reachable self -> reachable (addListener fn self).1
| reach_remove id self : reachable self -> reachable (removeListener id self)
| reach_channel ch self : reachable self -> reachable (setChannel ch self).

End MidiController.

(** ** plugins/TR808/TR808.js: the pattern and the sequencer callback *)

Module TR808.

(** A pad of the pattern: [{ on, accent }]. *)
Record pad : Type := { on : bool; accent : bool }.

(** [this._instrumentKeys] *)
Definition _instrumentKeys : list string :=
  ["BD"; "SD"; "CH"; "OH"; "HT"; "MT"; "LT"; "HC"; "MC"; "LC"; "CY"; "CB";
   "RS"; "CP"]%string.

(** [this._steps] *)
Definition _steps : nat := 16.

(** [this._pattern]: a row of pads for each instrument key. *)
Definition pattern : Type := list (string * list pad).

Fixpoint row (k : string) (p : pattern) : option (list pad) :=
  match p with
  | [] => None
  | (k', r) :: p' => if String.eqb k k' then Some r else row k p'
  end.

(** The pattern the constructor builds: every pad off. *)
Definition constructor_pattern : pattern :=
  map (fun k => (k, replicate _steps {| on := false; accent := false |}))
      _instrumentKeys.

(** The [onChange] handler of a pad button:
    [_pattern[key][step].on = active; _pattern[key][step].accent = accent]. *)
Fixpoint onChange (key : string) (step : nat) (active acc : bool)
    (p : pattern) : pattern :=
  match p with
  | [] => []
  | (k, r) :: p' =>
      if String.eqb key k
      then (k, <[step := {| on := active; accent := acc |}]> r) :: p'
      else (k, r) :: onChange key step active acc p'
  end.

(** What the callback does to the outside: it triggers a voice at a time,
    and moves the step highlight. *)
Inductive effect : Type :=
| Trigger (key : string) (time : Q)
| Highlight (step : Z).

(** The [forEach] over the instrument keys in the callback: [None] when
    [_pattern[k][step]] is [undefined], reading [.on] then throwing. *)
Fixpoint triggers (keys : list string) (p : pattern) (step : Z) (time : Q)
    : option (list effect) :=
  match keys with
  | [] => Some []
  | k :: keys' =>
      match row k p with
      | Some r =>
          match (if (step <? 0)%Z then None else r !! Z.to_nat step) with
          | Some s =>
              match triggers keys' p step time with
              | Some es =>
                  Some (if on s then Trigger k time :: es else es)
              | None => None
              end
          | None => None
          end
      | None => None
      end
  end.

(** The callback registered with [this._seq.onStep]. *)
Definition callback (p : pattern) (ev : Sequencer.StepEvent)
    : option (list effect) :=
  if (Sequencer.step ev =? -1)%Z then Some [Highlight (-1)]
  else
    match triggers _instrumentKeys p (Sequencer.step ev) (Sequencer.time ev)
    with
    | Some es => Some (es ++ [Highlight (Sequencer.step ev)])
    | None => None
    end.

(** Every instrument has a row of [_steps] pads. *)
Definition well_formed (p : pattern) : Prop :=
  Forall (fun k => exists r, row k p = Some r /\ length r = _steps)
         _instrumentKeys.

(** The test the callback makes on a pad, [_pattern[k][step].on], and the
    instruments whose pad at [step] is on, in panel order. *)
Definition pad_on (p : pattern) (step : nat) (k : string) : bool :=
  match row k p with
  | Some r => match r !! step with
              | Some s => on s
              | None => false
              end
  | None => false
  end.

Definition active_keys (p : pattern) (step : nat) : list string :=
  List.filter (pad_on p step) _instrumentKeys.

End TR808.

(** * Part II: properties *)

(** ** Rational and integer helpers *)

Lemma Qltb_lt (a b : Q) : Qltb a b = true <-> a < b.
Proof.
  unfold Qltb. rewrite negb_true_iff. split; intro H.
  - apply Qnot_le_lt. intro Hle. apply Qle_bool_iff in Hle. congruence.
  - destruct (Qle_bool b a) eqn:E; [|reflexivity].
    apply Qle_bool_iff in E. exfalso. apply (Qlt_not_le _ _ H E).
Qed.

Lemma Qltb_ge (a b : Q) : Qltb a b = false <-> b <= a.
Proof.
  unfold Qltb. rewrite negb_false_iff. apply Qle_bool_iff.
Qed.

Lemma Qeq_bool_false (a b : Q) : ~ a == b -> Qeq_bool a b = false.
Proof.
  intro H. destruct (Qeq_bool a b) eqn:E; [|reflexivity].
  apply Qeq_bool_iff in E. contradiction.
Qed.

#[global] Instance Qltb_proper : Proper (Qeq ==> Qeq ==> eq) Qltb.
Proof. intros a a' Ha b b' Hb. unfold Qltb. now rewrite Ha, Hb. Qed.


(** The source's idiom [((a % n) + n) % n] is the non-negative remainder. *)
Lemma rem_rem_mod (a n : Z) :
  (0 < n -> Z.rem (Z.rem a n + n) n = a mod n)%Z.
Proof.
  intros Hn.
  pose proof (Z.rem_bound_abs a n ltac:(lia)) as Hb.
  pose proof (Z.quot_rem' a n) as Hq.
  rewrite Z.rem_mod_nonneg by lia.
  replace (Z.rem a n + n)%Z with (Z.rem a n + 1 * n)%Z by lia.
  rewrite Z_mod_plus_full.
  rewrite Hq at 2.
  replace (n * (a ÷ n) + Z.rem a n)%Z with (Z.rem a n + (a ÷ n) * n)%Z
    by lia.
  now rewrite Z_mod_plus_full.
Qed.

Lemma floor_frac (x : Q) : 0 <= x - inject_Z (Qfloor x) < 1.
Proof.
  pose proof (Qfloor_le x) as H1. pose proof (Qlt_floor x) as H2.
  rewrite inject_Z_plus in H2. change (inject_Z 1) with 1 in H2.
  split; lra.
Qed.

Lemma Qnat_S (n : nat) : Qnat (S n) == Qnat n + 1.
Proof.
  unfold Qnat. rewrite Nat2Z.inj_succ, <- Z.add_1_r, inject_Z_plus.
  reflexivity.
Qed.

Lemma Qnat_add (n m : nat) : Qnat (n + m) == Qnat n + Qnat m.
Proof. unfold Qnat. now rewrite Nat2Z.inj_add, inject_Z_plus. Qed.


(** Every rational is below some multiple of a positive step. *)
Lemma Q_archimedean (x d : Q) : 0 < d -> exists k : nat, x <= Qnat k * d.
Proof.
  intros Hd. exists (Z.to_nat (Qceiling (x / d))).
  assert (H1 : x / d <= Qnat (Z.to_nat (Qceiling (x / d)))).
  { eapply Qle_trans; [apply Qle_ceiling|].
    unfold Qnat. rewrite <- Zle_Qle. lia. }
  assert (H2 : x == x / d * d) by (field; lra).
  rewrite H2 at 1. apply Qmult_le_compat_r; [exact H1|lra].
Qed.

(** ** JavaScript numbers *)

Module JSFacts.
Import JS.

(** *** Equality of numbers is an equivalence the operations respect *)

#[global] Instance num_eq_equiv : Equivalence num_eq.
Proof.
  split.
  - intros [x| | |]; simpl; auto. reflexivity.
  - intros [x| | |] [y| | |]; simpl; auto. intros H; now symmetry.
  - intros [x| | |] [y| | |] [z| | |]; simpl; auto; try contradiction.
    intros H1 H2. now rewrite H1.
Qed.

#[global] Instance neg_proper : Proper (num_eq ==> num_eq) neg.
Proof. intros a a' Ha. destruct a, a'; simpl in *; auto. now rewrite Ha. Qed.

#[global] Instance add_proper : Proper (num_eq ==> num_eq ==> num_eq) add.
Proof.
  intros a a' Ha b b' Hb.
  destruct a, a'; simpl in Ha; try contradiction;
  destruct b, b'; simpl in Hb; try contradiction; simpl; auto.
  now rewrite Ha, Hb.
Qed.

#[global] Instance sub_proper : Proper (num_eq ==> num_eq ==> num_eq) sub.
Proof. intros a a' Ha b b' Hb. unfold sub. now rewrite Ha, Hb. Qed.

Lemma scale_inf_proper (p : bool) (y y' : Q) :
  (y == y')%Q -> num_eq (scale_inf p y) (scale_inf p y').
Proof.
  intros H. unfold scale_inf.
  rewrite (Qeqb_comp y y' H 0 0 (Qeq_refl 0)).
  rewrite (Qltb_proper 0 0 (Qeq_refl 0) y y' H). reflexivity.
Qed.

#[global] Instance mul_proper : Proper (num_eq ==> num_eq ==> num_eq) mul.
Proof.
  intros a a' Ha b b' Hb.
  destruct a, a'; simpl in Ha; try contradiction;
  destruct b, b'; simpl in Hb; try contradiction; simpl; auto;
  try (now apply scale_inf_proper).
  now rewrite Ha, Hb.
Qed.

#[global] Instance div_proper : Proper (num_eq ==> num_eq ==> num_eq) div.
Proof.
  intros a a' Ha b b' Hb.
  destruct a as [x| | |], a' as [x'| | |]; simpl in Ha; try contradiction;
  destruct b as [y| | |], b' as [y'| | |]; simpl in Hb; try contradiction;
  simpl; auto; try reflexivity;
  try (rewrite (Qltb_proper y y' Hb 0 0 (Qeq_refl 0)); reflexivity).
  rewrite (Qeqb_comp y y' Hb 0 0 (Qeq_refl 0)).
  rewrite (Qeqb_comp x x' Ha 0 0 (Qeq_refl 0)).
  rewrite (Qltb_proper 0 0 (Qeq_refl 0) x x' Ha).
  destruct (Qeq_bool y' 0); [reflexivity|]. simpl. now rewrite Ha, Hb.
Qed.

#[global] Instance ltb_proper : Proper (num_eq ==> num_eq ==> eq) ltb.
Proof.
  intros a a' Ha b b' Hb.
  destruct a, a'; simpl in Ha; try contradiction;
  destruct b, b'; simpl in Hb; try contradiction; simpl; auto.
  now rewrite Ha, Hb.
Qed.

#[global] Instance gtb_proper : Proper (num_eq ==> num_eq ==> eq) gtb.
Proof. intros a a' Ha b b' Hb. unfold gtb. now rewrite Ha, Hb. Qed.

#[global] Instance min_proper : Proper (num_eq ==> num_eq ==> num_eq) min.
Proof.
  intros a a' Ha b b' Hb.
  pose proof (ltb_proper _ _ Hb _ _ Ha) as E.
  destruct a as [x| | |], a' as [x'| | |]; simpl in Ha; try contradiction;
  destruct b as [y| | |], b' as [y'| | |]; simpl in Hb; try contradiction;
  unfold min; try rewrite E; simpl; auto;
  match goal with |- context [if ?c then _ else _] => destruct c end;
  simpl; auto.
Qed.

#[global] Instance max_proper : Proper (num_eq ==> num_eq ==> num_eq) max.
Proof.
  intros a a' Ha b b' Hb.
  pose proof (ltb_proper _ _ Ha _ _ Hb) as E.
  destruct a as [x| | |], a' as [x'| | |]; simpl in Ha; try contradiction;
  destruct b as [y| | |], b' as [y'| | |]; simpl in Hb; try contradiction;
  unfold max; try rewrite E; simpl; auto;
  match goal with |- context [if ?c then _ else _] => destruct c end;
  simpl; auto.
Qed.

#[global] Instance lift_proper (f : Q -> Q) :
  Proper (Qeq ==> Qeq) f -> Proper (num_eq ==> num_eq) (lift f).
Proof.
  intros Hf a a' Ha. destruct a, a'; simpl in *; auto.
Qed.

Lemma scale_inf_pos (p : bool) (c : Q) :
  (0 < c)%Q -> scale_inf p c = if p then PosInf else NegInf.
Proof.
  intros H. unfold scale_inf.
  rewrite Qeq_bool_false by (intro E; rewrite E in H; discriminate).
  apply Qltb_lt in H. rewrite H. now destruct p.
Qed.

(** Arithmetic on finite numbers is finite. *)
Lemma finite_num (q : Q) : finite (Num q).
Proof. exact I. Qed.

Lemma finite_neg (a : num) : finite a -> finite (neg a).
Proof. now destruct a. Qed.

Lemma finite_add (a b : num) : finite a -> finite b -> finite (add a b).
Proof. now destruct a, b. Qed.

Lemma finite_sub (a b : num) : finite a -> finite b -> finite (sub a b).
Proof. now destruct a, b. Qed.

Lemma finite_mul (a b : num) : finite a -> finite b -> finite (mul a b).
Proof. now destruct a, b. Qed.

Lemma in_range_finite (lo hi : Q) (a : num) : in_range lo hi a -> finite a.
Proof. now destruct a. Qed.

Lemma bounded_finite (B : Q) (a : num) : bounded B a -> finite a.
Proof. apply in_range_finite. Qed.

Create HintDb jsnum.

#[global] Hint Resolve finite_num finite_neg finite_add finite_sub finite_mul
  in_range_finite bounded_finite : jsnum.

Lemma Qmult_comm_eq (x y : Q) : (x * y)%Q = (y * x)%Q.
Proof.
  destruct x as [a b], y as [c d]. unfold Qmult. cbn [Qnum Qden].
  now rewrite Z.mul_comm, Pos.mul_comm.
Qed.

(** Multiplication commutes, on the nose. *)
Lemma mul_comm (a b : num) : mul a b = mul b a.
Proof.
  destruct a as [x| | |], b as [y| | |]; try reflexivity.
  simpl. now rewrite Qmult_comm_eq.
Qed.

(** A positive constant times a square: [c * a * a] is [c * (a * a)]. *)
Lemma mul_const_sq (c : Q) (a : num) :
  (0 < c)%Q -> num_eq (mul (mul (Num c) a) a) (mul (Num c) (mul a a)).
Proof.
  intros Hc. destruct a as [x| | |]; auto.
  - simpl. ring.
  - cbn [mul]. rewrite !scale_inf_pos by assumption. reflexivity.
  - cbn [mul]. rewrite !scale_inf_pos by assumption. cbn [mul].
    rewrite ?scale_inf_pos by assumption. reflexivity.
  - reflexivity.
Qed.

(** *** Negation against the other operations *)

Lemma neg_involutive (a : num) : num_eq (neg (neg a)) a.
Proof. destruct a; simpl; auto. ring. Qed.

Lemma add_neg_neg (a b : num) : num_eq (add (neg a) (neg b)) (neg (add a b)).
Proof. destruct a, b; simpl; auto. ring. Qed.

Lemma sub_neg_neg (a b : num) : num_eq (sub (neg a) (neg b)) (neg (sub a b)).
Proof. unfold sub. apply add_neg_neg. Qed.

Lemma neg_scale_inf (p : bool) (y : Q) :
  neg (scale_inf p y) = scale_inf (negb p) y.
Proof.
  unfold scale_inf. destruct (Qeq_bool y 0); [reflexivity|].
  now destruct p, (Qltb 0 y).
Qed.

Lemma scale_inf_opp (p : bool) (y : Q) :
  scale_inf p (- y) = scale_inf (negb p) y.
Proof.
  unfold scale_inf.
  destruct (Qeq_bool y 0) eqn:E.
  - apply Qeq_bool_iff in E.
    replace (Qeq_bool (- y) 0) with true; [reflexivity|].
    symmetry. apply Qeq_bool_iff. lra.
  - assert (Hy : ~ (y == 0)%Q).
    { intros H. apply Qeq_bool_iff in H. congruence. }
    rewrite Qeq_bool_false by lra.
    destruct (Qltb 0 y) eqn:E1.
    + apply Qltb_lt in E1.
      replace (Qltb 0 (- y)) with false by (symmetry; apply Qltb_ge; lra).
      now destruct p.
    + apply Qltb_ge in E1.
      replace (Qltb 0 (- y)) with true by (symmetry; apply Qltb_lt; lra).
      now destruct p.
Qed.

Lemma mul_neg_l (a b : num) : num_eq (mul (neg a) b) (neg (mul a b)).
Proof.
  destruct a as [x| | |], b as [y| | |]; simpl; auto;
    rewrite ?neg_scale_inf, ?scale_inf_opp; simpl; try reflexivity.
  ring.
Qed.

Lemma mul_neg_r (a b : num) : num_eq (mul a (neg b)) (neg (mul a b)).
Proof. rewrite (mul_comm a (neg b)), (mul_comm a b). apply mul_neg_l. Qed.

(** NaN absorbs. *)
Lemma add_NaN_r (a : num) : add a NaN = NaN.
Proof. now destruct a. Qed.

Lemma sub_NaN_l (a : num) : sub NaN a = NaN.
Proof. reflexivity. Qed.

Lemma sub_NaN_r (a : num) : sub a NaN = NaN.
Proof. now destruct a. Qed.

Lemma mul_NaN_r (a : num) : mul a NaN = NaN.
Proof. now destruct a. Qed.

Lemma min_NaN_r (a : num) : min a NaN = NaN.
Proof. now destruct a. Qed.

Lemma max_NaN_r (a : num) : max a NaN = NaN.
Proof. now destruct a. Qed.

Lemma read_fmap_neg (l : list num) (i : nat) :
  read (neg <$> l) i = neg (read l i).
Proof. unfold read. rewrite list_lookup_fmap. now destruct (l !! i). Qed.



End JSFacts.

(** ** The Moog ladder *)

Module MoogLadderFacts.
Import MoogLadderProcessor.
Local Open Scope num_scope.

(** *** The saturator on a few arguments *)

Example _tanh_values :
  _tanh 0 == 0 /\ _tanh 1 == (7 # 9)%Q /\ _tanh 3 == 1 /\
  _tanh 4 = 1 /\ _tanh (-4) = -1 /\
  _tanh JS.PosInf = 1 /\ _tanh JS.NegInf = -1 /\ _tanh JS.NaN = JS.NaN.
Proof. repeat split; vm_compute; reflexivity. Qed.

(** *** The per-sample step against its reference definition *)

Section Refinement.
Variable sampleRate : JS.num.

Lemma Qabs_gt3 (q : Q) :
  Qltb 3 (Qabs q) = Qltb 3 q || Qltb q (-3).
Proof.
  destruct (Qltb 3 q) eqn:E1; simpl.
  - apply Qltb_lt. apply Qltb_lt in E1. now apply Qabs_gt.
  - apply Qltb_ge in E1. destruct (Qltb q (-3)) eqn:E2.
    + apply Qltb_lt. apply Qltb_lt in E2.
      rewrite <- Qabs_opp. apply Qabs_gt. lra.
    + apply Qltb_ge. apply Qltb_ge in E2. apply Qabs_Qle_condition. lra.
Qed.

(** The source's two comparisons select the same branch as [|x| > 3]. *)
Lemma _tanh_sat (x : JS.num) : _tanh x = sat x.
Proof.
  destruct x as [q| | |]; try reflexivity.
  unfold _tanh, sat, JS.gtb, JS.abs, JS.ltb.
  rewrite Qabs_gt3.
  destruct (Qltb 3 q) eqn:E1; simpl.
  - replace (Qltb 0 q) with true; [reflexivity|].
    symmetry. apply Qltb_lt. apply Qltb_lt in E1. lra.
  - destruct (Qltb q (-3)) eqn:E2; [|reflexivity].
    replace (Qltb 0 q) with false; [reflexivity|].
    symmetry. apply Qltb_ge. apply Qltb_lt in E2. lra.
Qed.

#[global] Instance sat_proper : Proper (JS.num_eq ==> JS.num_eq) sat.
Proof.
  intros a b H. rewrite <- !_tanh_sat. unfold _tanh.
  rewrite (JSFacts.gtb_proper _ _ H 3 3 (reflexivity _)).
  rewrite (JSFacts.ltb_proper _ _ H (-3) (-3) (reflexivity _)).
  destruct (b >? 3); [reflexivity|].
  destruct (b <? -3); [reflexivity|].
  cbv zeta. now rewrite H.
Qed.

#[global] Instance stage_ref_proper :
  Proper (JS.num_eq ==> JS.num_eq ==> JS.num_eq ==> JS.num_eq) stage_ref.
Proof.
  intros fc fc' Hfc a a' Ha y y' Hy. unfold stage_ref.
  now rewrite Hfc, Ha, Hy.
Qed.

Lemma sample_stage (cutoff resonance inp : JS.num) (s : stages) :
  sample sampleRate cutoff resonance inp s =
  let '(y1, y2, y3, y4) := s in
  let fc := JS.min (2 * cutoff / sampleRate) 0.999 in
  let x := inp - resonance * (1 - 0.15 * fc * fc) * y4 in
  let y1' := stage_ref fc x y1 in
  let y2' := stage_ref fc y1' y2 in
  let y3' := stage_ref fc y2' y3 in
  (y1', y2', y3', stage_ref fc y3' y4).
Proof.
  destruct s as [[[y1 y2] y3] y4]. unfold sample, stage_ref.
  cbv zeta. now rewrite !_tanh_sat.
Qed.

(** C1. For every input sample, cutoff, resonance and filter state, one
    per-sample step of the Moog ladder equals the reference definition:
    [fc = min(2·cutoff/sampleRate, 0.999)], [fb = resonance·(1 − 0.15·fc²)],
    stage input [x = input − fb·y4] with the previous [y4], four cascaded
    stages [yN + fc·(sat(stageInput·0.5) − sat(yN·0.5))] with [sat] the
    rational saturator, and the sample written to the output is the updated
    [y4], which is also what [process] persists. *)
Theorem moog_sample_refines_reference
    (self : t) (cutoff resonance inp o : JS.num) :
  let s := (_y1 self, _y2 self, _y3 self, _y4 self) in
  stages_eq (sample sampleRate cutoff resonance inp s)
            (sample_ref sampleRate cutoff resonance inp s) /\
  process sampleRate self (Some [inp]) [o] [cutoff] [resonance] =
    (let '(y1, y2, y3, y4) := sample sampleRate cutoff resonance inp s in
     (mk y1 y2 y3 y4 (_oldX self)
         (_oldY1 self) (_oldY2 self) (_oldY3 self) (_oldY4 self),
      [y4])).
Proof.
  intros s. split.
  - rewrite sample_stage. subst s. unfold sample_ref, stages_eq. cbn [fst snd].
    set (fc := JS.min (2 * cutoff / sampleRate) 0.999).
    assert (Hx : inp - resonance * (1 - 0.15 * fc * fc) * _y4 self ==
                 inp - resonance * (1 - 0.15 * (fc * fc)) * _y4 self).
    { now rewrite (JSFacts.mul_const_sq 0.15 fc). }
    repeat split; now rewrite Hx.
  - unfold process. cbn [length loop]. subst s.
    change (JS.param_at [cutoff] 0) with cutoff.
    change (JS.param_at [resonance] 0) with resonance.
    change (JS.read [inp] 0) with inp.
    destruct (sample _ _ _ _ _) as [[[y1 y2] y3] y4]. reflexivity.
Qed.

End Refinement.

(** *** Finiteness: the stages stay within a bound fixed by the initial state *)

Section Finiteness.
Variable sr : Q.
Hypothesis sr_pos : (0 < sr)%Q.

Lemma cube_le (q : Q) : (q <= 3 -> q * (27 + q * q) <= 27 + 9 * (q * q))%Q.
Proof.
  intros H.
  assert (H1 : (0 <= (3 - q) * ((3 - q) * (3 - q)))%Q).
  { apply Qmult_le_0_compat; [lra|]. nra. }
  nra.
Qed.

Lemma cube_ge (q : Q) :
  (-3 <= q -> - (27 + 9 * (q * q)) <= q * (27 + q * q))%Q.
Proof.
  intros H.
  assert (H1 : (0 <= (3 + q) * ((3 + q) * (3 + q)))%Q).
  { apply Qmult_le_0_compat; [lra|]. nra. }
  nra.
Qed.

(** On a finite argument [_tanh] is finite, lies in [[-1, 1]], and is
    saturated at [±1] from magnitude 3 on. *)
Lemma _tanh_num (q : Q) :
  exists r : Q, _tanh (JS.Num q) = JS.Num r /\
    (-1 <= r <= 1)%Q /\ (3 <= q -> r == 1)%Q /\ (q <= -3 -> r == -1)%Q.
Proof.
  unfold _tanh, JS.gtb, JS.ltb.
  destruct (Qltb 3 q) eqn:E1.
  { apply Qltb_lt in E1. exists 1%Q. repeat split; try lra. }
  apply Qltb_ge in E1.
  destruct (Qltb q (-3)) eqn:E2.
  { apply Qltb_lt in E2. exists (-1)%Q. repeat split; try lra.  }
  apply Qltb_ge in E2.
  assert (HD : (0 < 27 + 9 * (q * q))%Q) by nra.
  cbv zeta. cbn [JS.mul JS.add JS.div].
  rewrite Qeq_bool_false by lra.
  exists (q * (27 + q * q) / (27 + 9 * (q * q)))%Q.
  split; [reflexivity|]. split; [split|split].
  - apply Qle_shift_div_l; [exact HD|].
    pose proof (cube_ge q E2). lra.
  - apply Qle_shift_div_r; [exact HD|].
    pose proof (cube_le q E1). lra.
  - intros H3. assert (Hq : (q == 3)%Q) by lra. rewrite Hq. reflexivity.
  - intros H3. assert (Hq : (q == -3)%Q) by lra. rewrite Hq. reflexivity.
Qed.

(** One stage keeps a value within any bound of at least 8 it already met. *)
Lemma moog_stage_bounded (fc B : Q) (a y : JS.num) :
  (0 <= fc <= 1)%Q -> (8 <= B)%Q -> JS.finite a -> JS.bounded B y ->
  JS.bounded B (y + JS.Num fc * (_tanh (a * 0.5) - _tanh (y * 0.5))).
Proof.
  intros Hfc HB Ha Hy.
  destruct a as [a| | |]; try contradiction.
  destruct y as [y| | |]; try contradiction.
  unfold JS.bounded in *. cbn [JS.in_range] in Hy. cbn [JS.mul].
  destruct (_tanh_num (a * 0.5)) as (ra & -> & Hra & _ & _).
  destruct (_tanh_num (y * 0.5)) as (ry & -> & Hry & Hhi & Hlo).
  cbn.
  destruct (Qlt_le_dec y 6) as [Hy6|Hy6];
  [destruct (Qlt_le_dec (-6) y) as [Hy6'|Hy6']|].
  - nra.
  - assert (E : (ry == -1)%Q) by (apply Hlo; lra). nra.
  - assert (E : (ry == 1)%Q) by (apply Hhi; lra). nra.
Qed.

(** The clamped normalised cutoff is a finite number in [[0, 1]]. *)
Lemma fc_range (cutoff : JS.num) :
  JS.in_range 20 20000 cutoff ->
  exists fc : Q,
    JS.min (2 * cutoff / JS.Num sr) 0.999 = JS.Num fc /\ (0 <= fc <= 1)%Q.
Proof.
  destruct cutoff as [c| | |]; cbn [JS.in_range]; try contradiction.
  intros Hc. cbn [JS.mul JS.div].
  rewrite Qeq_bool_false by lra.
  assert (Hf : (0 <= 2 * c / sr)%Q).
  { apply Qle_shift_div_l; [exact sr_pos|]. lra. }
  unfold JS.min, JS.ltb.
  destruct (Qltb 0.999 (2 * c / sr)) eqn:E.
  - exists 0.999%Q. split; [reflexivity|lra].
  - apply Qltb_ge in E. exists (2 * c / sr)%Q. split; [reflexivity|lra].
Qed.

Lemma moog_sample_bounded (B : Q) (cutoff resonance inp : JS.num)
    (s : stages) :
  (8 <= B)%Q ->
  JS.in_range 20 20000 cutoff -> JS.finite resonance -> JS.finite inp ->
  stages_bounded B s ->
  stages_bounded B (sample (JS.Num sr) cutoff resonance inp s).
Proof.
  intros HB Hc Hr Hi Hs.
  destruct s as [[[y1 y2] y3] y4]. destruct Hs as (H1 & H2 & H3 & H4).
  cbn [fst snd] in *. unfold sample. cbv zeta.
  destruct (fc_range cutoff Hc) as (fc & -> & Hfc).
  set (x := inp - resonance * (1 - 0.15 * fc * fc) * y4).
  assert (Hx : JS.finite x) by (subst x; eauto 12 with jsnum).
  set (y1' := y1 + _).
  assert (S1 : JS.bounded B y1') by now apply moog_stage_bounded.
  set (y2' := y2 + _).
  assert (S2 : JS.bounded B y2') by (apply moog_stage_bounded; eauto with jsnum).
  set (y3' := y3 + _).
  assert (S3 : JS.bounded B y3') by (apply moog_stage_bounded; eauto with jsnum).
  set (y4' := y4 + _).
  assert (S4 : JS.bounded B y4') by (apply moog_stage_bounded; eauto with jsnum).
  repeat split; assumption.
Qed.

Lemma moog_loop_bounded (B : Q) (input cutoffs resonances : list JS.num)
    (n : nat) :
  (8 <= B)%Q ->
  forall (i : nat) (s : stages) (out : list JS.num),
  (forall j, (i <= j < i + n)%nat ->
     JS.in_range 20 20000 (JS.param_at cutoffs j)) ->
  (forall j, (i <= j < i + n)%nat -> JS.finite (JS.param_at resonances j)) ->
  (forall j, (i <= j < i + n)%nat -> JS.finite (JS.read input j)) ->
  stages_bounded B s ->
  (i + n <= length out)%nat ->
  let r := loop (JS.Num sr) n i input cutoffs resonances s out in
  stages_bounded B r.1 /\ length r.2 = length out /\
  (forall j, (j < i)%nat -> r.2 !! j = out !! j) /\
  (forall j, (i <= j < i + n)%nat ->
     exists v, r.2 !! j = Some v /\ JS.bounded B v).
Proof.
  intros HB. induction n as [|n IH]; intros i s out Hc Hr Hi Hs Hlen.
  - cbn. split; [exact Hs|]. split; [reflexivity|].
    split; [reflexivity|]. intros j Hj. lia.
  - cbn [loop]. cbv zeta.
    set (s' := sample _ _ _ _ s).
    assert (Hs' : stages_bounded B s').
    { apply moog_sample_bounded; auto; [apply Hc|apply Hr|apply Hi]; lia. }
    destruct (IH (S i) s' (<[i := s'.2]> out)) as (I1 & I2 & I3 & I4).
    + intros j Hj. apply Hc. lia.
    + intros j Hj. apply Hr. lia.
    + intros j Hj. apply Hi. lia.
    + exact Hs'.
    + rewrite length_insert. lia.
    + rewrite length_insert in I2.
      split; [exact I1|]. split; [exact I2|]. split.
      * intros j Hj. rewrite I3 by lia. apply list_lookup_insert_ne. lia.
      * intros j Hj. destruct (decide (j = i)) as [->|Hne].
        -- exists s'.2. split; [|apply Hs'].
           rewrite I3 by lia. apply list_lookup_insert_eq. lia.
        -- apply I4. lia.
Qed.

(** A block processed from a bounded state: the persisted stages and every
    output sample are within the same bound. *)
Lemma moog_process_bounded (B : Q) (self : t)
    (input output cutoffs resonances : list JS.num) :
  (8 <= B)%Q ->
  stages_bounded B (_y1 self, _y2 self, _y3 self, _y4 self) ->
  length input = length output ->
  Forall JS.finite input ->
  (forall i, (i < length output)%nat ->
     JS.in_range 20 20000 (JS.param_at cutoffs i)) ->
  (forall i, (i < length output)%nat ->
     JS.in_range 0 4 (JS.param_at resonances i)) ->
  let r := process (JS.Num sr) self (Some input) output cutoffs resonances in
  stages_bounded B (_y1 r.1, _y2 r.1, _y3 r.1, _y4 r.1) /\
  length r.2 = length output /\ Forall (JS.bounded B) r.2.
Proof.
  intros HB Hs Hlen Hin Hc Hr. unfold process.
  pose proof (moog_loop_bounded B input cutoffs resonances (length output) HB
                0%nat (_y1 self, _y2 self, _y3 self, _y4 self) output) as L.
  destruct (loop _ _ _ _ _ _ _ _) as [[[[y1 y2] y3] y4] out'].
  cbn [fst snd _y1 _y2 _y3 _y4] in *.
  destruct L as (L1 & L2 & _ & L4); auto.
  - intros j Hj. apply Hc. lia.
  - intros j Hj. eapply JSFacts.in_range_finite. apply Hr. lia.
  - intros j Hj. unfold JS.read.
    destruct (input !! j) as [v|] eqn:E.
    + cbn. eapply Forall_lookup_1 in Hin; eauto.
    + apply lookup_ge_None in E. lia.
  - split; [exact L1|]. split; [exact L2|].
    apply Forall_lookup_2. intros j v Hv.
    destruct (L4 j) as (v' & Hv' & Hb).
    + apply lookup_lt_Some in Hv. lia.
    + congruence.
Qed.

End Finiteness.

(** *** The saturator: symmetry, monotonicity *)

#[global] Instance _tanh_proper : Proper (JS.num_eq ==> JS.num_eq) _tanh.
Proof. intros a b H. rewrite !_tanh_sat. now apply sat_proper. Qed.

Lemma _tanh_NaN : _tanh JS.NaN = JS.NaN.
Proof. reflexivity. Qed.

(** Between the two knees [_tanh] is the rational form. *)
Lemma _tanh_mid (q : Q) :
  (-3 <= q <= 3)%Q ->
  _tanh (JS.Num q) = JS.Num (q * (27 + q * q) / (27 + 9 * (q * q))).
Proof.
  intros [H1 H2]. unfold _tanh, JS.gtb, JS.ltb.
  replace (Qltb 3 q) with false by (symmetry; apply Qltb_ge; lra).
  replace (Qltb q (-3)) with false by (symmetry; apply Qltb_ge; lra).
  cbv zeta. cbn [JS.mul JS.add JS.div].
  rewrite Qeq_bool_false by nra. reflexivity.
Qed.

Lemma _tanh_odd (x : JS.num) : _tanh (- x) == - _tanh x.
Proof.
  destruct x as [q| | |]; try (vm_compute; reflexivity).
  destruct (Qlt_le_dec 3 q) as [H|H].
  { unfold _tanh, JS.gtb. cbn [JS.neg JS.ltb].
    replace (Qltb 3 q) with true by (symmetry; apply Qltb_lt; lra).
    replace (Qltb 3 (- q)) with false by (symmetry; apply Qltb_ge; lra).
    replace (Qltb (- q) (-3)) with true by (symmetry; apply Qltb_lt; lra).
    reflexivity. }
  destruct (Qlt_le_dec q (-3)) as [H'|H'].
  { unfold _tanh, JS.gtb. cbn [JS.neg JS.ltb].
    replace (Qltb 3 q) with false by (symmetry; apply Qltb_ge; lra).
    replace (Qltb q (-3)) with true by (symmetry; apply Qltb_lt; lra).
    replace (Qltb 3 (- q)) with true by (symmetry; apply Qltb_lt; lra).
    cbn. ring. }
  cbn [JS.neg]. rewrite (_tanh_mid q), (_tanh_mid (- q)) by lra.
  cbn [JS.neg JS.num_eq]. field. nra.
Qed.



(** *** Invariants of the per-sample loop *)

Section Loop.
Variable sampleRate : JS.num.

(** An invariant of the loop body that may depend on the sample index holds
    at the end, and each output sample is the last stage of a state that
    satisfies it. *)
Lemma moog_loop_invariant (P : nat -> stages -> Prop)
    (input cutoffs resonances : list JS.num) (n : nat) :
  forall (i : nat) (s : stages) (out : list JS.num),
  (forall j s, (i <= j < i + n)%nat -> P j s ->
     P (S j) (sample sampleRate (JS.param_at cutoffs j)
                (JS.param_at resonances j) (JS.read input j) s)) ->
  P i s -> (i + n <= length out)%nat ->
  let r := loop sampleRate n i input cutoffs resonances s out in
  P (i + n)%nat r.1 /\ length r.2 = length out /\
  (forall j, (j < i)%nat -> r.2 !! j = out !! j) /\
  (forall j, (i <= j < i + n)%nat ->
     exists s', P (S j) s' /\ r.2 !! j = Some s'.2).
Proof.
  induction n as [|n IH]; intros i s out Hstep Hs Hlen.
  - cbn. rewrite Nat.add_0_r. split; [exact Hs|]. split; [reflexivity|].
    split; [reflexivity|]. intros j Hj. lia.
  - cbn [loop]. cbv zeta.
    set (s' := sample _ _ _ _ s).
    assert (Hs' : P (S i) s') by (apply Hstep; [lia|exact Hs]).
    destruct (IH (S i) s' (<[i := s'.2]> out)) as (I1 & I2 & I3 & I4).
    + intros j s0 Hj. apply Hstep. lia.
    + exact Hs'.
    + rewrite length_insert. lia.
    + rewrite length_insert in I2.
      replace (i + S n)%nat with (S i + n)%nat by lia.
      split; [exact I1|]. split; [exact I2|]. split.
      * intros j Hj. rewrite I3 by lia. apply list_lookup_insert_ne. lia.
      * intros j Hj. destruct (decide (j = i)) as [->|Hne].
        -- exists s'. split; [exact Hs'|].
           rewrite I3 by lia. apply list_lookup_insert_eq. lia.
        -- apply I4. lia.
Qed.

(** *** Polarity *)

Lemma moog_stage_odd (fc a y a' y' : JS.num) :
  a' == - a -> y' == - y ->
  y' + fc * (_tanh (a' * 0.5) - _tanh (y' * 0.5)) ==
  - (y + fc * (_tanh (a * 0.5) - _tanh (y * 0.5))).
Proof.
  intros Ha Hy. rewrite Ha, Hy.
  rewrite !JSFacts.mul_neg_l, !_tanh_odd, JSFacts.sub_neg_neg,
    JSFacts.mul_neg_r, JSFacts.add_neg_neg.
  reflexivity.
Qed.

Lemma moog_sample_odd (cutoff resonance inp inp' : JS.num) (s s' : stages) :
  inp' == - inp -> stages_eq s' (neg_stages s) ->
  stages_eq (sample sampleRate cutoff resonance inp' s')
            (neg_stages (sample sampleRate cutoff resonance inp s)).
Proof.
  intros Hi Hs.
  destruct s as [[[y1 y2] y3] y4], s' as [[[z1 z2] z3] z4].
  destruct Hs as (H1 & H2 & H3 & H4). cbn [fst snd neg_stages] in *.
  unfold sample. cbv zeta.
  set (fc := JS.min (2 * cutoff / sampleRate) 0.999).
  set (fb := resonance * (1 - 0.15 * fc * fc)).
  assert (Hx : inp' - fb * z4 == - (inp - fb * y4)).
  { rewrite Hi, H4, JSFacts.mul_neg_r. apply JSFacts.sub_neg_neg. }
  pose proof (moog_stage_odd fc _ y1 _ z1 Hx H1) as S1.
  pose proof (moog_stage_odd fc _ y2 _ z2 S1 H2) as S2.
  pose proof (moog_stage_odd fc _ y3 _ z3 S2 H3) as S3.
  pose proof (moog_stage_odd fc _ y4 _ z4 S3 H4) as S4.
  unfold stages_eq, neg_stages. cbn [fst snd]. auto.
Qed.

Lemma moog_loop_odd (input cutoffs resonances : list JS.num) (n : nat) :
  forall (i : nat) (s s' : stages) (out out' : list JS.num),
  stages_eq s' (neg_stages s) ->
  length out' = length out -> (i + n <= length out)%nat ->
  (forall j a, (j < i)%nat -> out !! j = Some a ->
     exists b, out' !! j = Some b /\ b == - a) ->
  let r := loop sampleRate n i input cutoffs resonances s out in
  let r' := loop sampleRate n i (JS.neg <$> input) cutoffs resonances
              s' out' in
  stages_eq r'.1 (neg_stages r.1) /\
  length r'.2 = length r.2 /\
  (forall j a, (j < i + n)%nat -> r.2 !! j = Some a ->
     exists b, r'.2 !! j = Some b /\ b == - a).
Proof.
  induction n as [|n IH]; intros i s s' out out' Hs Hlen Hin Hout.
  - cbn. rewrite Nat.add_0_r. auto.
  - cbn [loop]. cbv zeta. rewrite JSFacts.read_fmap_neg.
    set (t := sample _ _ _ (JS.read input i) s).
    set (t' := sample _ _ _ (- JS.read input i) s').
    assert (Ht : stages_eq t' (neg_stages t)).
    { apply moog_sample_odd; [reflexivity|exact Hs]. }
    replace (i + S n)%nat with (S i + n)%nat by lia.
    apply IH.
    + exact Ht.
    + now rewrite !length_insert.
    + rewrite length_insert. lia.
    + intros j a Hj Ha. destruct (decide (j = i)) as [->|Hne].
      * rewrite list_lookup_insert_eq in Ha by lia. injection Ha as <-.
        exists t'.2. split; [apply list_lookup_insert_eq; lia|apply Ht].
      * rewrite list_lookup_insert_ne in Ha by lia.
        rewrite list_lookup_insert_ne by lia. apply Hout; [lia|exact Ha].
Qed.

(** *** NaN *)

Lemma moog_sample_poisoned (cutoff resonance inp : JS.num) (s : stages) :
  inp = JS.NaN \/ s.2 = JS.NaN ->
  poisoned (sample sampleRate cutoff resonance inp s).
Proof.
  intros H. destruct s as [[[y1 y2] y3] y4]. cbn [snd] in H.
  unfold sample, poisoned. cbv zeta.
  set (fc := JS.min (2 * cutoff / sampleRate) 0.999).
  set (fb := resonance * (1 - 0.15 * fc * fc)).
  assert (Hx : inp - fb * y4 = JS.NaN).
  { destruct H as [-> | ->]; [reflexivity|].
    now rewrite JSFacts.mul_NaN_r, JSFacts.sub_NaN_r. }
  rewrite Hx.
  assert (St : forall y, y + fc * (_tanh (JS.NaN * 0.5) - _tanh (y * 0.5))
                         = JS.NaN).
  { intros y. change (JS.NaN * 0.5) with JS.NaN. rewrite _tanh_NaN.
    rewrite JSFacts.sub_NaN_l, JSFacts.mul_NaN_r. apply JSFacts.add_NaN_r. }
  now rewrite !St.
Qed.

End Loop.

End MoogLadderFacts.

(** ** The transistor ladder *)

Module KorgFilterFacts.
Import KorgFilterProcessor.
Local Open Scope num_scope.

(** *** The per-sample step against its reference definition *)

Section Refinement.
Variable sampleRate : JS.num.
Variable tan : Q -> Q.

(** C3. For every input sample, cutoff, peak and filter state, one
    per-sample step of the transistor-ladder filter equals the reference
    definition: [g = tan(π·min(cutoff, 0.49·sampleRate)/sampleRate)],
    [G = g/(1+g)], [fb = peak·4], the hard clip [max(-1, min(1, 0.7·x))]
    applied to the filter input [input − fb·s4] and again at each of the four
    stage inputs, stages [sN + G·(clip(stageInput) − sN)], and the sample
    written to the output is the updated [s4], which [process] persists. *)
Theorem korg_sample_refines_reference
    (self : t) (cutoff peak inp o : JS.num) :
  let s := (_s1 self, _s2 self, _s3 self, _s4 self) in
  sample sampleRate tan cutoff peak inp s =
    sample_ref sampleRate tan cutoff peak inp s /\
  process sampleRate tan self (Some [inp]) [o] [cutoff] [peak] =
    (let '(s1, s2, s3, s4) := sample_ref sampleRate tan cutoff peak inp s in
     (mk s1 s2 s3 s4, [s4])).
Proof.
  intros s.
  assert (Hclip : forall x, _clip x = clip_ref x).
  { intros x. unfold _clip, clip_ref. now rewrite JSFacts.mul_comm. }
  assert (Hs : sample sampleRate tan cutoff peak inp s =
               sample_ref sampleRate tan cutoff peak inp s).
  { subst s. unfold sample, sample_ref, stage_ref. cbv zeta.
    rewrite !Hclip. now rewrite (JSFacts.mul_comm sampleRate 0.49). }
  split; [exact Hs|].
  unfold process. cbn [length loop].
  change (JS.param_at [cutoff] 0) with cutoff.
  change (JS.param_at [peak] 0) with peak.
  change (JS.read [inp] 0) with inp.
  fold s. rewrite Hs.
  destruct (sample_ref _ _ _ _ _ _) as [[[s1 s2] s3] s4]. reflexivity.
Qed.

End Refinement.

(** *** The hard clip on a few arguments *)

Example _clip_values :
  _clip 1 == 0.7 /\ _clip 2 = 1 /\ _clip (-2) = -1 /\
  _clip JS.PosInf = 1 /\ _clip JS.NegInf = -1 /\ _clip JS.NaN = JS.NaN.
Proof. repeat split; vm_compute; reflexivity. Qed.

(** *** Finiteness: the stages stay within a bound fixed by the initial state *)

Section Finiteness.
Variable sr : Q.
Variable tan : Q -> Q.
Hypothesis sr_pos : (0 < sr)%Q.
(** The tangent is non-negative below a quarter turn. *)
Hypothesis tan_nonneg :
  forall x : Q, (0 <= x <= 0.49 * Math_PI -> 0 <= tan x)%Q.

Lemma PI_pos : (0 < Math_PI)%Q.
Proof. reflexivity. Qed.

(** The hard clip of a finite number is a finite number in [[-1, 1]]. *)
Lemma _clip_num (a : JS.num) : JS.finite a -> JS.bounded 1 (_clip a).
Proof.
  destruct a as [q| | |]; try contradiction. intros _.
  unfold _clip. cbn [JS.mul]. unfold JS.min, JS.ltb.
  destruct (Qltb (q * 0.7) 1) eqn:E1.
  - apply Qltb_lt in E1. unfold JS.max, JS.ltb.
    destruct (Qltb (-1) (q * 0.7)) eqn:E2.
    + apply Qltb_lt in E2. unfold JS.bounded. cbn. lra.
    + unfold JS.bounded. cbn. lra.
  - unfold JS.max, JS.ltb.
    replace (Qltb (-1) 1) with true by reflexivity.
    unfold JS.bounded. cbn. lra.
Qed.

(** The one-pole coefficient [G = g/(1+g)] is a finite number in [[0, 1]]. *)
Lemma G_range (cutoff : JS.num) :
  JS.in_range 20 20000 cutoff ->
  let g := Math_tan tan
             (Math_PI * JS.min cutoff (JS.Num sr * 0.49) / JS.Num sr) in
  exists G : Q, g / (1 + g) = JS.Num G /\ (0 <= G <= 1)%Q.
Proof.
  destruct cutoff as [c| | |]; cbn [JS.in_range]; try contradiction.
  intros Hc. cbn [JS.mul]. unfold JS.min, JS.ltb.
  assert (Hm : exists m : Q,
    (if Qltb (sr * 0.49) c then JS.Num (sr * 0.49) else JS.Num c) = JS.Num m
    /\ (0 <= m <= 0.49 * sr)%Q).
  { destruct (Qltb (sr * 0.49) c) eqn:E.
    - exists (sr * 0.49)%Q. split; [reflexivity|lra].
    - apply Qltb_ge in E. exists c. split; [reflexivity|lra]. }
  destruct Hm as (m & -> & Hm). cbn [JS.mul JS.div].
  rewrite Qeq_bool_false by lra.
  cbn [Math_tan JS.lift JS.add JS.div].
  pose proof PI_pos as HPI.
  assert (Harg : (0 <= Math_PI * m / sr <= 0.49 * Math_PI)%Q).
  { split.
    - apply Qle_shift_div_l; [exact sr_pos|]. nra.
    - apply Qle_shift_div_r; [exact sr_pos|]. nra. }
  pose proof (tan_nonneg _ Harg) as Hg.
  rewrite Qeq_bool_false by lra.
  eexists. split; [reflexivity|]. split.
  - apply Qle_shift_div_l; lra.
  - apply Qle_shift_div_r; lra.
Qed.

(** One stage keeps a value within any bound of at least 1 it already met. *)
Lemma korg_stage_bounded (G B : Q) (a s : JS.num) :
  (0 <= G <= 1)%Q -> (1 <= B)%Q -> JS.finite a -> JS.bounded B s ->
  JS.bounded B (s + JS.Num G * (_clip a - s)).
Proof.
  intros HG HB Ha Hs. pose proof (_clip_num a Ha) as Hc.
  destruct (_clip a) as [c| | |]; try contradiction.
  destruct s as [s| | |]; try contradiction.
  unfold JS.bounded in *. cbn in *. nra.
Qed.

Lemma korg_sample_bounded (B : Q) (cutoff peak inp : JS.num)
    (s : stages) :
  (1 <= B)%Q ->
  JS.in_range 20 20000 cutoff -> JS.finite peak -> JS.finite inp ->
  stages_bounded B s ->
  stages_bounded B (sample (JS.Num sr) tan cutoff peak inp s).
Proof.
  intros HB Hc Hp Hi Hs.
  destruct s as [[[s1 s2] s3] s4]. destruct Hs as (H1 & H2 & H3 & H4).
  cbn [fst snd] in *. unfold sample. cbv zeta.
  destruct (G_range cutoff Hc) as (G & -> & HG).
  set (u := _clip (inp - peak * 4 * s4)).
  assert (Hu : JS.finite u).
  { eapply JSFacts.bounded_finite, _clip_num. eauto 10 with jsnum. }
  set (s1' := s1 + _).
  assert (S1 : JS.bounded B s1') by now apply korg_stage_bounded.
  set (s2' := s2 + _).
  assert (S2 : JS.bounded B s2') by (apply korg_stage_bounded; eauto with jsnum).
  set (s3' := s3 + _).
  assert (S3 : JS.bounded B s3') by (apply korg_stage_bounded; eauto with jsnum).
  set (s4' := s4 + _).
  assert (S4 : JS.bounded B s4') by (apply korg_stage_bounded; eauto with jsnum).
  repeat split; assumption.
Qed.

Lemma korg_loop_bounded (B : Q) (input cutoffs peaks : list JS.num)
    (n : nat) :
  (1 <= B)%Q ->
  forall (i : nat) (s : stages) (out : list JS.num),
  (forall j, (i <= j < i + n)%nat ->
     JS.in_range 20 20000 (JS.param_at cutoffs j)) ->
  (forall j, (i <= j < i + n)%nat -> JS.finite (JS.param_at peaks j)) ->
  (forall j, (i <= j < i + n)%nat -> JS.finite (JS.read input j)) ->
  stages_bounded B s ->
  (i + n <= length out)%nat ->
  let r := loop (JS.Num sr) tan n i input cutoffs peaks s out in
  stages_bounded B r.1 /\ length r.2 = length out /\
  (forall j, (j < i)%nat -> r.2 !! j = out !! j) /\
  (forall j, (i <= j < i + n)%nat ->
     exists v, r.2 !! j = Some v /\ JS.bounded B v).
Proof.
  intros HB. induction n as [|n IH]; intros i s out Hc Hp Hi Hs Hlen.
  - cbn. split; [exact Hs|]. split; [reflexivity|].
    split; [reflexivity|]. intros j Hj. lia.
  - cbn [loop]. cbv zeta.
    set (s' := sample _ _ _ _ _ s).
    assert (Hs' : stages_bounded B s').
    { apply korg_sample_bounded; auto; [apply Hc|apply Hp|apply Hi]; lia. }
    destruct (IH (S i) s' (<[i := s'.2]> out)) as (I1 & I2 & I3 & I4).
    + intros j Hj. apply Hc. lia.
    + intros j Hj. apply Hp. lia.
    + intros j Hj. apply Hi. lia.
    + exact Hs'.
    + rewrite length_insert. lia.
    + rewrite length_insert in I2.
      split; [exact I1|]. split; [exact I2|]. split.
      * intros j Hj. rewrite I3 by lia. apply list_lookup_insert_ne. lia.
      * intros j Hj. destruct (decide (j = i)) as [->|Hne].
        -- exists s'.2. split; [|apply Hs'].
           rewrite I3 by lia. apply list_lookup_insert_eq. lia.
        -- apply I4. lia.
Qed.

(** A block processed from a bounded state: the persisted stages and every
    output sample are within the same bound. *)
Lemma korg_process_bounded (B : Q) (self : t)
    (input output cutoffs peaks : list JS.num) :
  (1 <= B)%Q ->
  stages_bounded B (_s1 self, _s2 self, _s3 self, _s4 self) ->
  length input = length output ->
  Forall JS.finite input ->
  (forall i, (i < length output)%nat ->
     JS.in_range 20 20000 (JS.param_at cutoffs i)) ->
  (forall i, (i < length output)%nat ->
     JS.in_range 0 4 (JS.param_at peaks i)) ->
  let r := process (JS.Num sr) tan self (Some input) output cutoffs peaks in
  stages_bounded B (_s1 r.1, _s2 r.1, _s3 r.1, _s4 r.1) /\
  length r.2 = length output /\ Forall (JS.bounded B) r.2.
Proof.
  intros HB Hs Hlen Hin Hc Hp. unfold process.
  pose proof (korg_loop_bounded B input cutoffs peaks (length output) HB
                0%nat (_s1 self, _s2 self, _s3 self, _s4 self) output) as L.
  destruct (loop _ _ _ _ _ _ _ _ _) as [[[[s1 s2] s3] s4] out'].
  cbn [fst snd _s1 _s2 _s3 _s4] in *.
  destruct L as (L1 & L2 & _ & L4); auto.
  - intros j Hj. apply Hc. lia.
  - intros j Hj. eapply JSFacts.in_range_finite. apply Hp. lia.
  - intros j Hj. unfold JS.read.
    destruct (input !! j) as [v|] eqn:E.
    + cbn. eapply Forall_lookup_1 in Hin; eauto.
    + apply lookup_ge_None in E. lia.
  - split; [exact L1|]. split; [exact L2|].
    apply Forall_lookup_2. intros j v Hv.
    destruct (L4 j) as (v' & Hv' & Hb).
    + apply lookup_lt_Some in Hv. lia.
    + congruence.
Qed.

End Finiteness.

(** *** The hard clip: cases, symmetry *)

#[global] Instance _clip_proper : Proper (JS.num_eq ==> JS.num_eq) _clip.
Proof. intros a b H. unfold _clip. now rewrite H. Qed.

Lemma _clip_NaN : _clip JS.NaN = JS.NaN.
Proof. reflexivity. Qed.

Lemma _clip_cases (q : Q) :
  exists r : Q, _clip (JS.Num q) = JS.Num r /\
    (q * 0.7 <= -1 -> r == -1)%Q /\
    (-1 <= q * 0.7 <= 1 -> r == q * 0.7)%Q /\
    (1 <= q * 0.7 -> r == 1)%Q.
Proof.
  unfold _clip. cbn [JS.mul]. unfold JS.min, JS.ltb.
  destruct (Qltb (q * 0.7) 1) eqn:E1.
  - apply Qltb_lt in E1. unfold JS.max, JS.neg, JS.ltb.
    destruct (Qltb (-1) (q * 0.7)) eqn:E2.
    + apply Qltb_lt in E2. eexists. split; [reflexivity|].
      repeat split; intros; lra.
    + apply Qltb_ge in E2. eexists. split; [reflexivity|].
      repeat split; intros; lra.
  - apply Qltb_ge in E1. unfold JS.max, JS.neg, JS.ltb.
    replace (Qltb (-1) 1) with true by reflexivity.
    eexists. split; [reflexivity|]. repeat split; intros; lra.
Qed.

Lemma _clip_odd (x : JS.num) : _clip (- x) == - _clip x.
Proof.
  destruct x as [q| | |]; try (vm_compute; reflexivity).
  cbn [JS.neg].
  destruct (_clip_cases q) as (r & -> & L & M & H).
  destruct (_clip_cases (- q)) as (r' & -> & L' & M' & H').
  cbn [JS.neg JS.num_eq].
  destruct (Qlt_le_dec (q * 0.7) (-1)) as [C1|C1].
  { rewrite L, H' by lra. reflexivity. }
  destruct (Qlt_le_dec 1 (q * 0.7)) as [C2|C2].
  { rewrite H, L' by lra. reflexivity. }
  rewrite M, M' by lra. ring.
Qed.

(** The clip of a number in [[-1, 1]] lies in [[-0.7, 0.7]]. *)
Lemma _clip_contracts (a : JS.num) :
  JS.bounded 1 a -> JS.bounded 0.7 (_clip a).
Proof.
  destruct a as [q| | |]; try contradiction. intros Hq.
  unfold JS.bounded in *. cbn [JS.in_range] in Hq.
  destruct (_clip_cases q) as (r & -> & _ & M & _).
  cbn [JS.in_range]. rewrite M by lra. lra.
Qed.

(** *** Invariants of the per-sample loop *)

Section Loop.
Variable sampleRate : JS.num.
Variable tan : Q -> Q.

Lemma korg_loop_invariant (P : nat -> stages -> Prop)
    (input cutoffs peaks : list JS.num) (n : nat) :
  forall (i : nat) (s : stages) (out : list JS.num),
  (forall j s, (i <= j < i + n)%nat -> P j s ->
     P (S j) (sample sampleRate tan (JS.param_at cutoffs j)
                (JS.param_at peaks j) (JS.read input j) s)) ->
  P i s -> (i + n <= length out)%nat ->
  let r := loop sampleRate tan n i input cutoffs peaks s out in
  P (i + n)%nat r.1 /\ length r.2 = length out /\
  (forall j, (j < i)%nat -> r.2 !! j = out !! j) /\
  (forall j, (i <= j < i + n)%nat ->
     exists s', P (S j) s' /\ r.2 !! j = Some s'.2).
Proof.
  induction n as [|n IH]; intros i s out Hstep Hs Hlen.
  - cbn. rewrite Nat.add_0_r. split; [exact Hs|]. split; [reflexivity|].
    split; [reflexivity|]. intros j Hj. lia.
  - cbn [loop]. cbv zeta.
    set (s' := sample _ _ _ _ _ s).
    assert (Hs' : P (S i) s') by (apply Hstep; [lia|exact Hs]).
    destruct (IH (S i) s' (<[i := s'.2]> out)) as (I1 & I2 & I3 & I4).
    + intros j s0 Hj. apply Hstep. lia.
    + exact Hs'.
    + rewrite length_insert. lia.
    + rewrite length_insert in I2.
      replace (i + S n)%nat with (S i + n)%nat by lia.
      split; [exact I1|]. split; [exact I2|]. split.
      * intros j Hj. rewrite I3 by lia. apply list_lookup_insert_ne. lia.
      * intros j Hj. destruct (decide (j = i)) as [->|Hne].
        -- exists s'. split; [exact Hs'|].
           rewrite I3 by lia. apply list_lookup_insert_eq. lia.
        -- apply I4. lia.
Qed.

(** *** Polarity *)

Lemma korg_stage_odd (G a s a' s' : JS.num) :
  a' == - a -> s' == - s ->
  s' + G * (_clip a' - s') == - (s + G * (_clip a - s)).
Proof.
  intros Ha Hs. rewrite Ha, Hs.
  rewrite _clip_odd, JSFacts.sub_neg_neg, JSFacts.mul_neg_r,
    JSFacts.add_neg_neg.
  reflexivity.
Qed.

Lemma korg_sample_odd (cutoff peak inp inp' : JS.num) (s s' : stages) :
  inp' == - inp -> stages_eq s' (neg_stages s) ->
  stages_eq (sample sampleRate tan cutoff peak inp' s')
            (neg_stages (sample sampleRate tan cutoff peak inp s)).
Proof.
  intros Hi Hs.
  destruct s as [[[y1 y2] y3] y4], s' as [[[z1 z2] z3] z4].
  destruct Hs as (H1 & H2 & H3 & H4). cbn [fst snd neg_stages] in *.
  unfold sample. cbv zeta.
  set (g := Math_tan tan _).
  set (G := g / (1 + g)).
  set (fb := peak * 4).
  assert (Hu : _clip (inp' - fb * z4) == - _clip (inp - fb * y4)).
  { rewrite Hi, H4, JSFacts.mul_neg_r, JSFacts.sub_neg_neg.
    apply _clip_odd. }
  pose proof (korg_stage_odd G _ y1 _ z1 Hu H1) as S1.
  pose proof (korg_stage_odd G _ y2 _ z2 S1 H2) as S2.
  pose proof (korg_stage_odd G _ y3 _ z3 S2 H3) as S3.
  pose proof (korg_stage_odd G _ y4 _ z4 S3 H4) as S4.
  unfold stages_eq, neg_stages. cbn [fst snd]. auto.
Qed.

Lemma korg_loop_odd (input cutoffs peaks : list JS.num) (n : nat) :
  forall (i : nat) (s s' : stages) (out out' : list JS.num),
  stages_eq s' (neg_stages s) ->
  length out' = length out -> (i + n <= length out)%nat ->
  (forall j a, (j < i)%nat -> out !! j = Some a ->
     exists b, out' !! j = Some b /\ b == - a) ->
  let r := loop sampleRate tan n i input cutoffs peaks s out in
  let r' := loop sampleRate tan n i (JS.neg <$> input) cutoffs peaks
              s' out' in
  stages_eq r'.1 (neg_stages r.1) /\
  length r'.2 = length r.2 /\
  (forall j a, (j < i + n)%nat -> r.2 !! j = Some a ->
     exists b, r'.2 !! j = Some b /\ b == - a).
Proof.
  induction n as [|n IH]; intros i s s' out out' Hs Hlen Hin Hout.
  - cbn. rewrite Nat.add_0_r. auto.
  - cbn [loop]. cbv zeta. rewrite JSFacts.read_fmap_neg.
    set (t := sample _ _ _ _ (JS.read input i) s).
    set (t' := sample _ _ _ _ (- JS.read input i) s').
    assert (Ht : stages_eq t' (neg_stages t)).
    { apply korg_sample_odd; [reflexivity|exact Hs]. }
    replace (i + S n)%nat with (S i + n)%nat by lia.
    apply IH.
    + exact Ht.
    + now rewrite !length_insert.
    + rewrite length_insert. lia.
    + intros j a Hj Ha. destruct (decide (j = i)) as [->|Hne].
      * rewrite list_lookup_insert_eq in Ha by lia. injection Ha as <-.
        exists t'.2. split; [apply list_lookup_insert_eq; lia|apply Ht].
      * rewrite list_lookup_insert_ne in Ha by lia.
        rewrite list_lookup_insert_ne by lia. apply Hout; [lia|exact Ha].
Qed.

(** *** NaN *)

Lemma korg_sample_poisoned (cutoff peak inp : JS.num) (s : stages) :
  inp = JS.NaN \/ s.2 = JS.NaN ->
  poisoned (sample sampleRate tan cutoff peak inp s).
Proof.
  intros H. destruct s as [[[s1 s2] s3] s4]. cbn [snd] in H.
  unfold sample, poisoned. cbv zeta.
  set (g := Math_tan tan _).
  set (G := g / (1 + g)).
  set (fb := peak * 4).
  assert (Hu : _clip (inp - fb * s4) = JS.NaN).
  { destruct H as [-> | ->]; [reflexivity|].
    now rewrite JSFacts.mul_NaN_r, JSFacts.sub_NaN_r. }
  rewrite Hu.
  assert (St : forall y, y + G * (_clip JS.NaN - y) = JS.NaN).
  { intros y. rewrite _clip_NaN, JSFacts.sub_NaN_l, JSFacts.mul_NaN_r.
    apply JSFacts.add_NaN_r. }
  now rewrite !St.
Qed.

End Loop.

(** *** The bound from rest *)

Section Tight.
Variable sr : Q.
Variable tan : Q -> Q.
Hypothesis sr_pos : (0 < sr)%Q.
Hypothesis tan_nonneg :
  forall x : Q, (0 <= x <= 0.49 * Math_PI -> 0 <= tan x)%Q.

Lemma korg_stage_tight (G B : Q) (a s : JS.num) :
  (0 <= G <= 1)%Q -> (0.7 <= B)%Q -> JS.bounded 1 a -> JS.bounded B s ->
  JS.bounded B (s + JS.Num G * (_clip a - s)).
Proof.
  intros HG HB Ha Hs. pose proof (_clip_contracts a Ha) as Hc.
  destruct (_clip a) as [c| | |]; try contradiction.
  destruct s as [s| | |]; try contradiction.
  unfold JS.bounded in *. cbn in *. nra.
Qed.

Lemma bounded_weaken (B B' : Q) (a : JS.num) :
  (B <= B')%Q -> JS.bounded B a -> JS.bounded B' a.
Proof.
  destruct a as [q| | |]; try contradiction.
  unfold JS.bounded. cbn. intros. lra.
Qed.

Lemma korg_sample_tight (B : Q) (cutoff peak inp : JS.num) (s : stages) :
  (0.7 <= B <= 1)%Q ->
  JS.in_range 20 20000 cutoff -> JS.finite peak -> JS.finite inp ->
  stages_bounded B s ->
  stages_bounded B (sample (JS.Num sr) tan cutoff peak inp s).
Proof.
  intros [HB HB1] Hc Hp Hi Hs.
  destruct s as [[[s1 s2] s3] s4]. destruct Hs as (H1 & H2 & H3 & H4).
  cbn [fst snd] in *. unfold sample. cbv zeta.
  destruct (G_range sr tan sr_pos tan_nonneg cutoff Hc) as (G & -> & HG).
  set (u := _clip (inp - peak * 4 * s4)).
  assert (Hu : JS.bounded 1 u).
  { apply _clip_num. eauto 10 with jsnum. }
  set (s1' := s1 + _).
  assert (S1 : JS.bounded B s1') by now apply korg_stage_tight.
  set (s2' := s2 + _).
  assert (S2 : JS.bounded B s2').
  { apply korg_stage_tight; auto. now apply (bounded_weaken B). }
  set (s3' := s3 + _).
  assert (S3 : JS.bounded B s3').
  { apply korg_stage_tight; auto. now apply (bounded_weaken B). }
  set (s4' := s4 + _).
  assert (S4 : JS.bounded B s4').
  { apply korg_stage_tight; auto. now apply (bounded_weaken B). }
  repeat split; assumption.
Qed.

(** X2. Once the four stage values of the transistor ladder are within
    [[-B, B]] for a [B] between 0.7 and 1 (at rest they are 0), they stay
    there and so does every output sample, for every finite input however
    large, every cutoff in [[20, 20000]] and every finite peak: because each
    stage input passes the clip twice on its way, the filter driven from
    rest never leaves [[-0.7, 0.7]], self-oscillation included. *)
Theorem korg_output_stays_within_clip_range (B : Q) (self : t)
    (input output cutoffs peaks : list JS.num) :
  (0.7 <= B <= 1)%Q ->
  state_bounded B self ->
  Forall JS.finite input -> length input = length output ->
  (forall i, (i < length output)%nat ->
     JS.in_range 20 20000 (JS.param_at cutoffs i)) ->
  (forall i, (i < length output)%nat -> JS.finite (JS.param_at peaks i)) ->
  let r := process (JS.Num sr) tan self (Some input) output cutoffs peaks in
  state_bounded B r.1 /\ Forall (JS.bounded B) r.2 /\
  length r.2 = length output.
Proof.
  intros HB Hs Hin Hlen Hc Hp. unfold process.
  pose proof (korg_loop_invariant (JS.Num sr) tan
                (fun _ s => stages_bounded B s) input cutoffs peaks
                (length output) 0%nat
                (_s1 self, _s2 self, _s3 self, _s4 self) output) as L.
  destruct (loop _ _ _ _ _ _ _ _ _) as [[[[s1 s2] s3] s4] out'].
  cbn [fst snd] in L. destruct L as (L1 & L2 & _ & L4).
  - intros j s Hj Hb. apply korg_sample_tight; auto.
    + apply Hc. lia.
    + apply Hp. lia.
    + unfold JS.read. destruct (input !! j) as [v|] eqn:E.
      * cbn. eapply Forall_lookup_1 in Hin; eauto.
      * apply lookup_ge_None in E. lia.
  - exact Hs.
  - cbn. lia.
  - cbn [fst snd]. split; [exact L1|]. split; [|exact L2].
    apply Forall_lookup_2. intros j v Hv.
    destruct (L4 j) as (s' & Hb & Hv').
    + apply lookup_lt_Some in Hv. lia.
    + rewrite Hv in Hv'. injection Hv' as ->. apply Hb.
Qed.

End Tight.

Lemma korg_output_stays_within_clip_range_witness :
  Forall (JS.bounded 0.7)
    (process (JS.Num 48000) (fun x => x) constructor
       (Some [JS.Num 1000; JS.Num (-3); JS.Num 0.5])
       [JS.NaN; JS.NaN; JS.NaN] [JS.Num 1000] [JS.Num 25]).2.
Proof.
  assert (Hsr : (0 < 48000)%Q) by reflexivity.
  assert (Htan : forall x : Q, (0 <= x <= 0.49 * Math_PI -> 0 <= x)%Q)
    by (intros x [H _]; exact H).
  destruct (korg_output_stays_within_clip_range 48000 (fun x => x) Hsr Htan
              0.7 constructor [JS.Num 1000; JS.Num (-3); JS.Num 0.5]
              [JS.NaN; JS.NaN; JS.NaN] [JS.Num 1000] [JS.Num 25])
    as (_ & O & _).
  - split; [lra|lra].
  - repeat split; cbn; lra.
  - repeat constructor.
  - reflexivity.
  - intros i _. cbn. lra.
  - intros i _. exact I.
  - exact O.
Defined.

End KorgFilterFacts.

(** ** Both filter variants stay finite *)

Section FilterFiniteness.
Variable sr : Q.
Variable tan : Q -> Q.
Hypothesis sr_pos : (0 < sr)%Q.
Hypothesis tan_nonneg :
  forall x : Q, (0 <= x <= 0.49 * Math_PI -> 0 <= tan x)%Q.

Lemma magnitude_bounds (a : JS.num) (B : Q) :
  JS.finite a -> (JS.magnitude a <= B)%Q -> JS.bounded B a.
Proof.
  destruct a as [a| | |]; try contradiction. intros _ H.
  unfold JS.bounded. cbn in *. now apply Qabs_Qle_condition.
Qed.

Lemma magnitude_nonneg (a : JS.num) : (0 <= JS.magnitude a)%Q.
Proof. destruct a; cbn; [apply Qabs_nonneg|lra..]. Qed.

(** C2. For every cutoff in [[20, 20000]], every resonance or peak in
    [[0, 4]], every finite initial state and every finite input block of any
    length, the four persisted stage values and every output sample of both
    filter variants are finite, never NaN and never infinite; in magnitude
    they stay within 8 plus the magnitudes of the initial stage values. *)
Theorem filters_stay_finite
    (input output cutoffs amounts : list JS.num) :
  length input = length output ->
  Forall JS.finite input ->
  (forall i, (i < length output)%nat ->
     JS.in_range 20 20000 (JS.param_at cutoffs i)) ->
  (forall i, (i < length output)%nat ->
     JS.in_range 0 4 (JS.param_at amounts i)) ->
  (forall self : MoogLadderProcessor.t,
     MoogLadderProcessor.state_finite self ->
     let r := MoogLadderProcessor.process (JS.Num sr) self
                (Some input) output cutoffs amounts in
     let B := 8 + JS.magnitude (MoogLadderProcessor._y1 self)
                + JS.magnitude (MoogLadderProcessor._y2 self)
                + JS.magnitude (MoogLadderProcessor._y3 self)
                + JS.magnitude (MoogLadderProcessor._y4 self) in
     (MoogLadderProcessor.state_finite r.1 /\ Forall JS.finite r.2) /\
     (MoogLadderProcessor.state_bounded B r.1 /\
      Forall (JS.bounded B) r.2) /\
     length r.2 = length output) /\
  (forall self : KorgFilterProcessor.t,
     KorgFilterProcessor.state_finite self ->
     let r := KorgFilterProcessor.process (JS.Num sr) tan self
                (Some input) output cutoffs amounts in
     let B := 8 + JS.magnitude (KorgFilterProcessor._s1 self)
                + JS.magnitude (KorgFilterProcessor._s2 self)
                + JS.magnitude (KorgFilterProcessor._s3 self)
                + JS.magnitude (KorgFilterProcessor._s4 self) in
     (KorgFilterProcessor.state_finite r.1 /\ Forall JS.finite r.2) /\
     (KorgFilterProcessor.state_bounded B r.1 /\
      Forall (JS.bounded B) r.2) /\
     length r.2 = length output).
Proof.
  intros Hlen Hin Hc Ha. split.
  - intros self (F1 & F2 & F3 & F4) r B.
    pose proof (magnitude_nonneg (MoogLadderProcessor._y1 self)).
    pose proof (magnitude_nonneg (MoogLadderProcessor._y2 self)).
    pose proof (magnitude_nonneg (MoogLadderProcessor._y3 self)).
    pose proof (magnitude_nonneg (MoogLadderProcessor._y4 self)).
    destruct (MoogLadderFacts.moog_process_bounded sr sr_pos B self
                input output cutoffs amounts)
      as (R & L & O); auto.
    { subst B. lra. }
    { repeat split; cbn [fst snd]; apply magnitude_bounds; auto;
      subst B; lra. }
    fold r in R, L, O. destruct R as (R1 & R2 & R3 & R4).
    cbn [fst snd] in R1, R2, R3, R4.
    split; [split|split; [split|]].
    + repeat split; eauto using JSFacts.bounded_finite.
    + eapply Forall_impl; [exact O|]. intros v. apply JSFacts.bounded_finite.
    + repeat split; assumption.
    + exact O.
    + exact L.
  - intros self (F1 & F2 & F3 & F4) r B.
    pose proof (magnitude_nonneg (KorgFilterProcessor._s1 self)).
    pose proof (magnitude_nonneg (KorgFilterProcessor._s2 self)).
    pose proof (magnitude_nonneg (KorgFilterProcessor._s3 self)).
    pose proof (magnitude_nonneg (KorgFilterProcessor._s4 self)).
    destruct (KorgFilterFacts.korg_process_bounded sr tan sr_pos tan_nonneg
                B self input output cutoffs amounts)
      as (R & L & O); auto.
    { subst B. lra. }
    { repeat split; cbn [fst snd]; apply magnitude_bounds; auto;
      subst B; lra. }
    fold r in R, L, O. destruct R as (R1 & R2 & R3 & R4).
    cbn [fst snd] in R1, R2, R3, R4.
    split; [split|split; [split|]].
    + repeat split; eauto using JSFacts.bounded_finite.
    + eapply Forall_impl; [exact O|]. intros v. apply JSFacts.bounded_finite.
    + repeat split; assumption.
    + exact O.
    + exact L.
Qed.

End FilterFiniteness.

Lemma filters_stay_finite_witness :
  let input := [JS.Num 1; JS.Num (-1); JS.Num 0.5] in
  let output := [JS.NaN; JS.NaN; JS.NaN] in
  Forall (JS.bounded 8)
    (MoogLadderProcessor.process (JS.Num 48000)
       MoogLadderProcessor.constructor (Some input) output
       [JS.Num 1000] [JS.Num 4]).2 /\
  Forall (JS.bounded 8)
    (KorgFilterProcessor.process (JS.Num 48000) (fun x => x)
       KorgFilterProcessor.constructor (Some input) output
       [JS.Num 1000] [JS.Num 4]).2.
Proof.
  cbv zeta.
  assert (Hsr : (0 < 48000)%Q) by reflexivity.
  assert (Htan : forall x : Q,
            (0 <= x <= 0.49 * Math_PI -> 0 <= x)%Q)
    by (intros x [H _]; exact H).
  destruct (filters_stay_finite 48000 (fun x => x) Hsr Htan
              [JS.Num 1; JS.Num (-1); JS.Num 0.5]
              [JS.NaN; JS.NaN; JS.NaN] [JS.Num 1000] [JS.Num 4])
    as [M K].
  - reflexivity.
  - repeat constructor.
  - intros i _. cbn. lra.
  - intros i _. cbn. lra.
  - split.
    + assert (F : MoogLadderProcessor.state_finite
                    MoogLadderProcessor.constructor) by (repeat split).
      destruct (M _ F) as (_ & (_ & O) & _).
      eapply Forall_impl; [exact O|]. intros v Hv.
      destruct v as [v| | |]; try contradiction.
      unfold JS.bounded, JS.in_range in *.
      match type of Hv with
      | (- ?B <= _ <= _)%Q =>
          assert (E : (B == 8)%Q) by reflexivity; rewrite E in Hv
      end.
      exact Hv.
    + assert (F : KorgFilterProcessor.state_finite
                    KorgFilterProcessor.constructor) by (repeat split).
      destruct (K _ F) as (_ & (_ & O) & _).
      eapply Forall_impl; [exact O|]. intros v Hv.
      destruct v as [v| | |]; try contradiction.
      unfold JS.bounded, JS.in_range in *.
      match type of Hv with
      | (- ?B <= _ <= _)%Q =>
          assert (E : (B == 8)%Q) by reflexivity; rewrite E in Hv
      end.
      exact Hv.
Defined.

(** ** Both filter variants: polarity, silence, NaN *)

Lemma process_outputs_related (P : JS.num -> JS.num -> Prop)
    (l k : list JS.num) :
  length k = length l ->
  (forall j a, (j < length l)%nat -> l !! j = Some a ->
     exists b, k !! j = Some b /\ P a b) ->
  Forall2 P l k.
Proof.
  intros Hlen H. apply Forall2_same_length_lookup_2; [now symmetry|].
  intros j a b Ha Hb. destruct (H j a) as (b' & Hb' & HP); [|exact Ha|].
  - now apply lookup_lt_Some in Ha.
  - congruence.
Qed.

Section FilterSymmetry.
Variable sampleRate : JS.num.
Variable tan : Q -> Q.

(** X3. Both filters are odd in the signal: started from stage values of
    inverted polarity and fed the input block with every sample negated,
    with the same cutoff and resonance (or peak) curves, each filter writes
    the negated output block and persists the negated stage values.  This
    holds for every sample rate and every parameter value, special values
    included. *)
Theorem filters_commute_with_polarity_inversion
    (input output output' cutoffs amounts : list JS.num) :
  length output' = length output ->
  (forall self self' : MoogLadderProcessor.t,
     MoogLadderProcessor.stages_eq
       (MoogLadderProcessor.persisted self')
       (MoogLadderProcessor.neg_stages (MoogLadderProcessor.persisted self))
     ->
     let r := MoogLadderProcessor.process sampleRate self
                (Some input) output cutoffs amounts in
     let r' := MoogLadderProcessor.process sampleRate self'
                 (Some (JS.neg <$> input)) output' cutoffs amounts in
     MoogLadderProcessor.stages_eq
       (MoogLadderProcessor.persisted r'.1)
       (MoogLadderProcessor.neg_stages (MoogLadderProcessor.persisted r.1))
     /\ Forall2 (fun a b => JS.num_eq b (JS.neg a)) r.2 r'.2) /\
  (forall self self' : KorgFilterProcessor.t,
     KorgFilterProcessor.stages_eq
       (KorgFilterProcessor.persisted self')
       (KorgFilterProcessor.neg_stages (KorgFilterProcessor.persisted self))
     ->
     let r := KorgFilterProcessor.process sampleRate tan self
                (Some input) output cutoffs amounts in
     let r' := KorgFilterProcessor.process sampleRate tan self'
                 (Some (JS.neg <$> input)) output' cutoffs amounts in
     KorgFilterProcessor.stages_eq
       (KorgFilterProcessor.persisted r'.1)
       (KorgFilterProcessor.neg_stages (KorgFilterProcessor.persisted r.1))
     /\ Forall2 (fun a b => JS.num_eq b (JS.neg a)) r.2 r'.2).
Proof.
  intros Hlen. split.
  - intros self self' Hs. unfold MoogLadderProcessor.process. rewrite Hlen.
    pose proof (MoogLadderFacts.moog_loop_odd sampleRate input cutoffs
                  amounts (length output) 0%nat
                  (MoogLadderProcessor.persisted self)
                  (MoogLadderProcessor.persisted self') output output'
                  Hs Hlen) as L.
    pose proof (MoogLadderFacts.moog_loop_invariant sampleRate
                  (fun _ _ => True) input cutoffs amounts (length output)
                  0%nat (MoogLadderProcessor.persisted self) output) as I.
    unfold MoogLadderProcessor.persisted in L, I.
    destruct (MoogLadderProcessor.loop _ _ _ input _ _ _ _)
      as [[[[y1 y2] y3] y4] out1].
    destruct (MoogLadderProcessor.loop _ _ _ (JS.neg <$> input) _ _ _ _)
      as [[[[z1 z2] z3] z4] out2].
    cbn [fst snd] in *.
    destruct L as (L1 & L2 & L3); [cbn; lia|intros j a Hj; lia|].
    destruct I as (_ & I2 & _); [auto|exact I|cbn; lia|].
    split; [exact L1|].
    apply process_outputs_related; [exact L2|].
    intros j a Hj Ha. apply (L3 j a); [cbn; lia|exact Ha].
  - intros self self' Hs. unfold KorgFilterProcessor.process. rewrite Hlen.
    pose proof (KorgFilterFacts.korg_loop_odd sampleRate tan input cutoffs
                  amounts (length output) 0%nat
                  (KorgFilterProcessor.persisted self)
                  (KorgFilterProcessor.persisted self') output output'
                  Hs Hlen) as L.
    pose proof (KorgFilterFacts.korg_loop_invariant sampleRate tan
                  (fun _ _ => True) input cutoffs amounts (length output)
                  0%nat (KorgFilterProcessor.persisted self) output) as I.
    unfold KorgFilterProcessor.persisted in L, I.
    destruct (KorgFilterProcessor.loop _ _ _ _ input _ _ _ _)
      as [[[[y1 y2] y3] y4] out1].
    destruct (KorgFilterProcessor.loop _ _ _ _ (JS.neg <$> input) _ _ _ _)
      as [[[[z1 z2] z3] z4] out2].
    cbn [fst snd] in *.
    destruct L as (L1 & L2 & L3); [cbn; lia|intros j a Hj; lia|].
    destruct I as (_ & I2 & _); [auto|exact I|cbn; lia|].
    split; [exact L1|].
    apply process_outputs_related; [exact L2|].
    intros j a Hj Ha. apply (L3 j a); [cbn; lia|exact Ha].
Qed.

(** X4. A NaN read from the input block, whether the sample itself is NaN
    or the input array is shorter than the output block, makes every stage
    value NaN at once, and neither filter recovers: every later output
    sample of the block is NaN and the persisted stage values are NaN,
    whatever the other input samples, the parameters and the previous
    state. *)
Theorem nan_input_poisons_the_filters
    (input output cutoffs amounts : list JS.num) (k : nat) :
  (k < length output)%nat -> JS.read input k = JS.NaN ->
  (forall self : MoogLadderProcessor.t,
     let r := MoogLadderProcessor.process sampleRate self
                (Some input) output cutoffs amounts in
     MoogLadderProcessor.poisoned (MoogLadderProcessor.persisted r.1) /\
     forall j, (k <= j < length output)%nat -> r.2 !! j = Some JS.NaN) /\
  (forall self : KorgFilterProcessor.t,
     let r := KorgFilterProcessor.process sampleRate tan self
                (Some input) output cutoffs amounts in
     KorgFilterProcessor.poisoned (KorgFilterProcessor.persisted r.1) /\
     forall j, (k <= j < length output)%nat -> r.2 !! j = Some JS.NaN).
Proof.
  intros Hk Hnan. split.
  - intros self. unfold MoogLadderProcessor.process.
    pose proof (MoogLadderFacts.moog_loop_invariant sampleRate
                  (fun i s => (k < i)%nat -> MoogLadderProcessor.poisoned s)
                  input cutoffs amounts (length output)
                  0%nat (MoogLadderProcessor.persisted self) output) as I.
    unfold MoogLadderProcessor.persisted in I.
    destruct (MoogLadderProcessor.loop _ _ _ _ _ _ _ _)
      as [[[[y1 y2] y3] y4] out1].
    cbn [fst snd] in *. destruct I as (I1 & _ & _ & I4).
    + intros j s Hj Hp Hkj.
      apply MoogLadderFacts.moog_sample_poisoned.
      destruct (decide (j = k)) as [->|Hne]; [left; exact Hnan|].
      right. now rewrite (Hp ltac:(lia)).
    + lia.
    + lia.
    + split; [apply I1; lia|].
      intros j Hj. destruct (I4 j ltac:(lia)) as (s' & Hp & ->).
      now rewrite (Hp ltac:(lia)).
  - intros self. unfold KorgFilterProcessor.process.
    pose proof (KorgFilterFacts.korg_loop_invariant sampleRate tan
                  (fun i s => (k < i)%nat -> KorgFilterProcessor.poisoned s)
                  input cutoffs amounts (length output)
                  0%nat (KorgFilterProcessor.persisted self) output) as I.
    unfold KorgFilterProcessor.persisted in I.
    destruct (KorgFilterProcessor.loop _ _ _ _ _ _ _ _ _)
      as [[[[y1 y2] y3] y4] out1].
    cbn [fst snd] in *. destruct I as (I1 & _ & _ & I4).
    + intros j s Hj Hp Hkj.
      apply KorgFilterFacts.korg_sample_poisoned.
      destruct (decide (j = k)) as [->|Hne]; [left; exact Hnan|].
      right. now rewrite (Hp ltac:(lia)).
    + lia.
    + lia.
    + split; [apply I1; lia|].
      intros j Hj. destruct (I4 j ltac:(lia)) as (s' & Hp & ->).
      now rewrite (Hp ltac:(lia)).
Qed.

End FilterSymmetry.

Lemma filters_commute_with_polarity_inversion_witness :
  Forall2 (fun a b => JS.num_eq b (JS.neg a))
    (MoogLadderProcessor.process (JS.Num 48000)
       MoogLadderProcessor.constructor (Some [JS.Num 1; JS.Num (-2)])
       [JS.NaN; JS.NaN] [JS.Num 1000] [JS.Num 4]).2
    (MoogLadderProcessor.process (JS.Num 48000)
       MoogLadderProcessor.constructor
       (Some (JS.neg <$> [JS.Num 1; JS.Num (-2)]))
       [JS.Num 0; JS.Num 0] [JS.Num 1000] [JS.Num 4]).2.
Proof.
  destruct (filters_commute_with_polarity_inversion (JS.Num 48000)
              (fun x => x) [JS.Num 1; JS.Num (-2)] [JS.NaN; JS.NaN]
              [JS.Num 0; JS.Num 0] [JS.Num 1000] [JS.Num 4] eq_refl)
    as (M & _).
  apply (M MoogLadderProcessor.constructor MoogLadderProcessor.constructor).
  repeat split; reflexivity.
Defined.

Lemma nan_input_poisons_the_filters_witness :
  (KorgFilterProcessor.process (JS.Num 48000) (fun x => x)
     KorgFilterProcessor.constructor (Some [JS.Num 1])
     [JS.Num 0; JS.Num 0; JS.Num 0] [JS.Num 1000] [JS.Num 1]).2 !! 2%nat
  = Some JS.NaN.
Proof.
  destruct (nan_input_poisons_the_filters (JS.Num 48000) (fun x => x)
              [JS.Num 1] [JS.Num 0; JS.Num 0; JS.Num 0]
              [JS.Num 1000] [JS.Num 1] 1)
    as (_ & K).
  - cbn. lia.
  - reflexivity.
  - apply (K KorgFilterProcessor.constructor). cbn. lia.
Defined.

Section FilterSilence.
Local Open Scope num_scope.
Variable sr : Q.
Variable tan : Q -> Q.
Hypothesis sr_pos : (0 < sr)%Q.
Hypothesis tan_nonneg :
  forall x : Q, (0 <= x <= 0.49 * Math_PI -> 0 <= tan x)%Q.

Lemma moog_stage_silent (fc a y : JS.num) :
  JS.finite fc -> JS.num_eq a 0 -> JS.num_eq y 0 ->
  JS.num_eq
    (y + fc * (MoogLadderProcessor._tanh (a * 0.5)
               - MoogLadderProcessor._tanh (y * 0.5))) 0.
Proof.
  intros F Ha Hy. rewrite Ha, Hy.
  destruct fc as [f| | |]; try contradiction.
  assert (T0 : JS.num_eq (MoogLadderProcessor._tanh (0 * 0.5)) 0)
    by (vm_compute; reflexivity).
  rewrite T0. cbn. ring.
Qed.

Lemma moog_sample_silent (cutoff resonance inp : JS.num)
    (s : MoogLadderProcessor.stages) :
  JS.finite cutoff -> JS.finite resonance -> JS.num_eq inp 0 ->
  MoogLadderProcessor.silent s ->
  MoogLadderProcessor.silent
    (MoogLadderProcessor.sample (JS.Num sr) cutoff resonance inp s).
Proof.
  intros Hc Hr Hi Hs.
  destruct s as [[[y1 y2] y3] y4]. destruct Hs as (H1 & H2 & H3 & H4).
  cbn [fst snd] in *. unfold MoogLadderProcessor.sample. cbv zeta.
  set (fc := JS.min (2 * cutoff / JS.Num sr) 0.999).
  assert (Ffc : JS.finite fc).
  { subst fc. destruct cutoff as [c| | |]; try contradiction.
    cbn [JS.mul JS.div]. rewrite Qeq_bool_false by lra.
    unfold JS.min, JS.ltb. now destruct (Qltb 0.999 (2 * c / sr)). }
  set (fb := (resonance * (1 - 0.15 * fc * fc))).
  assert (Ffb : JS.finite fb) by (subst fb; eauto 12 with jsnum).
  assert (Hx : JS.num_eq (inp - fb * y4) 0).
  { rewrite Hi, H4. destruct fb as [b| | |]; try contradiction. cbn. ring. }
  pose proof (moog_stage_silent fc _ y1 Ffc Hx H1) as S1.
  pose proof (moog_stage_silent fc _ y2 Ffc S1 H2) as S2.
  pose proof (moog_stage_silent fc _ y3 Ffc S2 H3) as S3.
  pose proof (moog_stage_silent fc _ y4 Ffc S3 H4) as S4.
  unfold MoogLadderProcessor.silent. cbn [fst snd]. auto.
Qed.

Lemma korg_stage_silent (G a s : JS.num) :
  JS.finite G -> JS.num_eq a 0 -> JS.num_eq s 0 ->
  JS.num_eq (s + G * (KorgFilterProcessor._clip a - s)) 0.
Proof.
  intros F Ha Hs. rewrite Ha, Hs.
  destruct G as [g| | |]; try contradiction.
  assert (C0 : JS.num_eq (KorgFilterProcessor._clip 0) 0)
    by (vm_compute; reflexivity).
  rewrite C0. cbn. ring.
Qed.

Lemma korg_sample_silent (cutoff peak inp : JS.num)
    (s : KorgFilterProcessor.stages) :
  JS.in_range 20 20000 cutoff -> JS.finite peak -> JS.num_eq inp 0 ->
  KorgFilterProcessor.silent s ->
  KorgFilterProcessor.silent
    (KorgFilterProcessor.sample (JS.Num sr) tan cutoff peak inp s).
Proof.
  intros Hc Hp Hi Hs.
  destruct s as [[[s1 s2] s3] s4]. destruct Hs as (H1 & H2 & H3 & H4).
  cbn [fst snd] in *. unfold KorgFilterProcessor.sample. cbv zeta.
  destruct (KorgFilterFacts.G_range sr tan sr_pos tan_nonneg cutoff Hc)
    as (G & -> & HG).
  assert (Hu : JS.num_eq
                 (KorgFilterProcessor._clip (inp - peak * 4 * s4)) 0).
  { rewrite Hi, H4. destruct peak as [p| | |]; try contradiction.
    assert (E : JS.num_eq (0 - JS.Num p * 4 * 0) 0) by (cbn; ring).
    rewrite E. vm_compute. reflexivity. }
  pose proof (korg_stage_silent (JS.Num G) _ s1 I Hu H1) as S1.
  pose proof (korg_stage_silent (JS.Num G) _ s2 I S1 H2) as S2.
  pose proof (korg_stage_silent (JS.Num G) _ s3 I S2 H3) as S3.
  pose proof (korg_stage_silent (JS.Num G) _ s4 I S3 H4) as S4.
  unfold KorgFilterProcessor.silent. cbn [fst snd]. auto.
Qed.

(** X5. Silence in, silence out: from stage values that are all zero (the
    constructor's state) and an input block of zeros, both filters write a
    block of zeros and keep their stage values at zero, for every cutoff in
    [[20, 20000]] and every finite resonance or peak, however large: without
    an input signal the feedback has nothing to amplify and neither filter
    starts to oscillate. *)
Theorem silent_input_keeps_filters_silent
    (input output cutoffs amounts : list JS.num) :
  length input = length output ->
  Forall (fun x => JS.num_eq x 0) input ->
  (forall i, (i < length output)%nat ->
     JS.in_range 20 20000 (JS.param_at cutoffs i)) ->
  (forall i, (i < length output)%nat -> JS.finite (JS.param_at amounts i)) ->
  (forall self : MoogLadderProcessor.t,
     MoogLadderProcessor.silent (MoogLadderProcessor.persisted self) ->
     let r := MoogLadderProcessor.process (JS.Num sr) self
                (Some input) output cutoffs amounts in
     MoogLadderProcessor.silent (MoogLadderProcessor.persisted r.1) /\
     Forall (fun y => JS.num_eq y 0) r.2 /\ length r.2 = length output) /\
  (forall self : KorgFilterProcessor.t,
     KorgFilterProcessor.silent (KorgFilterProcessor.persisted self) ->
     let r := KorgFilterProcessor.process (JS.Num sr) tan self
                (Some input) output cutoffs amounts in
     KorgFilterProcessor.silent (KorgFilterProcessor.persisted r.1) /\
     Forall (fun y => JS.num_eq y 0) r.2 /\ length r.2 = length output).
Proof.
  intros Hlen Hin Hc Ha.
  assert (Hread : forall j, (j < length output)%nat ->
            JS.num_eq (JS.read input j) 0).
  { intros j Hj. unfold JS.read. destruct (input !! j) as [v|] eqn:E.
    - cbn. eapply Forall_lookup_1 in Hin; eauto.
    - apply lookup_ge_None in E. lia. }
  split.
  - intros self Hs. unfold MoogLadderProcessor.process.
    pose proof (MoogLadderFacts.moog_loop_invariant (JS.Num sr)
                  (fun _ s => MoogLadderProcessor.silent s)
                  input cutoffs amounts (length output)
                  0%nat (MoogLadderProcessor.persisted self) output) as L.
    unfold MoogLadderProcessor.persisted in L.
    destruct (MoogLadderProcessor.loop _ _ _ _ _ _ _ _)
      as [[[[y1 y2] y3] y4] out1].
    cbn [fst snd] in *. destruct L as (L1 & L2 & _ & L4).
    + intros j s Hj Hsil. apply moog_sample_silent; auto.
      * eapply JSFacts.in_range_finite. apply Hc. lia.
      * apply Ha. lia.
      * apply Hread. lia.
    + exact Hs.
    + lia.
    + split; [exact L1|]. split; [|exact L2].
      apply Forall_lookup_2. intros j v Hv.
      destruct (L4 j) as (s' & Hb & Hv').
      * apply lookup_lt_Some in Hv. lia.
      * rewrite Hv in Hv'. injection Hv' as ->. apply Hb.
  - intros self Hs. unfold KorgFilterProcessor.process.
    pose proof (KorgFilterFacts.korg_loop_invariant (JS.Num sr) tan
                  (fun _ s => KorgFilterProcessor.silent s)
                  input cutoffs amounts (length output)
                  0%nat (KorgFilterProcessor.persisted self) output) as L.
    unfold KorgFilterProcessor.persisted in L.
    destruct (KorgFilterProcessor.loop _ _ _ _ _ _ _ _ _)
      as [[[[y1 y2] y3] y4] out1].
    cbn [fst snd] in *. destruct L as (L1 & L2 & _ & L4).
    + intros j s Hj Hsil. apply korg_sample_silent; auto.
      * apply Hc. lia.
      * apply Ha. lia.
      * apply Hread. lia.
    + exact Hs.
    + lia.
    + split; [exact L1|]. split; [|exact L2].
      apply Forall_lookup_2. intros j v Hv.
      destruct (L4 j) as (s' & Hb & Hv').
      * apply lookup_lt_Some in Hv. lia.
      * rewrite Hv in Hv'. injection Hv' as ->. apply Hb.
Qed.

End FilterSilence.

Lemma silent_input_keeps_filters_silent_witness :
  Forall (fun y => JS.num_eq y 0)
    (MoogLadderProcessor.process (JS.Num 48000)
       MoogLadderProcessor.constructor (Some [JS.Num 0; JS.Num 0; JS.Num 0])
       [JS.NaN; JS.NaN; JS.NaN] [JS.Num 1000] [JS.Num 4]).2 /\
  Forall (fun y => JS.num_eq y 0)
    (KorgFilterProcessor.process (JS.Num 48000) (fun x => x)
       KorgFilterProcessor.constructor (Some [JS.Num 0; JS.Num 0; JS.Num 0])
       [JS.NaN; JS.NaN; JS.NaN] [JS.Num 1000] [JS.Num 4]).2.
Proof.
  assert (Hsr : (0 < 48000)%Q) by reflexivity.
  assert (Htan : forall x : Q, (0 <= x <= 0.49 * Math_PI -> 0 <= x)%Q)
    by (intros x [H _]; exact H).
  destruct (silent_input_keeps_filters_silent 48000 (fun x => x) Hsr Htan
              [JS.Num 0; JS.Num 0; JS.Num 0] [JS.NaN; JS.NaN; JS.NaN]
              [JS.Num 1000] [JS.Num 4])
    as (M & K).
  - reflexivity.
  - repeat constructor; reflexivity.
  - intros i _. cbn. lra.
  - intros i _. exact I.
  - split.
    + apply (M MoogLadderProcessor.constructor). repeat split; reflexivity.
    + apply (K KorgFilterProcessor.constructor). repeat split; reflexivity.
Defined.

(** ** The sequencer *)

Module SequencerFacts.
Import Sequencer.

(** *** The scheduling loop as an iteration of its body *)

Lemma advance_fields (n : nat) (self : t) :
  _bpm (advance n self) = _bpm self /\
  _steps (advance n self) = _steps self /\
  _swing (advance n self) = _swing self /\
  _running (advance n self) = _running self /\
  _timerID (advance n self) = _timerID self /\
  _scheduleAheadTime (advance n self) = _scheduleAheadTime self /\
  _listeners (advance n self) = _listeners self.
Proof.
  revert self. induction n as [|n IH]; intros self; [cbn; tauto|].
  cbn [advance]. destruct (IH (schedule_step self).1) as (A&B&C&D&E&F&G).
  cbn in *. tauto.
Qed.

Lemma advance_stepDuration (n : nat) (self : t) :
  _stepDuration (advance n self) = _stepDuration self.
Proof.
  unfold _stepDuration. destruct (advance_fields n self) as (-> & _).
  reflexivity.
Qed.

Lemma advance_add (n m : nat) (self : t) :
  advance (n + m) self = advance m (advance n self).
Proof. revert self. induction n as [|n IH]; intros self; cbn; auto. Qed.

Lemma advance_S (n : nat) (self : t) :
  advance (S n) self = (schedule_step (advance n self)).1.
Proof.
  replace (S n) with (n + 1)%nat by lia. now rewrite advance_add.
Qed.


Lemma emitted_length (n : nat) (self : t) : length (emitted n self) = n.
Proof. revert self. induction n as [|n IH]; intros self; cbn; auto. Qed.

(** The [i]-th event of a run is the one the body emits after [i]
    iterations. *)
Lemma emitted_lookup (n i : nat) (self : t) (e : StepEvent) :
  emitted n self !! i = Some e -> e = (schedule_step (advance i self)).2.
Proof.
  revert i self. induction n as [|n IH]; intros i self; cbn; [easy|].
  destruct i as [|i]; cbn.
  - congruence.
  - apply IH.
Qed.

(** [nextStepTime] moves along the unswung grid. *)
Lemma advance_nextStepTime (n : nat) (self : t) :
  _nextStepTime (advance n self) ==
  _nextStepTime self + Qnat n * _stepDuration self.
Proof.
  induction n as [|n IH].
  - cbn. unfold Qnat. cbn. ring.
  - rewrite advance_S. cbn [schedule_step fst _nextStepTime].
    rewrite advance_stepDuration, IH, Qnat_S. ring.
Qed.


(** With a positive step count the index walks round the pattern. *)
Lemma advance_currentStep (n : nat) (self : t) :
  (0 <= _currentStep self < _steps self)%Z ->
  _currentStep (advance n self) =
  ((_currentStep self + Z.of_nat n) mod _steps self)%Z.
Proof.
  intros H. induction n as [|n IH].
  - cbn. rewrite Z.add_0_r, Z.mod_small; [reflexivity|exact H].
  - rewrite advance_S. cbn [schedule_step fst _currentStep].
    destruct (advance_fields n self) as (_ & -> & _).
    rewrite Z.rem_mod_nonneg; [|rewrite IH|lia].
    + rewrite IH, Zplus_mod_idemp_l. f_equal. lia.
    + assert (0 <= (_currentStep self + Z.of_nat n) mod _steps self)%Z
        by (apply Z.mod_pos_bound; lia).
      lia.
Qed.

Lemma stepDuration_pos (self : t) : 0 < _bpm self -> 0 < _stepDuration self.
Proof.
  intros H. unfold _stepDuration.
  apply Qlt_shift_div_l; [reflexivity|].
  apply Qlt_shift_div_l; [exact H|]. lra.
Qed.

(** The loop stops, having run its body until [nextStepTime] left the
    lookahead window. *)
Lemma schedule_within (k : nat) :
  forall (now : Q) (self : t),
  0 < _stepDuration self ->
  now + _scheduleAheadTime self - _nextStepTime self
    <= Qnat k * _stepDuration self ->
  exists n : nat,
    (forall fuel, (n <= fuel)%nat ->
       _schedule fuel now self =
         Some (advance n self,
               flat_map (dispatch (_listeners self)) (emitted n self))) /\
    now + _scheduleAheadTime self <= _nextStepTime (advance n self).
Proof.
  induction k as [|k IH]; intros now self Hd Hk.
  - exists 0%nat. assert (E : Qltb (_nextStepTime self)
                               (now + _scheduleAheadTime self) = false).
    { apply Qltb_ge. change (Qnat 0) with 0 in Hk. lra. }
    split.
    + intros fuel _. destruct fuel; cbn; now rewrite E.
    + cbn. apply Qltb_ge in E. exact E.
  - destruct (Qltb (_nextStepTime self) (now + _scheduleAheadTime self))
      eqn:E.
    + destruct (IH now (schedule_step self).1) as (n & Hrun & Hexit).
      * exact Hd.
      * change (_stepDuration (schedule_step self).1)
          with (_stepDuration self).
        cbn [schedule_step fst _nextStepTime _scheduleAheadTime].
        rewrite Qnat_S in Hk. nra.
      * exists (S n). split; [|exact Hexit].
        intros [|fuel] Hf; [lia|].
        cbn [_schedule]. rewrite E.
        destruct (schedule_step self) as [self' ev] eqn:Es.
        cbn [fst snd] in Hrun. rewrite Hrun by lia.
        cbn [advance emitted flat_map]. rewrite Es. cbn [fst snd].
        replace (_listeners self') with (_listeners self)
          by (inversion Es; reflexivity).
        reflexivity.
    + exists 0%nat. split.
      * intros fuel _. destruct fuel; cbn; now rewrite E.
      * cbn. apply Qltb_ge in E. exact E.
Qed.

Lemma schedule_runs (now : Q) (self : t) :
  0 < _bpm self ->
  exists n : nat,
    (forall fuel, (n <= fuel)%nat ->
       _schedule fuel now self =
         Some (advance n self,
               flat_map (dispatch (_listeners self)) (emitted n self))) /\
    now + _scheduleAheadTime self <= _nextStepTime (advance n self).
Proof.
  intros Hb. pose proof (stepDuration_pos self Hb) as Hd.
  destruct (Q_archimedean
              (now + _scheduleAheadTime self - _nextStepTime self)
              (_stepDuration self) Hd) as (k & Hk).
  exact (schedule_within k now self Hd Hk).
Qed.



(** *** Timing at a fixed tempo *)


(** *** Swing *)





(** A sequencer started at clock 0 and fired at 0, 0.025 and 0.3 s: the
    first firing emits step 0 at 0.05 s, the second nothing, the third
    catches up with steps 1 and 2 at 0.175 s and 0.3 s. *)
Example ticks_trace :
  (fun r => (_currentStep r.1, Qred (_nextStepTime r.1),
             map (fun c => (c.1, step c.2, Qred (time c.2))) r.2))
    <$> ticks 8 [0; 0.025; 0.3] (start 0 1 (onStep 5%nat constructor)) =
  Some (3%Z, 17 # 40,
        [(5%nat, 0%Z, 1 # 20); (5%nat, 1%Z, 7 # 40); (5%nat, 2%Z, 3 # 10)]).
Proof. vm_compute. reflexivity. Qed.

(** With too little fuel the model reports that the loop has not finished. *)
Example ticks_out_of_fuel :
  ticks 1 [0.3] (start 0 1 (onStep 5%nat constructor)) = None.
Proof. vm_compute. reflexivity. Qed.

(** *** Setters *)

Lemma Math_max_min_range (lo hi v : Q) :
  lo <= hi -> lo <= Math_max lo (Math_min hi v) <= hi.
Proof.
  intros H. unfold Math_max, Math_min.
  destruct (Qltb v hi) eqn:E1.
  - apply Qltb_lt in E1. destruct (Qltb lo v) eqn:E2.
    + apply Qltb_lt in E2. lra.
    + lra.
  - apply Qltb_ge in E1. destruct (Qltb lo hi) eqn:E2; lra.
Qed.

Lemma assign_all_bounds (l : list assignment) (self : t) :
  20 <= _bpm self <= 400 -> 0 <= _swing self <= 0.5 ->
  20 <= _bpm (assign_all l self) <= 400 /\
  0 <= _swing (assign_all l self) <= 0.5 /\
  _steps (assign_all l self) = last_steps l (_steps self).
Proof.
  revert self. induction l as [|a l IH]; intros self Hb Hs.
  - cbn. auto.
  - unfold assign_all, last_steps in *. cbn [fold_left].
    destruct a as [v|v|v]; cbn [assign].
    + apply (IH (set_bpm v self)); cbn;
        [apply Math_max_min_range; lra|exact Hs].
    + apply (IH (set_steps v self)); assumption.
    + apply (IH (set_swing v self)); cbn; [exact Hb|].
      unfold clamp. apply Math_max_min_range. lra.
Qed.

(** C8 (as stated, refuted).  Assigning 7 to [steps] stores 7: the setter
    performs no validation, so the step count leaves the set {16, 32}. *)
Lemma steps_setter_stores_any_value :
  let s := assign_all [SetSteps 7] constructor in
  _steps s = 7%Z /\ ~ data_model_bounds s.
Proof.
  cbn. split; [reflexivity|].
  intros (_ & [H|H] & _); discriminate H.
Qed.

(** C8 (amended).  After any sequence of assignments to [bpm], [steps] and
    [swing] on a fresh sequencer, the tempo lies in [[20, 400]] and the swing
    in [[0, 0.5]]; the step count is the last value assigned to it (16 when
    none was), whatever that value is. *)
Theorem setters_keep_tempo_and_swing_bounds (l : list assignment) :
  let s := assign_all l constructor in
  20 <= _bpm s <= 400 /\ 0 <= _swing s <= 0.5 /\
  _steps s = last_steps l 16.
Proof.
  cbv zeta. apply assign_all_bounds; cbn; lra.
Qed.

(** *** [stop()] *)

(** C10. In every state whose running flag is already false, [stop()] still
    invokes each registered listener, once per registration and in
    registration order, with the sentinel [{step: -1, time: 0}], sets the
    current step to 0 and leaves the running flag false: the transition is
    not guarded by the flag. *)
Theorem stop_when_stopped_still_resets (self : t) :
  _running self = false ->
  let '(self', calls) := stop self in
  calls = map (fun fn => (fn, reset_event)) (_listeners self) /\
  length calls = length (_listeners self) /\
  (forall i fn, _listeners self !! i = Some fn ->
     calls !! i = Some (fn, {| step := -1; time := 0 |})) /\
  _currentStep self' = 0%Z /\
  _running self' = false /\
  _listeners self' = _listeners self.
Proof.
  intros _. cbn. unfold dispatch.
  split; [reflexivity|]. split; [now rewrite length_map|].
  split; [|auto].
  intros i fn H. rewrite list_lookup_fmap, H. reflexivity.
Qed.

Lemma stop_when_stopped_still_resets_witness :
  let self := onStep 7%nat (onStep 3%nat constructor) in
  _running self = false /\
  (stop self).2 = [(3%nat, reset_event); (7%nat, reset_event)] /\
  _currentStep (stop self).1 = 0%Z.
Proof.
  pose proof (stop_when_stopped_still_resets
                (onStep 7%nat (onStep 3%nat constructor)) eq_refl) as H.
  cbn in H. destruct H as (H1 & _ & _ & H2 & _).
  cbv zeta. split; [reflexivity|]. split; [exact H1|exact H2].
Defined.

(** *** Start, stop and the listener list *)

Lemma advance_running (n : nat) (self : t) :
  _running (advance n self) = _running self.
Proof. now destruct (advance_fields n self) as (_ & _ & _ & -> & _). Qed.

Lemma start_running (c : Q) (tm : Z) (self : t) :
  _running (start c tm self) = true.
Proof. unfold start. destruct (_running self) eqn:E; [exact E|reflexivity]. Qed.

(** X6. Once a sequencer has been started, calling [start()] again changes
    nothing, however many steps the scheduling loop has run since: the
    step position and the pending step time are kept, and no second timer
    is armed. *)
Theorem restart_while_running_is_ignored
    (self : t) (c0 c1 : Q) (tm0 tm1 : Z) (n : nat) :
  let s := advance n (start c0 tm0 self) in
  start c1 tm1 s = s /\
  _currentStep (start c1 tm1 s) = _currentStep s /\
  _nextStepTime (start c1 tm1 s) = _nextStepTime s /\
  _timerID (start c1 tm1 s) = _timerID (start c0 tm0 self).
Proof.
  intros s.
  assert (E : start c1 tm1 s = s).
  { unfold start at 1. subst s. now rewrite advance_running, start_running. }
  rewrite E. repeat split.
  subst s. now destruct (advance_fields n (start c0 tm0 self))
    as (_ & _ & _ & _ & -> & _).
Qed.

Lemma ticks_stopped (fuel : nat) (clock : list Q) (self : t) :
  _timerID self = None -> ticks fuel clock self = Some (self, []).
Proof.
  intros H. induction clock as [|now clock IH]; [reflexivity|].
  cbn [ticks]. unfold tick. now rewrite H, IH.
Qed.

(** X7. After [stop()], in whatever state it was called, the timer firings
    emit nothing; a following [start()] at clock reading [c] resumes from
    step 0: the next scheduling pass that looks beyond [c + 0.05] finishes
    and its first event is step 0 at time [c + 0.05], unswung. *)
Theorem stop_then_start_resumes_at_step_zero
    (self : t) (c now : Q) (tm : Z) :
  0 < _bpm self ->
  c + 0.05 < now + _scheduleAheadTime self ->
  let stopped := (stop self).1 in
  let s := start c tm stopped in
  (forall fuel clock, ticks fuel clock stopped = Some (stopped, [])) /\
  exists (n : nat) (evs : list StepEvent),
    forall fuel, (S n <= fuel)%nat ->
      _schedule fuel now s =
        Some (advance (S n) s,
              flat_map (dispatch (_listeners self))
                       ({| step := 0; time := c + 0.05 |} :: evs)).
Proof.
  intros Hb Hnow stopped s. split.
  { intros fuel clock. now apply ticks_stopped. }
  destruct (schedule_runs now s Hb) as (n & Hrun & Hexit).
  destruct n as [|n].
  { exfalso. cbn in Hexit. lra. }
  exists n, (emitted n (schedule_step s).1).
  intros fuel Hf. rewrite (Hrun fuel Hf). cbn [emitted].
  replace (schedule_step s).2 with {| step := 0; time := c + 0.05 |}.
  - reflexivity.
  - subst s stopped. unfold schedule_step, start.
    cbn [stop fst snd _running _currentStep _nextStepTime _swing].
    change (Z.rem 0 2 =? 1)%Z with false. now rewrite andb_false_r.
Qed.

Lemma stop_then_start_resumes_at_step_zero_witness :
  let self := advance 5 (start 0 1 (onStep 3%nat constructor)) in
  exists (n : nat) (evs : list StepEvent),
    forall fuel, (S n <= fuel)%nat ->
      _schedule fuel 2 (start 2 7 (stop self).1) =
        Some (advance (S n) (start 2 7 (stop self).1),
              flat_map (dispatch [3%nat])
                       ({| step := 0; time := 2 + 0.05 |} :: evs)).
Proof.
  cbv zeta.
  assert (H1 : 0 < _bpm (advance 5 (start 0 1 (onStep 3%nat constructor))))
    by reflexivity.
  assert (H2 : 2 + 0.05 < 2 + _scheduleAheadTime
                 (advance 5 (start 0 1 (onStep 3%nat constructor))))
    by reflexivity.
  destruct (stop_then_start_resumes_at_step_zero
              (advance 5 (start 0 1 (onStep 3%nat constructor))) 2 2 7 H1 H2)
    as (_ & n & evs & H).
  exists n, evs. exact H.
Defined.

Lemma with_listeners_same (self : t) :
  with_listeners (_listeners self) self = self.
Proof. now destruct self. Qed.

Lemma filter_absent (fn : listener) (ls : list listener) :
  fn ∉ ls -> filter (fun l => l <> fn) ls = ls.
Proof.
  induction ls as [|l ls IH]; intros H; [reflexivity|].
  apply not_elem_of_cons in H as [H1 H2].
  rewrite filter_cons_True by congruence. now rewrite IH.
Qed.

Lemma iter_onStep_listeners (fn : listener) (k : nat) (self : t) :
  Nat.iter k (onStep fn) self =
  with_listeners (_listeners self ++ replicate k fn) self.
Proof.
  induction k as [|k IH].
  - cbn [Nat.iter nat_rect replicate].
    now rewrite app_nil_r, with_listeners_same.
  - rewrite Nat.iter_succ, IH, replicate_S_end.
    unfold onStep, with_listeners. cbn. now rewrite <- app_assoc.
Qed.

(** X8. [offStep(fn)] removes every registration of [fn] and nothing else:
    afterwards [fn] is not in the listener list, so neither the reset signal
    of [stop()] nor a scheduling step invokes it, while every other callback
    keeps its registrations; if [fn] had been registered [k] times (once,
    twice, ...) on top of a state that did not hold it, a single [offStep]
    gives that state back. *)
Theorem offStep_removes_every_registration
    (fn : listener) (k : nat) (self : t) :
  (fn ∉ _listeners (offStep fn self)) /\
  Forall (fun c => c.1 <> fn) (stop (offStep fn self)).2 /\
  Forall (fun c => c.1 <> fn)
         (dispatch (_listeners (offStep fn self))
                   (schedule_step (offStep fn self)).2) /\
  (forall g, g <> fn ->
     filter (eq g) (_listeners (offStep fn self)) =
     filter (eq g) (_listeners self)) /\
  (fn ∉ _listeners self ->
     offStep fn (Nat.iter k (onStep fn) self) = self).
Proof.
  assert (Hnot : fn ∉ _listeners (offStep fn self)).
  { cbn. intros H. apply list_elem_of_filter in H. tauto. }
  assert (Hcalls : forall ev,
            Forall (fun c : call => c.1 <> fn)
                   (dispatch (_listeners (offStep fn self)) ev)).
  { intros ev. unfold dispatch. apply Forall_fmap, Forall_forall.
    intros l Hl. cbn. intros ->. exact (Hnot Hl). }
  split; [exact Hnot|]. split; [apply Hcalls|]. split; [apply Hcalls|].
  split.
  - intros g Hg. cbn. induction (_listeners self) as [|l ls IH];
      [reflexivity|].
    destruct (decide (l = fn)) as [->|Hl].
    + rewrite filter_cons_False by tauto.
      rewrite (filter_cons_False (eq g)) by congruence. exact IH.
    + rewrite (filter_cons_True (fun l => l <> fn)) by exact Hl.
      destruct (decide (g = l)) as [->|Hgl].
      * rewrite !(filter_cons_True (eq l)) by reflexivity. now rewrite IH.
      * rewrite !(filter_cons_False (eq g)) by exact Hgl. exact IH.
  - intros Habs. rewrite iter_onStep_listeners.
    unfold offStep, with_listeners. cbn.
    rewrite filter_app, (filter_absent fn _ Habs).
    replace (filter (fun l => l <> fn) (replicate k fn)) with (@nil listener).
    + rewrite app_nil_r. now destruct self.
    + induction k as [|k IH]; [reflexivity|]. cbn [replicate].
      now rewrite filter_cons_False by tauto.
Qed.

(** *** Order and number of the steps of a pass *)

(** An event is emitted at its grid time or, swung, less than a step
    later. *)
Lemma schedule_step_time_bounds (self : t) :
  0 < _stepDuration self -> _swing self < 1 ->
  _nextStepTime self <= time (schedule_step self).2
    < _nextStepTime self + _stepDuration self.
Proof.
  intros Hd Hs. unfold schedule_step. cbn [snd time].
  destruct (Qltb 0 (_swing self)) eqn:E; cbn [andb].
  - apply Qltb_lt in E. destruct (Z.rem (_currentStep self) 2 =? 1)%Z.
    + split; nra.
    + split; lra.
  - split; lra.
Qed.

(** X9. With a swing below one step (the setter keeps it at most 0.5) the
    events of a run are emitted in strictly increasing time order: a swung
    odd step still precedes the even step after it. *)
Theorem emitted_times_strictly_increase
    (self : t) (n i j : nat) (e e' : StepEvent) :
  0 < _bpm self -> _swing self < 1 -> (i < j)%nat ->
  emitted n self !! i = Some e -> emitted n self !! j = Some e' ->
  time e < time e'.
Proof.
  intros Hb Hs Hij He He'.
  apply emitted_lookup in He, He'. subst e e'.
  pose proof (stepDuration_pos self Hb) as Hd.
  pose proof (schedule_step_time_bounds (advance i self)) as Bi.
  pose proof (schedule_step_time_bounds (advance j self)) as Bj.
  rewrite advance_stepDuration in Bi, Bj.
  destruct (advance_fields i self) as (_ & _ & Ei & _).
  destruct (advance_fields j self) as (_ & _ & Ej & _).
  rewrite Ei in Bi. rewrite Ej in Bj.
  specialize (Bi Hd Hs). specialize (Bj Hd Hs).
  rewrite (advance_nextStepTime i self) in Bi.
  rewrite (advance_nextStepTime j self) in Bj.
  assert (Hq : Qnat i + 1 <= Qnat j).
  { rewrite <- Qnat_S. unfold Qnat. rewrite <- Zle_Qle. lia. }
  nra.
Qed.

Lemma emitted_times_strictly_increase_witness :
  let self := set_swing 0.5 (start 0 1 (onStep 1%nat constructor)) in
  exists e e', emitted 4 self !! 1%nat = Some e /\
               emitted 4 self !! 2%nat = Some e' /\
               step e = 1%Z /\ step e' = 2%Z /\ time e < time e'.
Proof.
  cbv zeta.
  set (self := set_swing 0.5 (start 0 1 (onStep 1%nat constructor))).
  exists (schedule_step (advance 1 self)).2,
         (schedule_step (advance 2 self)).2.
  split; [reflexivity|]. split; [reflexivity|].
  split; [reflexivity|]. split; [reflexivity|].
  apply (emitted_times_strictly_increase self 4 1 2);
    [reflexivity|reflexivity|lia|reflexivity|reflexivity].
Defined.

Lemma schedule_within_exact (k : nat) :
  forall (now : Q) (self : t),
  0 < _stepDuration self ->
  now + _scheduleAheadTime self - _nextStepTime self
    <= Qnat k * _stepDuration self ->
  exists n : nat,
    (forall fuel, (n <= fuel)%nat ->
       _schedule fuel now self =
         Some (advance n self,
               flat_map (dispatch (_listeners self)) (emitted n self))) /\
    (forall i, (i < n)%nat ->
       _nextStepTime self + Qnat i * _stepDuration self
         < now + _scheduleAheadTime self) /\
    now + _scheduleAheadTime self
      <= _nextStepTime self + Qnat n * _stepDuration self.
Proof.
  induction k as [|k IH]; intros now self Hd Hk.
  - exists 0%nat. assert (E : Qltb (_nextStepTime self)
                               (now + _scheduleAheadTime self) = false).
    { apply Qltb_ge. change (Qnat 0) with 0 in Hk. lra. }
    split; [|split].
    + intros fuel _. destruct fuel; cbn; now rewrite E.
    + intros i Hi. lia.
    + apply Qltb_ge in E. change (Qnat 0) with 0. lra.
  - destruct (Qltb (_nextStepTime self) (now + _scheduleAheadTime self))
      eqn:E.
    + destruct (IH now (schedule_step self).1) as (n & Hrun & Hin & Hexit).
      * exact Hd.
      * change (_stepDuration (schedule_step self).1)
          with (_stepDuration self).
        cbn [schedule_step fst _nextStepTime _scheduleAheadTime].
        rewrite Qnat_S in Hk. nra.
      * change (_stepDuration (schedule_step self).1)
          with (_stepDuration self) in Hin, Hexit.
        cbn [schedule_step fst _nextStepTime _scheduleAheadTime]
          in Hin, Hexit.
        exists (S n). split; [|split].
        -- intros [|fuel] Hf; [lia|].
           cbn [_schedule]. rewrite E.
           destruct (schedule_step self) as [self' ev] eqn:Es.
           cbn [fst snd] in Hrun. rewrite Hrun by lia.
           cbn [advance emitted flat_map]. rewrite Es. cbn [fst snd].
           replace (_listeners self') with (_listeners self)
             by (inversion Es; reflexivity).
           reflexivity.
        -- intros [|i] Hi.
           ++ apply Qltb_lt in E. change (Qnat 0) with 0. lra.
           ++ specialize (Hin i ltac:(lia)). rewrite Qnat_S. lra.
        -- rewrite Qnat_S. lra.
    + exists 0%nat. split; [|split].
      * intros fuel _. destruct fuel; cbn; now rewrite E.
      * intros i Hi. lia.
      * apply Qltb_ge in E. change (Qnat 0) with 0. lra.
Qed.

(** X10. One scheduling pass at clock reading [now] finishes for every
    positive tempo and emits exactly the steps whose grid time lies before
    the lookahead horizon [now + scheduleAheadTime], however many they are:
    every emitted step is before the horizon, the first step not emitted is
    at or after it, so a late timer catches up within the same pass and no
    step is scheduled early. *)
Theorem schedule_pass_emits_exactly_the_window (self : t) (now : Q) :
  0 < _bpm self ->
  exists n : nat,
    (forall fuel, (n <= fuel)%nat ->
       _schedule fuel now self =
         Some (advance n self,
               flat_map (dispatch (_listeners self)) (emitted n self))) /\
    length (emitted n self) = n /\
    (forall i, (i < n)%nat ->
       _nextStepTime self + Qnat i * _stepDuration self
         < now + _scheduleAheadTime self) /\
    now + _scheduleAheadTime self
      <= _nextStepTime self + Qnat n * _stepDuration self.
Proof.
  intros Hb. pose proof (stepDuration_pos self Hb) as Hd.
  destruct (Q_archimedean
              (now + _scheduleAheadTime self - _nextStepTime self)
              (_stepDuration self) Hd) as (k & Hk).
  destruct (schedule_within_exact k now self Hd Hk) as (n & H1 & H2 & H3).
  exists n. split; [exact H1|]. split; [apply emitted_length|].
  split; assumption.
Qed.

Lemma schedule_pass_emits_exactly_the_window_witness :
  exists n : nat,
    _schedule n 1 (start 0 1 (onStep 5%nat constructor)) =
      Some (advance n (start 0 1 (onStep 5%nat constructor)),
            flat_map (dispatch [5%nat])
                     (emitted n (start 0 1 (onStep 5%nat constructor)))) /\
    1 + 0.1 <= (0 + 0.05) + Qnat n * (60 / 120 / 4).
Proof.
  assert (H : 0 < _bpm (start 0 1 (onStep 5%nat constructor)))
    by reflexivity.
  destruct (schedule_pass_emits_exactly_the_window
              (start 0 1 (onStep 5%nat constructor)) 1 H)
    as (n & H1 & _ & _ & H3).
  exists n. split; [apply H1; lia|exact H3].
Defined.

(** X11. For every positive step count (16, 32 or any other) and every
    tempo and swing, the [i]-th event of a run started from step index [c]
    carries the index [(c + i) mod steps], which lies in [[0, steps)]: the
    indices walk round the pattern with neither gap nor repeat. *)
Theorem step_indices_walk_round_the_pattern
    (self : t) (n i : nat) (e : StepEvent) :
  (0 <= _currentStep self < _steps self)%Z ->
  emitted n self !! i = Some e ->
  step e = ((_currentStep self + Z.of_nat i) mod _steps self)%Z /\
  (0 <= step e < _steps self)%Z /\
  _currentStep (advance (S i) self) = ((step e + 1) mod _steps self)%Z.
Proof.
  intros Hc He. apply emitted_lookup in He. subst e.
  cbn [schedule_step snd step].
  rewrite (advance_currentStep i self Hc).
  split; [reflexivity|]. split; [apply Z.mod_pos_bound; lia|].
  rewrite (advance_currentStep (S i) self Hc).
  rewrite Zplus_mod_idemp_l. f_equal. lia.
Qed.

Lemma step_indices_walk_round_the_pattern_witness :
  let self := set_steps 32 (start 0 1 constructor) in
  exists e, emitted 40 self !! 35%nat = Some e /\ step e = (35 mod 32)%Z.
Proof.
  cbv zeta.
  set (self := set_steps 32 (start 0 1 constructor)).
  exists (schedule_step (advance 35 self)).2. split; [reflexivity|].
  destruct (step_indices_walk_round_the_pattern self 40 35
              (schedule_step (advance 35 self)).2) as (H & _).
  - split; [apply Z.le_refl|reflexivity].
  - reflexivity.
  - exact H.
Defined.

(** X12. The tempo and swing setters saturate: a value inside the range is
    stored as it is, a value below it is replaced by the lower end and a
    value above it by the upper end; assigning the stored value again
    changes nothing. *)
Theorem tempo_and_swing_setters_saturate (v : Q) (self : t) :
  (20 <= v <= 400 -> _bpm (set_bpm v self) == v) /\
  (v <= 20 -> _bpm (set_bpm v self) == 20) /\
  (400 <= v -> _bpm (set_bpm v self) == 400) /\
  (0 <= v <= 0.5 -> _swing (set_swing v self) == v) /\
  (v <= 0 -> _swing (set_swing v self) == 0) /\
  (0.5 <= v -> _swing (set_swing v self) == 0.5) /\
  _bpm (set_bpm (_bpm (set_bpm v self)) self) == _bpm (set_bpm v self) /\
  _swing (set_swing (_swing (set_swing v self)) self)
    == _swing (set_swing v self).
Proof.
  assert (R : forall lo hi x : Q, lo <= hi ->
            (lo <= x <= hi -> Math_max lo (Math_min hi x) == x) /\
            (x <= lo -> Math_max lo (Math_min hi x) == lo) /\
            (hi <= x -> Math_max lo (Math_min hi x) == hi)).
  { intros lo hi x Hlh. unfold Math_max, Math_min.
    destruct (Qltb x hi) eqn:E1.
    - apply Qltb_lt in E1. destruct (Qltb lo x) eqn:E2.
      + apply Qltb_lt in E2. repeat split; intros; lra.
      + apply Qltb_ge in E2. repeat split; intros; lra.
    - apply Qltb_ge in E1. destruct (Qltb lo hi) eqn:E2.
      + repeat split; intros; lra.
      + apply Qltb_ge in E2. repeat split; intros; lra. }
  destruct (R 20 400 v ltac:(lra)) as (B1 & B2 & B3).
  destruct (R 0 0.5 v ltac:(lra)) as (S1 & S2 & S3).
  cbn [set_bpm set_swing _bpm _swing]. unfold clamp.
  repeat (split; [assumption|]).
  split.
  - apply (R 20 400 _ ltac:(lra)). apply Math_max_min_range. lra.
  - apply (R 0 0.5 _ ltac:(lra)). apply Math_max_min_range. lra.
Qed.

End SequencerFacts.

(** ** The chorus *)

Module BBDChorusFacts.
Import BBDChorusProcessor.

(** *** The interpolated read *)

Lemma get_in_range (buf : list Q) (i : Z) :
  (0 <= i < Z.of_nat (length buf))%Z ->
  exists b, buf !! Z.to_nat i = Some b /\ get buf i = Some b.
Proof.
  intros H. unfold get.
  destruct (i <? 0)%Z eqn:E; [apply Z.ltb_lt in E; lia|].
  destruct (lookup_lt_is_Some_2 buf (Z.to_nat i)) as [b Hb]; [lia|].
  exists b. auto.
Qed.

(** C6. For every buffer content, write cursor and fractional delay [d],
    the interpolated read returns [buf[i0]·(1−frac) + buf[i1]·frac] where
    [i0] is [floor(writePos − d)] reduced modulo the capacity to a
    non-negative index (also when [writePos − d] is negative), [i1] is
    [(i0+1)] modulo the capacity and [frac] is the fractional part of
    [writePos − d]; both indices lie inside the buffer, so the read crosses
    the buffer boundary correctly. *)
Theorem readInterp_interpolates
    (self : t) (buf : list Q) (writePos : Z) (d : Q) :
  (0 < _bufSize self)%Z ->
  Z.of_nat (length buf) = _bufSize self ->
  let ri := inject_Z writePos - d in
  let i0 := (Qfloor ri mod _bufSize self)%Z in
  let i1 := ((i0 + 1) mod _bufSize self)%Z in
  let frac := ri - inject_Z (Qfloor ri) in
  (0 <= i0 < _bufSize self)%Z /\ (0 <= i1 < _bufSize self)%Z /\
  0 <= frac < 1 /\
  exists b0 b1 : Q,
    buf !! Z.to_nat i0 = Some b0 /\ buf !! Z.to_nat i1 = Some b1 /\
    _readInterp self buf writePos d = Some (b0 * (1 - frac) + b1 * frac).
Proof.
  intros Hn Hlen ri i0 i1 frac.
  assert (H0 : (0 <= i0 < _bufSize self)%Z) by (apply Z.mod_pos_bound; lia).
  assert (H1 : (0 <= i1 < _bufSize self)%Z) by (apply Z.mod_pos_bound; lia).
  split; [exact H0|]. split; [exact H1|]. split; [apply floor_frac|].
  destruct (get_in_range buf i0) as (b0 & L0 & G0); [lia|].
  destruct (get_in_range buf i1) as (b1 & L1 & G1); [lia|].
  exists b0, b1. split; [exact L0|]. split; [exact L1|].
  unfold _readInterp. fold ri.
  rewrite rem_rem_mod by exact Hn. fold i0.
  rewrite (Z.rem_mod_nonneg (i0 + 1)) by lia. fold i1.
  now rewrite G0, G1.
Qed.

Lemma readInterp_interpolates_witness :
  let self := mk 4 [10; 20; 30; 40] [10; 20; 30; 40] 1 0 Math_PI in
  _readInterp self (_buf1 self) 1 2.5 = Some (30 * (1 - 0.5) + 40 * 0.5).
Proof.
  cbv zeta.
  destruct (readInterp_interpolates
              (mk 4 [10; 20; 30; 40] [10; 20; 30; 40] 1 0 Math_PI)
              [10; 20; 30; 40] 1 2.5 eq_refl eq_refl)
    as (_ & _ & _ & b0 & b1 & L0 & L1 & R).
  cbn in L0, L1. injection L0 as <-. injection L1 as <-.
  exact R.
Defined.

(** *** The delay-line invariant *)

Lemma constructor_ok (sampleRate : Q) :
  0 <= sampleRate -> delay_line_ok (constructor sampleRate).
Proof.
  intros H. unfold delay_line_ok, constructor. cbn.
  assert (Hc : (0 <= Math_ceil (sampleRate * 30 / 1000))%Z).
  { unfold Math_ceil. change 0%Z with (Qceiling 0).
    apply Qceiling_resp_le. apply Qle_shift_div_l; lra. }
  rewrite !length_replicate. lia.
Qed.

Lemma set_length (buf : list Q) (i : Z) (x : Q) :
  length (set buf i x) = length buf.
Proof. unfold set. destruct (i <? 0)%Z; [reflexivity|apply length_insert]. Qed.

(** In a well-formed delay line every interpolated read is defined. *)
Lemma readInterp_defined (self : t) (buf : list Q) (writePos : Z) (d : Q) :
  (0 < _bufSize self)%Z -> Z.of_nat (length buf) = _bufSize self ->
  is_Some (_readInterp self buf writePos d).
Proof.
  intros Hn Hlen. unfold _readInterp.
  rewrite rem_rem_mod by exact Hn.
  set (i0 := (Qfloor (inject_Z writePos - d) mod _bufSize self)%Z).
  assert (H0 : (0 <= i0 < _bufSize self)%Z) by (apply Z.mod_pos_bound; lia).
  rewrite (Z.rem_mod_nonneg (i0 + 1)) by lia.
  destruct (get_in_range buf i0) as (b0 & _ & ->); [lia|].
  destruct (get_in_range buf ((i0 + 1) mod _bufSize self)) as (b1 & _ & ->).
  { pose proof (Z.mod_pos_bound (i0 + 1) (_bufSize self) Hn). lia. }
  eauto.
Qed.

Section Invariant.
Variable sampleRate : Q.
Variable sin : Q -> Q.

(** Each iteration of the loop succeeds and keeps the invariant, in every
    mode. *)
Lemma sample_ok (mode : Z) (rate depth : Q) (i : nat) (x : Q)
    (self : t) (out : channels) :
  delay_line_ok self ->
  exists self' out',
    sample sampleRate sin mode rate depth i x self out = Some (self', out')
    /\ delay_line_ok self'.
Proof.
  intros (Hn & H1 & H2 & Hw). unfold sample. cbv zeta.
  set (self1 := with_buffers self _ _).
  assert (Hn1 : (0 < _bufSize self1)%Z) by exact Hn.
  assert (L1 : Z.of_nat (length (_buf1 self1)) = _bufSize self1).
  { subst self1. cbn. now rewrite set_length. }
  assert (L2 : Z.of_nat (length (_buf2 self1)) = _bufSize self1).
  { subst self1. cbn. now rewrite set_length. }
  assert (Hp : (0 <= Z.rem (_writePos self1 + 1) (_bufSize self1)
                < _bufSize self1)%Z).
  { apply Z.rem_bound_pos; [subst self1; cbn; lia|exact Hn1]. }
  destruct (mode =? 0)%Z; [|destruct (mode =? 1)%Z].
  - eexists _, _. split; [reflexivity|].
    split; [exact Hn1|split; [exact L1|split; [exact L2|exact Hp]]].
  - destruct (readInterp_defined self1 (_buf1 self1) (_writePos self1)
                ((15 + sin (_lfoPhase1 self1) * (6 * depth))
                 * sampleRate / 1000) Hn1 L1) as [wet ->].
    eexists _, _. split; [reflexivity|].
    split; [exact Hn1|split; [exact L1|split; [exact L2|exact Hp]]].
  - destruct (readInterp_defined self1 (_buf1 self1) (_writePos self1)
                ((8 + sin (_lfoPhase1 self1) * (4 * depth))
                 * sampleRate / 1000) Hn1 L1) as [wet1 ->].
    destruct (readInterp_defined self1 (_buf2 self1) (_writePos self1)
                ((8 + sin (_lfoPhase2 self1) * (4 * depth))
                 * sampleRate / 1000) Hn1 L2) as [wet2 ->].
    eexists _, _. split; [reflexivity|].
    split; [exact Hn1|split; [exact L1|split; [exact L2|exact Hp]]].
Qed.

(** [process] is total on a well-formed delay line and keeps it
    well-formed. *)
Lemma process_ok (self : t) (input : option (list Q)) (out : channels)
    (mode rate depth : Q) :
  delay_line_ok self ->
  exists self' out',
    process sampleRate sin self input out mode rate depth = Some (self', out')
    /\ delay_line_ok self'.
Proof.
  intros Hok. destruct input as [input|]; cbn [process]; [|eauto].
  generalize 0%nat as i. revert self out Hok.
  induction input as [|x input IH]; intros self out Hok i; cbn [loop].
  - eauto.
  - destruct (sample_ok (Math_round mode) rate depth i x self out Hok)
      as (self1 & out1 & -> & Hok1).
    apply IH. exact Hok1.
Qed.

End Invariant.

(** *** Bypass *)

Section Bypass.
Variable sampleRate : Q.
Variable sin : Q -> Q.

Lemma store_fills (xs : list Q) :
  forall (i : nat) (l : list Q),
  length l = (i + length xs)%nat -> store i xs l = take i l ++ xs.
Proof.
  induction xs as [|x xs IH]; intros i l Hl; cbn [store length] in *.
  - rewrite Nat.add_0_r in Hl. rewrite app_nil_r.
    symmetry. apply take_ge. lia.
  - rewrite IH by (rewrite length_insert; lia).
    rewrite (take_S_r _ i x) by (apply list_lookup_insert_eq; lia).
    rewrite take_insert_ge by lia. now rewrite <- app_assoc.
Qed.

Lemma loop_bypass (rate depth : Q) (input : list Q) :
  forall (i : nat) (self : t) (out : channels),
  exists self' : t,
    loop sampleRate sin 0 rate depth i input self out =
      Some (self', {| outL := store i input (outL out);
                      outR := store i input <$> outR out |}).
Proof.
  induction input as [|x input IH]; intros i self out; cbn [loop store].
  - exists self. destruct out as [l [r|]]; reflexivity.
  - unfold sample. cbv zeta. cbn [Z.eqb].
    edestruct IH as (self' & ->). exists self'.
    unfold write_both. cbn [outL outR].
    destruct (outR out); reflexivity.
Qed.

(** C7. In mode 0, whatever the rate, the depth and the state of the
    chorus, processing a block of any length writes to each output channel
    exactly the input samples, one for one. *)
Theorem bypass_copies_input
    (self : t) (input : list Q) (out : channels) (mode rate depth : Q) :
  Math_round mode = 0%Z ->
  length (outL out) = length input ->
  (forall r, outR out = Some r -> length r = length input) ->
  exists self' : t,
    process sampleRate sin self (Some input) out mode rate depth =
      Some (self', {| outL := input; outR := (fun _ => input) <$> outR out |}).
Proof.
  intros Hm HL HR. unfold process. rewrite Hm.
  destruct (loop_bypass rate depth input 0 self out) as (self' & ->).
  exists self'. rewrite (store_fills input 0 (outL out)) by (cbn; lia).
  destruct (outR out) as [r|] eqn:Er; cbn [fmap option_fmap option_map].
  - rewrite (store_fills input 0 r) by (cbn; rewrite (HR r); auto).
    reflexivity.
  - reflexivity.
Qed.

End Bypass.

Lemma bypass_copies_input_witness :
  exists self' : t,
    process 48000 (fun x => x) (constructor 48000)
      (Some [0.25; -0.5; 1]) {| outL := [0; 0; 0]; outR := Some [0; 0; 0] |}
      0 0.5 0.6 =
    Some (self', {| outL := [0.25; -0.5; 1];
                    outR := Some [0.25; -0.5; 1] |}).
Proof.
  apply (bypass_copies_input 48000 (fun x => x) (constructor 48000)
           [0.25; -0.5; 1] {| outL := [0; 0; 0]; outR := Some [0; 0; 0] |}
           0 0.5 0.6).
  - reflexivity.
  - reflexivity.
  - intros r H. injection H as <-. reflexivity.
Defined.

(** *** What every iteration does to the delay line *)

Section Stream.
Variable sampleRate : Q.
Variable sin : Q -> Q.

(** In every mode an iteration stores the input sample at the write cursor
    of both buffers, advances the cursor by one modulo the capacity, and
    leaves the lengths of the output channels as they are. *)
Lemma sample_state (mode : Z) (rate depth : Q) (i : nat) (x : Q)
    (self self' : t) (out out' : channels) :
  sample sampleRate sin mode rate depth i x self out = Some (self', out') ->
  _bufSize self' = _bufSize self /\
  _buf1 self' = set (_buf1 self) (_writePos self) x /\
  _buf2 self' = set (_buf2 self) (_writePos self) x /\
  _writePos self' = Z.rem (_writePos self + 1) (_bufSize self) /\
  length (outL out') = length (outL out) /\
  length <$> outR out' = length <$> outR out.
Proof.
  unfold sample. cbv zeta.
  destruct (mode =? 0)%Z; [|destruct (mode =? 1)%Z].
  - intros H. injection H as <- <-. cbn.
    rewrite length_insert. repeat split.
    destruct (outR out); cbn; [now rewrite length_insert|reflexivity].
  - destruct (_readInterp _ _ _ _) as [wet|]; [|discriminate].
    intros H. injection H as <- <-. cbn.
    rewrite length_insert. repeat split.
    destruct (outR out); cbn; [now rewrite length_insert|reflexivity].
  - destruct (_readInterp _ _ _ _) as [wet1|]; [|discriminate].
    destruct (_readInterp _ _ _ _) as [wet2|]; [|discriminate].
    intros H. injection H as <- <-. cbn.
    repeat (split; [reflexivity|]).
    destruct (outR out) as [r|]; cbn.
    + rewrite !length_insert. auto.
    + destruct (_ !! i); rewrite ?length_insert; auto.
Qed.

(** A property of the processor state and the output lengths that every
    iteration keeps is kept by the loop. *)
Lemma chorus_loop_invariant (P : t -> channels -> Prop)
    (mode : Z) (rate depth : Q) :
  (forall i x self out self' out',
     P self out ->
     sample sampleRate sin mode rate depth i x self out = Some (self', out')
     -> P self' out') ->
  forall (input : list Q) (i : nat) (self self' : t) (out out' : channels),
  P self out ->
  loop sampleRate sin mode rate depth i input self out = Some (self', out')
  -> P self' out'.
Proof.
  intros Hstep. induction input as [|x input IH];
    intros i self self' out out' HP; cbn [loop].
  - intros H. injection H as <- <-. exact HP.
  - destruct (sample _ _ _ _ _ _ _ _ _) as [[self1 out1]|] eqn:E;
      [|discriminate].
    apply IH. eapply Hstep; eauto.
Qed.

(** X13. Built for a non-negative sample rate, the chorus has a well-formed
    delay line, and on a well-formed delay line [process] never reads
    outside a buffer: in every mode, for every rate and depth and every
    block, no interpolated read is undefined, the delay line stays
    well-formed with the same capacity, and the output channels keep their
    lengths. *)
Theorem chorus_reads_stay_inside_the_delay_line :
  0 <= sampleRate ->
  delay_line_ok (constructor sampleRate) /\
  forall (self : t) (input : option (list Q)) (out : channels)
         (mode rate depth : Q),
    delay_line_ok self ->
    exists self' out',
      process sampleRate sin self input out mode rate depth
        = Some (self', out') /\
      delay_line_ok self' /\ _bufSize self' = _bufSize self /\
      length (outL out') = length (outL out) /\
      length <$> outR out' = length <$> outR out.
Proof.
  intros Hsr. split; [now apply constructor_ok|].
  intros self input out mode rate depth Hok.
  destruct (process_ok sampleRate sin self input out mode rate depth Hok)
    as (self' & out' & E & Hok').
  exists self', out'. split; [exact E|]. split; [exact Hok'|].
  destruct input as [input|]; cbn [process] in E.
  - apply (chorus_loop_invariant
             (fun s o => _bufSize s = _bufSize self /\
                         length (outL o) = length (outL out) /\
                         length <$> outR o = length <$> outR out)
             (Math_round mode) rate depth) in E; [exact E| |auto].
    intros i x s o s' o' (P1 & P2 & P3) Hs.
    apply sample_state in Hs as (S1 & _ & _ & _ & S5 & S6).
    split; [congruence|]. split; congruence.
  - injection E as <- <-. auto.
Qed.

(** *** The LFO phases *)

Lemma Qtrunc_nonneg (x : Q) : 0 <= x -> Qtrunc x = Qfloor x.
Proof.
  destruct x as [n d]. unfold Qle, Qtrunc, Qfloor. cbn. intros H.
  apply Z.quot_div_nonneg; lia.
Qed.

(** JavaScript's [%] on a non-negative dividend and a positive divisor. *)
Lemma Qrem_range (a b : Q) : 0 <= a -> 0 < b -> 0 <= Qrem a b < b.
Proof.
  intros Ha Hb. unfold Qrem.
  assert (Hq : 0 <= a / b) by (apply Qle_shift_div_l; lra).
  rewrite (Qtrunc_nonneg _ Hq).
  pose proof (floor_frac (a / b)) as [F1 F2].
  assert (E : a == a / b * b) by (field; lra).
  split.
  - rewrite E at 1. nra.
  - rewrite E at 1. nra.
Qed.

(** X14. With a positive sample rate and a non-negative LFO rate, both LFO
    phases stay within one turn, [[0, 2π)], across [process] in every mode
    and for every depth: the phase increment is wrapped at each sample.
    The constructor's phases, 0 and π, are within that turn. *)
Theorem lfo_phases_stay_within_one_turn
    (self self' : t) (input : option (list Q)) (out out' : channels)
    (mode rate depth : Q) :
  0 < sampleRate -> 0 <= rate -> phases_ok self ->
  process sampleRate sin self input out mode rate depth = Some (self', out')
  -> phases_ok self' /\ phases_ok (constructor sampleRate).
Proof.
  intros Hsr Hrate Hp E. split.
  2:{ unfold phases_ok, constructor. cbn [_lfoPhase1 _lfoPhase2].
      repeat split; try reflexivity; apply Qle_bool_imp_le; reflexivity. }
  destruct input as [input|]; cbn [process] in E;
    [|injection E as <- <-; exact Hp].
  apply (chorus_loop_invariant (fun s _ => phases_ok s)
           (Math_round mode) rate depth) in E; [exact E| |exact Hp].
  clear E Hp. clear self self' out out'.
  intros i x self out self' out' (P1 & P2).
  assert (Hinc : 0 <= 2 * Math_PI * rate / sampleRate).
  { apply Qle_shift_div_l; [exact Hsr|].
    assert (0 < Math_PI) by reflexivity. nra. }
  assert (H2pi : 0 < 2 * Math_PI) by reflexivity.
  unfold sample. cbv zeta.
  destruct (Math_round mode =? 0)%Z; [|destruct (Math_round mode =? 1)%Z].
  - intros H. injection H as <- <-. split; assumption.
  - destruct (_readInterp _ _ _ _) as [wet|]; [|discriminate].
    intros H. injection H as <- <-. split; cbn.
    + apply Qrem_range; [lra|exact H2pi].
    + exact P2.
  - destruct (_readInterp _ _ _ _) as [wet1|]; [|discriminate].
    destruct (_readInterp _ _ _ _) as [wet2|]; [|discriminate].
    intros H. injection H as <- <-. split; cbn.
    + apply Qrem_range; [lra|exact H2pi].
    + apply Qrem_range; [lra|exact H2pi].
Qed.

End Stream.

Lemma chorus_reads_stay_inside_the_delay_line_witness :
  exists self' out',
    process 48000 (fun x => x) (constructor 48000) (Some [0.25; -0.5; 1])
      {| outL := [0; 0; 0]; outR := None |} 2 0.5 0.6 = Some (self', out')
    /\ length (outL out') = 3%nat.
Proof.
  assert (H : 0 <= 48000) by (intro H; discriminate H).
  destruct (chorus_reads_stay_inside_the_delay_line 48000 (fun x => x) H)
    as (Hok & Hp).
  destruct (Hp (constructor 48000) (Some [0.25; -0.5; 1])
               {| outL := [0; 0; 0]; outR := None |} 2 0.5 0.6 Hok)
    as (self' & out' & E & _ & _ & L & _).
  exists self', out'. split; [exact E|exact L].
Defined.

(** *** The delay line as a record of the input stream *)

Lemma mod_sub_ne (N wp e : Z) :
  (0 <= wp < N -> 1 <= e <= N - 1 -> (wp - e) mod N <> wp)%Z.
Proof.
  intros Hwp He H.
  pose proof (Z.div_mod (wp - e) N ltac:(lia)) as Hd. rewrite H in Hd.
  destruct (Z_le_gt_dec 0 ((wp - e) / N)); nia.
Qed.

Lemma back_snoc_0 (h : list Q) (x : Q) : back (h ++ [x]) 0 = x.
Proof. unfold back. now rewrite rev_unit. Qed.

Lemma back_snoc_S (h : list Q) (x : Q) (d : nat) :
  back (h ++ [x]) (S d) = back h d.
Proof. unfold back. now rewrite rev_unit. Qed.

Lemma set_lookup_eq (buf : list Q) (i : Z) (x : Q) :
  (0 <= i < Z.of_nat (length buf))%Z ->
  set buf i x !! Z.to_nat i = Some x.
Proof.
  intros H. unfold set.
  destruct (i <? 0)%Z eqn:E; [apply Z.ltb_lt in E; lia|].
  apply list_lookup_insert_eq. lia.
Qed.

Lemma set_lookup_ne (buf : list Q) (i j : Z) (x : Q) :
  (0 <= i)%Z -> (0 <= j)%Z -> i <> j ->
  set buf i x !! Z.to_nat j = buf !! Z.to_nat j.
Proof.
  intros Hi Hj Hne. unfold set.
  destruct (i <? 0)%Z; [reflexivity|].
  apply list_lookup_insert_ne. lia.
Qed.

(** After the write of an iteration and before the cursor moves, the cell
    [e] places behind the cursor holds the sample [e] samples before the
    end of the stream, the one just written included. *)
Lemma read_after_write (h : list Q) (self : t) (x : Q) (e : Z) :
  holds h self -> (0 <= e <= _bufSize self - 1)%Z ->
  let cell := Z.to_nat ((_writePos self - e) mod _bufSize self) in
  set (_buf1 self) (_writePos self) x !! cell
    = Some (back (h ++ [x]) (Z.to_nat e)) /\
  set (_buf2 self) (_writePos self) x !! cell
    = Some (back (h ++ [x]) (Z.to_nat e)).
Proof.
  intros ((Hn & L1 & L2 & Hw) & Hh) He cell. subst cell.
  destruct (Z.eq_dec e 0%Z) as [->|Hne].
  - rewrite Z.sub_0_r, Z.mod_small by lia.
    change (Z.to_nat 0%Z) with 0%nat. rewrite back_snoc_0.
    split; apply set_lookup_eq; lia.
  - pose proof (mod_sub_ne (_bufSize self) (_writePos self) e Hw
                  ltac:(lia)) as Hcell.
    pose proof (Z.mod_pos_bound (_writePos self - e) (_bufSize self) Hn)
      as Hb.
    rewrite !set_lookup_ne by lia.
    replace (Z.to_nat e) with (S (Z.to_nat (e - 1))) by lia.
    rewrite back_snoc_S. apply (Hh e). lia.
Qed.

Section History.
Variable sampleRate : Q.
Variable sin : Q -> Q.

Lemma constructor_holds : 0 <= sampleRate -> holds [] (constructor sampleRate).
Proof.
  intros H. split; [now apply constructor_ok|].
  destruct (constructor_ok sampleRate H) as (Hn & _ & _ & _).
  unfold constructor in *. cbv zeta in *.
  cbn [_bufSize _buf1 _buf2 _writePos] in *.
  set (N := (Math_ceil (sampleRate * 30 / 1000) + 1)%Z) in *.
  intros d Hd.
  pose proof (Z.mod_pos_bound (0 - d) N Hn) as Hb.
  assert (E : back [] (Z.to_nat (d - 1)) = 0).
  { unfold back. cbn. now destruct (Z.to_nat (d - 1)). }
  rewrite E. split; apply lookup_replicate_2; lia.
Qed.

Lemma sample_holds (mode : Z) (rate depth : Q) (i : nat) (x : Q)
    (h : list Q) (self self' : t) (out out' : channels) :
  holds h self ->
  sample sampleRate sin mode rate depth i x self out = Some (self', out') ->
  holds (h ++ [x]) self'.
Proof.
  intros Hh E.
  pose proof Hh as ((Hn & L1 & L2 & Hw) & _).
  destruct (sample_ok sampleRate sin mode rate depth i x self out
              (proj1 Hh)) as (s1 & o1 & E1 & Hok).
  rewrite E in E1. injection E1 as <- <-.
  apply sample_state in E as (S1 & S2 & S3 & S4 & _).
  split; [exact Hok|]. intros d Hd cell. subst cell.
  rewrite S1, S2, S3, S4.
  rewrite Z.rem_mod_nonneg by lia.
  rewrite Zminus_mod_idemp_l.
  replace (_writePos self + 1 - d)%Z with (_writePos self - (d - 1))%Z
    by lia.
  apply (read_after_write h self x (d - 1) Hh). lia.
Qed.

Lemma loop_holds (mode : Z) (rate depth : Q) (input : list Q) :
  forall (i : nat) (h : list Q) (self self' : t) (out out' : channels),
  holds h self ->
  loop sampleRate sin mode rate depth i input self out = Some (self', out')
  -> holds (h ++ input) self'.
Proof.
  induction input as [|x input IH]; intros i h self self' out out' Hh;
    cbn [loop].
  - intros E. injection E as <- <-. now rewrite app_nil_r.
  - destruct (sample _ _ _ _ _ _ _ _ _) as [[s1 o1]|] eqn:E1;
      [|discriminate].
    intros E. replace (h ++ x :: input) with ((h ++ [x]) ++ input)
      by now rewrite <- app_assoc.
    eapply IH; [|exact E]. eapply sample_holds; eauto.
Qed.

(** X15. The delay line records the input stream, in every mode and for
    every rate and depth: the constructor's delay line holds the empty
    stream (every cell reads 0), and if it holds a stream [h] before
    [process] is given a block, it holds [h] followed by that block
    afterwards, that is, the cell [d] places behind the write cursor of
    either buffer holds the sample fed [d] samples ago, for every [d] from
    1 to the capacity, and 0 where the stream had not started. *)
Theorem delay_line_holds_the_recent_input :
  0 <= sampleRate ->
  holds [] (constructor sampleRate) /\
  forall (h : list Q) (self self' : t) (input : list Q)
         (out out' : channels) (mode rate depth : Q),
    holds h self ->
    process sampleRate sin self (Some input) out mode rate depth
      = Some (self', out') ->
    holds (h ++ input) self' /\
    forall d : Z, (1 <= d <= _bufSize self')%Z ->
      _buf1 self' !! Z.to_nat ((_writePos self' - d) mod _bufSize self')
        = Some (back (h ++ input) (Z.to_nat (d - 1))).
Proof.
  intros Hsr. split; [now apply constructor_holds|].
  intros h self self' input out out' mode rate depth Hh E.
  cbn [process] in E. apply (loop_holds _ _ _ _ _ h) in E; [|exact Hh].
  split; [exact E|]. intros d Hd. now apply (proj2 E d).
Qed.

(** *** Mode 1 without modulation *)

Lemma Qfloor_shift (z : Z) (y : Q) :
  Qfloor (inject_Z z - y) = (z - Qceiling y)%Z.
Proof.
  unfold Qceiling.
  pose proof (Qfloor_le (- y)) as A. pose proof (Qlt_floor (- y)) as B.
  pose proof (Qfloor_le (inject_Z z - y)) as C.
  pose proof (Qlt_floor (inject_Z z - y)) as D.
  rewrite inject_Z_plus in B, D. change (inject_Z 1) with 1 in B, D.
  assert (H1 : (Qfloor (inject_Z z - y) < z + Qfloor (- y) + 1)%Z).
  { rewrite Zlt_Qlt, !inject_Z_plus. change (inject_Z 1) with 1. lra. }
  assert (H2 : (z + Qfloor (- y) < Qfloor (inject_Z z - y) + 1)%Z).
  { rewrite Zlt_Qlt, !inject_Z_plus. change (inject_Z 1) with 1. lra. }
  lia.
Qed.

(** The delay of mode 1 at depth 0, in samples, rounded up, lies between 1
    and the capacity less one. *)
Lemma fixed_delay_range :
  0 < sampleRate ->
  (1 <= Qceiling (15 * sampleRate / 1000)
     <= Math_ceil (sampleRate * 30 / 1000))%Z.
Proof.
  intros Hsr. split.
  - pose proof (Qle_ceiling (15 * sampleRate / 1000)) as H.
    assert (H0 : 0 < 15 * sampleRate / 1000)
      by (apply Qlt_shift_div_l; lra).
    assert (H1 : (0 < Qceiling (15 * sampleRate / 1000))%Z).
    { rewrite Zlt_Qlt. change (inject_Z 0) with 0. lra. }
    lia.
  - apply Qceiling_resp_le.
    apply Qle_shift_div_l; [reflexivity|].
    assert (E : 15 * sampleRate / 1000 * 1000 == 15 * sampleRate)
      by (field; discriminate).
    rewrite E. lra.
Qed.

Lemma sample_comb (rate : Q) (i : nat) (x : Q) (h : list Q) (self : t)
    (out : channels) :
  0 < sampleRate -> holds h self ->
  _bufSize self = (Math_ceil (sampleRate * 30 / 1000) + 1)%Z ->
  exists (self' : t) (o : Q),
    sample sampleRate sin 1 rate 0 i x self out
      = Some (self', write_both out i o o) /\
    o == comb sampleRate (h ++ [x]) x /\
    holds (h ++ [x]) self' /\ _bufSize self' = _bufSize self.
Proof.
  intros Hsr Hh HN.
  pose proof Hh as ((Hn & L1 & L2 & Hw) & _).
  pose proof (fixed_delay_range Hsr) as Hc.
  set (D := 15 * sampleRate / 1000) in *.
  destruct (sample_ok sampleRate sin 1 rate 0 i x self out (proj1 Hh))
    as (self' & out' & E & _).
  pose proof (sample_holds 1 rate 0 i x h self self' out out' Hh E) as Hh'.
  pose proof (sample_state sampleRate sin _ _ _ _ _ _ _ _ _ E) as (S1 & _).
  revert E. unfold sample. cbv zeta. cbn [Z.eqb Pos.eqb].
  set (self1 := with_buffers self _ _).
  set (del := (15 + sin (_lfoPhase1 self1) * (6 * 0)) * sampleRate / 1000).
  assert (Edel : del == D) by (subst del D; field; discriminate).
  unfold _readInterp.
  assert (Efl : Qfloor (inject_Z (_writePos self1) - del)
                = (_writePos self - Qceiling D)%Z).
  { rewrite (Qfloor_comp _ (inject_Z (_writePos self) - D))
      by (rewrite Edel; reflexivity).
    apply Qfloor_shift. }
  rewrite Efl.
  change (_bufSize self1) with (_bufSize self).
  rewrite rem_rem_mod by exact Hn.
  pose proof (Z.mod_pos_bound (_writePos self - Qceiling D) (_bufSize self)
                Hn) as Hb0.
  rewrite (Z.rem_mod_nonneg (_ + 1)) by lia.
  rewrite Zplus_mod_idemp_l.
  replace (_writePos self - Qceiling D + 1)%Z
    with (_writePos self - (Qceiling D - 1))%Z by lia.
  pose proof (Z.mod_pos_bound (_writePos self - (Qceiling D - 1))
                (_bufSize self) Hn) as Hb1.
  destruct (read_after_write h self x (Qceiling D) Hh ltac:(lia))
    as (R0 & _).
  destruct (read_after_write h self x (Qceiling D - 1) Hh ltac:(lia))
    as (R1 & _).
  unfold get.
  replace (_ <? 0)%Z with false by (symmetry; apply Z.ltb_ge; lia).
  replace (_ <? 0)%Z with false by (symmetry; apply Z.ltb_ge; lia).
  change (_buf1 self1) with (set (_buf1 self) (_writePos self) x).
  rewrite R0, R1.
  intros E. injection E as E1 E2.
  exists self'. eexists. split; [rewrite <- E1; reflexivity|].
  split; [|split; [exact Hh'|exact S1]].
  unfold comb. fold D. cbv zeta.
  replace (Z.to_nat (Qceiling D) - 1)%nat with (Z.to_nat (Qceiling D - 1))
    by lia.
  change (_writePos self1) with (_writePos self).
  unfold Z.sub. rewrite !inject_Z_plus, !inject_Z_opp, Edel. ring.
Qed.

Lemma loop_outL_frame (mode : Z) (rate depth : Q) (input : list Q) :
  forall (i : nat) (self self' : t) (out out' : channels),
  loop sampleRate sin mode rate depth i input self out = Some (self', out')
  -> forall j, (j < i)%nat -> outL out' !! j = outL out !! j.
Proof.
  induction input as [|x input IH]; intros i self self' out out';
    cbn [loop].
  - intros E. injection E as <- <-. reflexivity.
  - destruct (sample _ _ _ _ _ _ _ _ _) as [[s1 o1]|] eqn:E1;
      [|discriminate].
    intros E j Hj. rewrite (IH _ _ _ _ _ E j) by lia.
    revert E1. unfold sample. cbv zeta.
    destruct (mode =? 0)%Z; [|destruct (mode =? 1)%Z].
    + intros H. injection H as <- <-. cbn.
      apply list_lookup_insert_ne. lia.
    + destruct (_readInterp _ _ _ _); [|discriminate].
      intros H. injection H as <- <-. cbn.
      apply list_lookup_insert_ne. lia.
    + destruct (_readInterp _ _ _ _); [|discriminate].
      destruct (_readInterp _ _ _ _); [|discriminate].
      intros H. injection H as <- <-.
      destruct (outR out); cbn.
      * apply list_lookup_insert_ne. lia.
      * destruct (_ !! i); rewrite ?list_lookup_insert_ne by lia;
          reflexivity.
Qed.

Lemma loop_comb (rate : Q) (input : list Q) :
  forall (i : nat) (h : list Q) (self : t) (out : channels),
  0 < sampleRate -> holds h self ->
  _bufSize self = (Math_ceil (sampleRate * 30 / 1000) + 1)%Z ->
  (i + length input <= length (outL out))%nat ->
  exists (self' : t) (out' : channels),
    loop sampleRate sin 1 rate 0 i input self out = Some (self', out') /\
    holds (h ++ input) self' /\
    forall k x, input !! k = Some x ->
      exists v, outL out' !! (i + k)%nat = Some v /\
                v == comb sampleRate (h ++ take (S k) input) x.
Proof.
  induction input as [|x input IH]; intros i h self out Hsr Hh HN Hlen.
  - exists self, out. split; [reflexivity|]. split.
    + now rewrite app_nil_r.
    + intros k x Hk. discriminate Hk.
  - cbn [loop length] in *.
    destruct (sample_comb rate i x h self out Hsr Hh HN)
      as (s1 & o & E1 & Ho & Hh1 & HN1).
    rewrite E1.
    destruct (IH (S i) (h ++ [x]) s1 (write_both out i o o) Hsr Hh1)
      as (self' & out' & E & Hh' & Hout).
    { congruence. }
    { cbn. rewrite length_insert. lia. }
    exists self', out'. split; [exact E|]. split.
    { now rewrite <- app_assoc in Hh'. }
    intros [|k] y Hk.
    + cbn in Hk. injection Hk as <-. exists o.
      rewrite Nat.add_0_r.
      rewrite (loop_outL_frame _ _ _ _ _ _ _ _ _ E i) by lia.
      split; [cbn; apply list_lookup_insert_eq; lia|exact Ho].
    + cbn in Hk. destruct (Hout k y Hk) as (v & Hv & Ev).
      exists v. split.
      * now replace (i + S k)%nat with (S i + k)%nat by lia.
      * rewrite <- app_assoc in Ev. exact Ev.
Qed.

(** X16. In mode 1 with depth 0 the chorus is a fixed comb filter.  With
    [D = 15·sampleRate/1000] the delay in samples, [c] its ceiling and
    [frac = c − D], a block processed on a delay line that holds the stream
    [h] is processed without an undefined read, each sample of the left
    output channel is [0.5·x + 0.5·(s(c)·(1 − frac) + s(c − 1)·frac)], where
    [x] is the input sample and [s(d)] the sample fed [d] samples before it
    (0 before the stream began), the LFO rate and the sine having no effect;
    afterwards the delay line holds [h] followed by the block.  At 48 kHz
    this is [0.5·x[n] + 0.5·x[n − 720]]. *)
Theorem single_chorus_without_depth_is_a_comb
    (h : list Q) (self : t) (input : list Q) (out : channels) (rate : Q) :
  0 < sampleRate -> holds h self ->
  _bufSize self = (Math_ceil (sampleRate * 30 / 1000) + 1)%Z ->
  length (outL out) = length input ->
  exists (self' : t) (out' : channels),
    process sampleRate sin self (Some input) out 1 rate 0
      = Some (self', out') /\
    holds (h ++ input) self' /\
    forall k x, input !! k = Some x ->
      exists v, outL out' !! k = Some v /\
        let D := 15 * sampleRate / 1000 in
        let c := Z.to_nat (Qceiling D) in
        let frac := inject_Z (Qceiling D) - D in
        let H := h ++ take (S k) input in
        v == x * 0.5 + (back H c * (1 - frac) + back H (c - 1) * frac) * 0.5.
Proof.
  intros Hsr Hh HN Hlen. cbn [process].
  change (Math_round 1) with 1%Z.
  destruct (loop_comb rate input 0 h self out Hsr Hh HN)
    as (self' & out' & E & Hh' & Hout); [lia|].
  exists self', out'. split; [exact E|]. split; [exact Hh'|].
  intros k x Hk. destruct (Hout k x Hk) as (v & Hv & Ev).
  exists v. split; [exact Hv|exact Ev].
Qed.

End History.

Lemma lfo_phases_stay_within_one_turn_witness :
  exists self' out',
    process 48000 (fun x => x) (constructor 48000) (Some [0.25; -0.5])
      {| outL := [0; 0]; outR := None |} 2 0.5 0.6 = Some (self', out') /\
    phases_ok self'.
Proof.
  assert (H0 : 0 <= 48000) by (intro H; discriminate H).
  destruct (process_ok 48000 (fun x => x) (constructor 48000)
              (Some [0.25; -0.5]) {| outL := [0; 0]; outR := None |}
              2 0.5 0.6 (constructor_ok 48000 H0))
    as (self' & out' & E & _).
  exists self', out'. split; [exact E|].
  assert (H1 : 0 < 48000) by reflexivity.
  assert (H2 : 0 <= 0.5) by (intro H; discriminate H).
  assert (H3 : phases_ok (constructor 48000)).
  { unfold phases_ok, constructor. cbn [_lfoPhase1 _lfoPhase2].
    repeat split; try reflexivity; apply Qle_bool_imp_le; reflexivity. }
  exact (proj1 (lfo_phases_stay_within_one_turn 48000 (fun x => x)
                  (constructor 48000) self' (Some [0.25; -0.5])
                  {| outL := [0; 0]; outR := None |} out' 2 0.5 0.6
                  H1 H2 H3 E)).
Defined.

Lemma delay_line_holds_the_recent_input_witness :
  holds [] (constructor 48000).
Proof.
  assert (H0 : 0 <= 48000) by (intro H; discriminate H).
  exact (proj1 (delay_line_holds_the_recent_input 48000 (fun x => x) H0)).
Defined.

Lemma single_chorus_without_depth_is_a_comb_witness :
  exists self' out',
    process 48000 (fun x => x) (constructor 48000) (Some [0.25; -0.5])
      {| outL := [0; 0]; outR := None |} 1 0.5 0 = Some (self', out') /\
    exists v, outL out' !! 1%nat = Some v /\ v == -0.5 * 0.5.
Proof.
  assert (H0 : 0 <= 48000) by (intro H; discriminate H).
  assert (H1 : 0 < 48000) by reflexivity.
  destruct (single_chorus_without_depth_is_a_comb 48000 (fun x => x)
              [] (constructor 48000) [0.25; -0.5]
              {| outL := [0; 0]; outR := None |} 0.5 H1
              (constructor_holds 48000 H0) eq_refl eq_refl)
    as (self' & out' & E & _ & Hout).
  exists self', out'. split; [exact E|].
  destruct (Hout 1%nat (-0.5) eq_refl) as (v & Hv & Ev).
  exists v. split; [exact Hv|]. rewrite Ev. reflexivity.
Defined.

End BBDChorusFacts.

(** ** The envelope helpers *)

Module EnvelopeFacts.
Import utils.

(** *** The percussive envelope *)

Lemma insert_event_last (e : event) (param : AudioParam) :
  Forall (fun e' => event_time e' <= event_time e) param ->
  insert_event e param = param ++ [e].
Proof.
  induction 1 as [|e' param He' _ IH]; cbn; [reflexivity|].
  apply Qltb_ge in He'. now rewrite He', IH.
Qed.

Lemma cancelScheduledValues_before (t : Q) (param : AudioParam) :
  Forall (fun e => event_time e < t) (cancelScheduledValues t param).
Proof.
  unfold cancelScheduledValues. apply Forall_forall. intros e He.
  apply list_elem_of_In, filter_In in He. destruct He as [_ He].
  now apply Qltb_lt in He.
Qed.

(** What the helper leaves on the timeline: the events before [now] that it
    keeps, then its three events. *)
Lemma schedulePercEnv_timeline (param : AudioParam)
    (attackTime decayTime now : Q) (peakLevel : option Q) :
  0 <= attackTime -> 0 < decayTime ->
  schedulePercEnv param attackTime decayTime now peakLevel =
    cancelScheduledValues now param ++
    [SetValue 0.0001 now;
     LinearRamp (default 1 peakLevel) (now + attackTime);
     ExponentialRamp 0.0001 (now + attackTime + decayTime)].
Proof.
  intros Ha Hd. unfold schedulePercEnv. cbv zeta.
  pose proof (cancelScheduledValues_before now param) as Hk.
  set (kept := cancelScheduledValues now param) in *.
  unfold setValueAtTime, linearRampToValueAtTime,
    exponentialRampToValueAtTime.
  rewrite (insert_event_last (SetValue 0.0001 now) kept).
  2:{ eapply Forall_impl; [exact Hk|]. cbn. intros e He. lra. }
  rewrite (insert_event_last (LinearRamp _ _)).
  2:{ apply Forall_app. split.
      - eapply Forall_impl; [exact Hk|]. cbn. intros e He. lra.
      - repeat constructor. cbn. lra. }
  rewrite (insert_event_last (ExponentialRamp _ _)).
  2:{ rewrite !Forall_app. repeat split.
      - eapply Forall_impl; [exact Hk|]. cbn. intros e He. lra.
      - repeat constructor. cbn. lra.
      - repeat constructor. cbn. lra. }
  now rewrite <- !app_assoc.
Qed.

(** C9 (as stated, refuted).  With attack 0.01 s, decay 0.2 s, start time 0
    and peak 1 on an empty timeline, the linear ramp the helper schedules
    starts from 0.0001 and not from 0. *)
Lemma percussive_attack_starts_above_zero :
  ramps (schedulePercEnv [] 0.01 0.2 0 (Some 1)) =
    [ {| ramp_curve := Linear;
         ramp_from := 0.0001; ramp_start := 0;
         ramp_to := 1; ramp_end := 0 + 0.01 |};
      {| ramp_curve := Exponential;
         ramp_from := 1; ramp_start := 0 + 0.01;
         ramp_to := 0.0001; ramp_end := 0 + 0.01 + 0.2 |} ] /\
  ~ 0.0001 == 0.
Proof.
  split; [reflexivity|]. intros H. discriminate H.
Qed.

(** C9 (amended).  For every attack time >= 0, decay time > 0, start time
    [now] and peak level > 0, the percussive envelope helper clears the
    timeline from [now] on and schedules a linear ramp from the floor value
    0.0001 to the peak over the attack time, followed by an exponential
    decay from the peak to the floor 0.0001 reached at
    [now + attackTime + decayTime]; the target of every exponential ramp it
    schedules is strictly positive. *)
Theorem percussive_envelope_shape (param : AudioParam)
    (attackTime decayTime now : Q) (peakLevel : option Q) :
  0 <= attackTime -> 0 < decayTime -> 0 < default 1 peakLevel ->
  let peak := default 1 peakLevel in
  let scheduled :=
    [SetValue 0.0001 now;
     LinearRamp peak (now + attackTime);
     ExponentialRamp 0.0001 (now + attackTime + decayTime)] in
  schedulePercEnv param attackTime decayTime now peakLevel =
    cancelScheduledValues now param ++ scheduled /\
  ramps scheduled =
    [ {| ramp_curve := Linear;
         ramp_from := 0.0001; ramp_start := now;
         ramp_to := peak; ramp_end := now + attackTime |};
      {| ramp_curve := Exponential;
         ramp_from := peak; ramp_start := now + attackTime;
         ramp_to := 0.0001;
         ramp_end := now + attackTime + decayTime |} ] /\
  exponential_targets_positive scheduled.
Proof.
  intros Ha Hd Hp peak scheduled. split; [|split].
  - now apply schedulePercEnv_timeline.
  - reflexivity.
  - subst scheduled. unfold exponential_targets_positive.
    repeat constructor.
Qed.

Lemma percussive_envelope_shape_witness :
  (0 <= 0.01 /\ 0 < 0.2 /\ 0 < default 1 (Some 1)) /\
  schedulePercEnv [SetValue 0.5 (-1); LinearRamp 0 3] 0.01 0.2 0 (Some 1) =
    [SetValue 0.5 (-1); SetValue 0.0001 0;
     LinearRamp 1 (0 + 0.01); ExponentialRamp 0.0001 (0 + 0.01 + 0.2)].
Proof.
  assert (H1 : 0 <= 0.01) by lra.
  assert (H2 : 0 < 0.2) by lra.
  assert (H3 : 0 < default 1 (Some 1)) by reflexivity.
  split; [auto|].
  destruct (percussive_envelope_shape
              [SetValue 0.5 (-1); LinearRamp 0 3] 0.01 0.2 0 (Some 1)
              H1 H2 H3) as (E & _).
  exact E.
Defined.

(** *** Cancelling and re-scheduling *)

Lemma cancel_app (t : Q) (p q : AudioParam) :
  cancelScheduledValues t (p ++ q) =
  cancelScheduledValues t p ++ cancelScheduledValues t q.
Proof. apply List.filter_app. Qed.

(** Cancelling from a later time keeps what an earlier cancel kept. *)
Lemma cancel_cancel (t t' : Q) (p : AudioParam) :
  t <= t' ->
  cancelScheduledValues t' (cancelScheduledValues t p) =
  cancelScheduledValues t p.
Proof.
  intros H. unfold cancelScheduledValues.
  induction p as [|e p IH]; [reflexivity|]. cbn [List.filter].
  destruct (Qltb (event_time e) t) eqn:E; [|exact IH].
  cbn [List.filter]. apply Qltb_lt in E.
  replace (Qltb (event_time e) t') with true
    by (symmetry; apply Qltb_lt; lra).
  now rewrite IH.
Qed.

(** Three events in time order land behind the events an earlier cancel
    kept. *)
Lemma schedule_three (now : Q) (e1 e2 e3 : event) (param : AudioParam) :
  event_time e1 == now -> now <= event_time e2 ->
  event_time e2 <= event_time e3 ->
  insert_event e3
    (insert_event e2 (insert_event e1 (cancelScheduledValues now param))) =
  cancelScheduledValues now param ++ [e1; e2; e3].
Proof.
  intros H1 H2 H3.
  pose proof (cancelScheduledValues_before now param) as Hk.
  set (kept := cancelScheduledValues now param) in *.
  rewrite (insert_event_last e1 kept).
  2:{ eapply Forall_impl; [exact Hk|]. cbn. intros e He. lra. }
  rewrite (insert_event_last e2).
  2:{ apply Forall_app. split.
      - eapply Forall_impl; [exact Hk|]. cbn. intros e He. lra.
      - repeat constructor. lra. }
  rewrite (insert_event_last e3).
  2:{ rewrite !Forall_app. repeat split.
      - eapply Forall_impl; [exact Hk|]. cbn. intros e He. lra.
      - repeat constructor. lra.
      - repeat constructor. lra. }
  now rewrite <- !app_assoc.
Qed.

Lemma schedule_two (now : Q) (e1 e2 : event) (param : AudioParam) :
  event_time e1 == now -> now <= event_time e2 ->
  insert_event e2 (insert_event e1 (cancelScheduledValues now param)) =
  cancelScheduledValues now param ++ [e1; e2].
Proof.
  intros H1 H2.
  pose proof (cancelScheduledValues_before now param) as Hk.
  set (kept := cancelScheduledValues now param) in *.
  rewrite (insert_event_last e1 kept).
  2:{ eapply Forall_impl; [exact Hk|]. cbn. intros e He. lra. }
  rewrite (insert_event_last e2).
  2:{ apply Forall_app. split.
      - eapply Forall_impl; [exact Hk|]. cbn. intros e He. lra.
      - repeat constructor. lra. }
  now rewrite <- !app_assoc.
Qed.

(** *** The ADSR envelope and its release *)

Lemma scheduleADSR_timeline (param : AudioParam) (a d s r now : Q)
    (peakLevel : option Q) :
  0 <= a -> 0 <= d ->
  (scheduleADSR param a d s r now peakLevel).1 =
    cancelScheduledValues now param ++
    [SetValue 0 now;
     LinearRamp (default 1 peakLevel) (now + a);
     LinearRamp (s * default 1 peakLevel) (now + a + d)].
Proof.
  intros Ha Hd. unfold scheduleADSR. cbv zeta. cbn [fst].
  unfold setValueAtTime, linearRampToValueAtTime.
  apply schedule_three; cbn; lra.
Qed.

(** X17. For attack and decay times >= 0, [scheduleADSR] clears the
    timeline from [now] on and leaves on it, behind the earlier events,
    exactly a set-value of 0 at [now], a linear ramp to the peak reached at
    [now + a] and a linear ramp to [s·peak] reached at [now + a + d]; it
    returns that last time, the start of the sustain.  The release time [r]
    it is passed has no effect on the timeline or on the result, and the
    peak defaults to 1. *)
Theorem adsr_envelope_shape (param : AudioParam) (a d s r now : Q)
    (peakLevel : option Q) :
  0 <= a -> 0 <= d ->
  let peak := default 1 peakLevel in
  let scheduled :=
    [SetValue 0 now; LinearRamp peak (now + a);
     LinearRamp (s * peak) (now + a + d)] in
  scheduleADSR param a d s r now peakLevel =
    (cancelScheduledValues now param ++ scheduled, now + a + d) /\
  ramps scheduled =
    [ {| ramp_curve := Linear; ramp_from := 0; ramp_start := now;
         ramp_to := peak; ramp_end := now + a |};
      {| ramp_curve := Linear; ramp_from := peak; ramp_start := now + a;
         ramp_to := s * peak; ramp_end := now + a + d |} ] /\
  (forall r', scheduleADSR param a d s r' now peakLevel =
              scheduleADSR param a d s r now peakLevel) /\
  scheduleADSR param a d s r now None = scheduleADSR param a d s r now (Some 1).
Proof.
  intros Ha Hd peak scheduled. split; [|split; [reflexivity|split]].
  - rewrite (surjective_pairing (scheduleADSR _ _ _ _ _ _ _)).
    rewrite scheduleADSR_timeline by assumption. reflexivity.
  - reflexivity.
  - reflexivity.
Qed.

Lemma adsr_envelope_shape_witness :
  scheduleADSR [SetValue 0.5 (-1); LinearRamp 0 3] 0.01 0.2 0.7 0.3 0 None =
    ([SetValue 0.5 (-1); SetValue 0 0; LinearRamp 1 (0 + 0.01);
      LinearRamp (0.7 * 1) (0 + 0.01 + 0.2)], 0 + 0.01 + 0.2).
Proof.
  assert (H1 : 0 <= 0.01) by (intro H; discriminate H).
  assert (H2 : 0 <= 0.2) by (intro H; discriminate H).
  destruct (adsr_envelope_shape [SetValue 0.5 (-1); LinearRamp 0 3]
              0.01 0.2 0.7 0.3 0 None H1 H2) as (E & _).
  exact E.
Defined.

(** X18. A note-off after a note-on.  [scheduleRelease] at [t], at or after
    the note-on time [now], keeps of the ADSR events those scheduled before
    [t], drops the others, holds the value read from the parameter at [t]
    and ramps linearly to 0.00001, never to 0, at [t + rel].  So a release
    after the sustain has begun leaves the attack and decay in place, and a
    release during the attack cancels what was pending of the attack and
    the whole decay. *)
Theorem release_cuts_the_pending_envelope (param : AudioParam)
    (a d s r now : Q) (peakLevel : option Q) (value t rel : Q) :
  0 <= a -> 0 <= d -> 0 <= rel -> now <= t ->
  let peak := default 1 peakLevel in
  let adsr :=
    [SetValue 0 now; LinearRamp peak (now + a);
     LinearRamp (s * peak) (now + a + d)] in
  let released :=
    scheduleRelease (scheduleADSR param a d s r now peakLevel).1 value t rel in
  released =
    cancelScheduledValues now param ++ cancelScheduledValues t adsr ++
    [SetValue value t; LinearRamp 0.00001 (t + rel)] /\
  (now + a + d < t -> cancelScheduledValues t adsr = adsr) /\
  (now < t -> t <= now + a ->
     cancelScheduledValues t adsr = [SetValue 0 now]) /\
  (t == now -> cancelScheduledValues t adsr = []) /\
  last released = Some (LinearRamp 0.00001 (t + rel)) /\ 0 < 0.00001.
Proof.
  intros Ha Hd Hrel Ht peak adsr released.
  assert (E : released =
    cancelScheduledValues now param ++ cancelScheduledValues t adsr ++
    [SetValue value t; LinearRamp 0.00001 (t + rel)]).
  { subst released. rewrite scheduleADSR_timeline by assumption.
    unfold scheduleRelease. cbv zeta.
    unfold setValueAtTime, linearRampToValueAtTime.
    rewrite schedule_two by (cbn; lra).
    rewrite cancel_app, cancel_cancel by exact Ht.
    now rewrite <- app_assoc. }
  split; [exact E|].
  assert (T : forall x y, x < y -> Qltb x y = true)
    by (intros; now apply Qltb_lt).
  assert (F : forall x y, y <= x -> Qltb x y = false)
    by (intros; now apply Qltb_ge).
  split; [|split; [|split; [|split]]].
  - intros H. subst adsr. unfold cancelScheduledValues.
    cbn [List.filter event_time]. rewrite !T by lra. reflexivity.
  - intros H1 H2. subst adsr. unfold cancelScheduledValues.
    cbn [List.filter event_time]. rewrite T by lra.
    rewrite !F by lra. reflexivity.
  - intros H. subst adsr. unfold cancelScheduledValues.
    cbn [List.filter event_time]. rewrite !F by lra. reflexivity.
  - rewrite E.
    change [SetValue value t; LinearRamp 0.00001 (t + rel)]
      with ([SetValue value t] ++ [LinearRamp 0.00001 (t + rel)]).
    rewrite !app_assoc. apply last_snoc.
  - reflexivity.
Qed.

Lemma release_cuts_the_pending_envelope_witness :
  scheduleRelease (scheduleADSR [] 0.1 0.2 0.7 0.3 0 None).1 0.4 0.05 0.3 =
    [SetValue 0 0; SetValue 0.4 0.05; LinearRamp 0.00001 (0.05 + 0.3)].
Proof.
  assert (H1 : 0 <= 0.1) by (intro H; discriminate H).
  assert (H2 : 0 <= 0.2) by (intro H; discriminate H).
  assert (H3 : 0 <= 0.3) by (intro H; discriminate H).
  assert (H4 : 0 <= 0.05) by (intro H; discriminate H).
  destruct (release_cuts_the_pending_envelope [] 0.1 0.2 0.7 0.3 0 None
              0.4 0.05 0.3 H1 H2 H3 H4) as (E & _ & C & _).
  rewrite E, C; [reflexivity|reflexivity|].
  intro H; discriminate H.
Defined.

(** X19. Re-triggering the percussive envelope.  A second
    [schedulePercEnv] at [now2], at or after the first one's [now], keeps
    of the first envelope the events scheduled before [now2] and replaces
    the rest by its own three events; triggered again at the same instant
    it replaces the first envelope altogether, so the timeline never holds
    two envelopes over one another. *)
Theorem percussive_retrigger_replaces_the_tail (param : AudioParam)
    (a d now a2 d2 now2 : Q) (peakLevel peakLevel2 : option Q) :
  0 <= a -> 0 < d -> 0 <= a2 -> 0 < d2 -> now <= now2 ->
  let first :=
    [SetValue 0.0001 now; LinearRamp (default 1 peakLevel) (now + a);
     ExponentialRamp 0.0001 (now + a + d)] in
  let second :=
    [SetValue 0.0001 now2; LinearRamp (default 1 peakLevel2) (now2 + a2);
     ExponentialRamp 0.0001 (now2 + a2 + d2)] in
  schedulePercEnv (schedulePercEnv param a d now peakLevel)
                  a2 d2 now2 peakLevel2 =
    cancelScheduledValues now param ++ cancelScheduledValues now2 first ++
    second /\
  (now2 == now ->
   schedulePercEnv (schedulePercEnv param a d now peakLevel)
                   a2 d2 now2 peakLevel2 =
     cancelScheduledValues now param ++ second) /\
  (now + a + d < now2 -> cancelScheduledValues now2 first = first).
Proof.
  intros Ha Hd Ha2 Hd2 Hn first second.
  assert (E : schedulePercEnv (schedulePercEnv param a d now peakLevel)
                a2 d2 now2 peakLevel2 =
              cancelScheduledValues now param
                ++ cancelScheduledValues now2 first ++ second).
  { rewrite (schedulePercEnv_timeline param) by assumption.
    rewrite schedulePercEnv_timeline by assumption.
    rewrite cancel_app, cancel_cancel by exact Hn.
    now rewrite <- app_assoc. }
  split; [exact E|]. split.
  - intros H. rewrite E. do 2 f_equal. subst first.
    unfold cancelScheduledValues. cbn [List.filter event_time].
    replace (Qltb now now2) with false by (symmetry; apply Qltb_ge; lra).
    replace (Qltb (now + a) now2) with false
      by (symmetry; apply Qltb_ge; lra).
    replace (Qltb (now + a + d) now2) with false
      by (symmetry; apply Qltb_ge; lra).
    reflexivity.
  - intros H. subst first.
    unfold cancelScheduledValues. cbn [List.filter event_time].
    replace (Qltb now now2) with true by (symmetry; apply Qltb_lt; lra).
    replace (Qltb (now + a) now2) with true
      by (symmetry; apply Qltb_lt; lra).
    replace (Qltb (now + a + d) now2) with true
      by (symmetry; apply Qltb_lt; lra).
    reflexivity.
Qed.

Lemma percussive_retrigger_replaces_the_tail_witness :
  schedulePercEnv (schedulePercEnv [] 0.01 0.2 0 None) 0.01 0.2 0.1 None =
    [SetValue 0.0001 0; LinearRamp 1 (0 + 0.01);
     SetValue 0.0001 0.1; LinearRamp 1 (0.1 + 0.01);
     ExponentialRamp 0.0001 (0.1 + 0.01 + 0.2)].
Proof.
  assert (H1 : 0 <= 0.01) by (intro H; discriminate H).
  assert (H2 : 0 < 0.2) by reflexivity.
  assert (H3 : 0 <= 0.1) by (intro H; discriminate H).
  destruct (percussive_retrigger_replaces_the_tail [] 0.01 0.2 0 0.01 0.2
              0.1 None None H1 H2 H1 H2 H3) as (E & _).
  rewrite E. reflexivity.
Defined.

End EnvelopeFacts.

(** ** The other helpers of utils.js *)

Module UtilsFacts.
Import utils.

(** *** [clamp] *)

(** X20. [clamp(v, min, max)] on finite bounds: NaN goes through; with
    [min <= max] every other number, the infinities included, is taken
    into [[min, max]], a value inside the range unchanged and a value
    outside it to the nearer end; with the bounds the wrong way round,
    [max < min], the result is [min] whatever the value. *)
Theorem clamp_takes_values_into_the_range (lo hi : Q) :
  clamp JS.NaN lo hi = JS.NaN /\
  (lo <= hi ->
   JS.num_eq (clamp JS.PosInf lo hi) hi /\
   JS.num_eq (clamp JS.NegInf lo hi) lo /\
   forall q : Q,
     JS.in_range lo hi (clamp q lo hi) /\
     (lo <= q <= hi -> JS.num_eq (clamp q lo hi) q) /\
     (q <= lo -> JS.num_eq (clamp q lo hi) lo) /\
     (hi <= q -> JS.num_eq (clamp q lo hi) hi)) /\
  (hi < lo ->
   forall v : JS.num, v <> JS.NaN -> JS.num_eq (clamp v lo hi) lo).
Proof.
  split; [reflexivity|]. split.
  - intros H. unfold clamp, JS.min, JS.max, JS.ltb.
    split; [|split].
    + destruct (Qltb lo hi) eqn:E; cbn; [reflexivity|].
      apply Qltb_ge in E. lra.
    + replace (Qltb lo lo) with false by (symmetry; apply Qltb_ge; lra).
      reflexivity.
    + intros q. destruct (Qltb q hi) eqn:E1.
      * apply Qltb_lt in E1. destruct (Qltb lo q) eqn:E2.
        -- apply Qltb_lt in E2. cbn. repeat split; intros; lra.
        -- apply Qltb_ge in E2. cbn. repeat split; intros; lra.
      * apply Qltb_ge in E1. destruct (Qltb lo hi) eqn:E2.
        -- apply Qltb_lt in E2. cbn. repeat split; intros; lra.
        -- apply Qltb_ge in E2. cbn. repeat split; intros; lra.
  - intros H v Hv. unfold clamp, JS.min, JS.max, JS.ltb.
    destruct v as [q| | |]; [| | |contradiction].
    + destruct (Qltb q hi) eqn:E1.
      * apply Qltb_lt in E1.
        replace (Qltb lo q) with false by (symmetry; apply Qltb_ge; lra).
        reflexivity.
      * replace (Qltb lo hi) with false by (symmetry; apply Qltb_ge; lra).
        reflexivity.
    + replace (Qltb lo hi) with false by (symmetry; apply Qltb_ge; lra).
      reflexivity.
    + replace (Qltb lo lo) with false by (symmetry; apply Qltb_ge; lra).
      reflexivity.
Qed.

(** *** [noteNameToMidi] *)

Lemma note_map_range (name : string) (v : Z) :
  own_property name note_map = Some v -> (0 <= v <= 11)%Z.
Proof.
  unfold note_map. cbn [own_property].
  repeat (destruct (String.eqb name _); [intros [= <-]; lia|]).
  discriminate.
Qed.

(** X21. [noteNameToMidi(name, octave)]: whenever the result is a number
    it is [12·(octave + 1)] plus a pitch class between 0 and 11, so the
    next octave is exactly 12 higher; sharps and flats that name the same
    key give the same number; a name that is neither in the table nor a
    property every object inherits counts as C; for an inherited property
    name ([toString], [constructor], ...) the lookup is not [undefined],
    the fallback does not apply and the result is not a number.  A4 is 69,
    C-1 is 0 and G9 is 127. *)
Theorem note_names_map_to_midi_numbers :
  (forall name octave m,
     noteNameToMidi name octave = Some m ->
     (12 * (octave + 1) <= m <= 12 * (octave + 1) + 11)%Z /\
     noteNameToMidi name (octave + 1) = Some (m + 12)%Z) /\
  (forall octave,
     noteNameToMidi "C#" octave = noteNameToMidi "Db" octave /\
     noteNameToMidi "D#" octave = noteNameToMidi "Eb" octave /\
     noteNameToMidi "F#" octave = noteNameToMidi "Gb" octave /\
     noteNameToMidi "G#" octave = noteNameToMidi "Ab" octave /\
     noteNameToMidi "A#" octave = noteNameToMidi "Bb" octave) /\
  (forall name octave,
     own_property name note_map = None ->
     existsb (String.eqb name) Object_prototype = false ->
     noteNameToMidi name octave = noteNameToMidi "C" octave) /\
  (forall name octave,
     In name Object_prototype -> noteNameToMidi name octave = None) /\
  noteNameToMidi "A" 4 = Some 69%Z /\
  noteNameToMidi "C" (-1) = Some 0%Z /\
  noteNameToMidi "G" 9 = Some 127%Z.
Proof.
  split; [|split; [|split; [|split]]].
  - intros name octave m. unfold noteNameToMidi.
    destruct (own_property name note_map) as [v|] eqn:E.
    + apply note_map_range in E. intros [= <-]. split; [lia|].
      f_equal. lia.
    + destruct (existsb _ _); [discriminate|].
      intros [= <-]. split; [lia|]. f_equal. lia.
  - intros octave. repeat split.
  - intros name octave H1 H2. unfold noteNameToMidi at 1.
    rewrite H1, H2. reflexivity.
  - intros name octave H. unfold Object_prototype in H. cbn [In] in H.
    repeat (destruct H as [<-|H]; [reflexivity|]). contradiction.
  - repeat split.
Qed.

End UtilsFacts.

(** ** The MIDI router *)

Module MidiControllerFacts.
Import MidiController.

(** *** Bytes *)

(** A property checked on each of the 256 byte values holds of every
    byte. *)
Lemma every_byte (P : Z -> bool) :
  forallb P (map Z.of_nat (seq 0 256)) = true ->
  forall b : Z, byte b -> P b = true.
Proof.
  intros H b [H0 H1]. rewrite forallb_forall in H. apply H.
  replace b with (Z.of_nat (Z.to_nat b)) by lia.
  apply in_map, in_seq. lia.
Qed.

(** The status byte splits into the message type, its high nibble, and the
    channel, its low nibble. *)
Lemma status_split (status : Z) :
  byte status ->
  Z.land status 0xf0 = (16 * (status / 16))%Z /\
  Z.land status 0x0f = (status mod 16)%Z.
Proof.
  intros H.
  pose proof (every_byte
    (fun s => (Z.land s 0xf0 =? 16 * (s / 16))%Z
              && (Z.land s 0x0f =? s mod 16)%Z) eq_refl status H) as E.
  cbv beta in E. apply andb_true_iff in E as [E1 E2].
  split; now apply Z.eqb_eq.
Qed.

Lemma status_of (type ch : Z) :
  (0 <= type <= 15)%Z -> (0 <= ch <= 15)%Z ->
  Z.land (16 * type + ch) 0xf0 = (16 * type)%Z /\
  Z.land (16 * type + ch) 0x0f = ch.
Proof.
  intros Ht Hc.
  destruct (status_split (16 * type + ch)) as [E1 E2]; [unfold byte; lia|].
  rewrite E1, E2. split.
  - f_equal. rewrite Z.mul_comm, Z.div_add_l by lia.
    rewrite Z.div_small by lia. lia.
  - rewrite Z.mul_comm, Z.add_comm, Z.mod_add by lia.
    apply Z.mod_small. lia.
Qed.

(** The 14-bit pitch-bend value: with the top bit of the low byte clear,
    the bitwise or is a sum. *)
Lemma fourteen_bits (lsb msb : Z) :
  data_byte lsb -> byte msb ->
  Z.lor (Z.shiftl msb 7) lsb = (128 * msb + lsb)%Z.
Proof.
  intros [L0 L1] Hm.
  pose proof (every_byte
    (fun m => forallb
       (fun l => (Z.lor (Z.shiftl m 7) l =? 128 * m + l)%Z)
       (map Z.of_nat (seq 0 128))) eq_refl msb Hm) as E.
  cbv beta in E. rewrite forallb_forall in E.
  apply Z.eqb_eq, E.
  replace lsb with (Z.of_nat (Z.to_nat lsb)) by lia.
  apply in_map, in_seq. lia.
Qed.

Lemma velocity_range (v : Z) :
  data_byte v -> 0 <= inject_Z v / 127 <= 1.
Proof.
  intros [H0 H1].
  assert (A : 0 <= inject_Z v).
  { change 0 with (inject_Z 0). now rewrite <- Zle_Qle. }
  assert (B : inject_Z v <= 127).
  { change 127 with (inject_Z 127). now rewrite <- Zle_Qle. }
  split.
  - apply Qle_shift_div_l; [reflexivity|lra].
  - apply Qle_shift_div_r; [reflexivity|lra].
Qed.

(** *** Decoding *)

Lemma passes_not_filtered (self : t) (ch : Z) :
  passes self ch -> filtered_out self ch = false.
Proof.
  unfold filtered_out. intros [-> | ->]; [reflexivity|].
  now rewrite Z.eqb_refl.
Qed.

(** X22. Note messages.  On a channel [ch] of 0..15 that the channel
    filter lets through, the status byte [0x90 + ch] with a velocity byte
    above 0 is delivered to every listener as a note-on carrying the note
    number, the channel and the velocity [data2/127], which lies in
    [[0, 1]] for a data byte; with velocity byte 0 the same status is
    delivered as a note-off of velocity 0, like the status [0x80 + ch],
    which is a note-off of velocity [data2/127]. *)
Theorem note_messages_are_decoded (self : t) (ch note vel : Z) :
  (0 <= ch <= 15)%Z -> passes self ch ->
  ((0 < vel)%Z ->
   _onMessage self [(0x90 + ch)%Z; note; vel] =
     Some (deliver self (noteon note (inject_Z vel / 127) ch))) /\
  _onMessage self [(0x90 + ch)%Z; note; 0%Z] =
    Some (deliver self (noteoff note 0 ch)) /\
  _onMessage self [(0x80 + ch)%Z; note; vel] =
    Some (deliver self (noteoff note (inject_Z vel / 127) ch)) /\
  (data_byte vel -> 0 <= inject_Z vel / 127 <= 1) /\
  length (deliver self (noteoff note 0 ch)) = length (_listeners self).
Proof.
  intros Hc Hp. pose proof (passes_not_filtered self ch Hp) as F.
  destruct (status_of 9 ch ltac:(lia) Hc) as [T9 C9].
  destruct (status_of 8 ch ltac:(lia) Hc) as [T8 C8].
  change (16 * 9)%Z with 0x90%Z in T9, C9.
  change (16 * 8)%Z with 0x80%Z in T8, C8.
  split; [|split; [|split; [|split]]].
  - intros Hv. unfold _onMessage. rewrite T9, C9, F.
    cbn [Z.eqb Pos.eqb]. apply Z.ltb_lt in Hv. now rewrite Hv.
  - unfold _onMessage. rewrite T9, C9, F. reflexivity.
  - unfold _onMessage. rewrite T8, C8, F. reflexivity.
  - apply velocity_range.
  - unfold deliver, Object_values. now rewrite !length_map.
Qed.

Lemma note_messages_are_decoded_witness :
  _onMessage (addListener 7%nat initial).1 [0x93%Z; 60%Z; 0%Z] =
    Some [(7%nat, noteoff 60 0 3)].
Proof.
  assert (H1 : (0 <= 3 <= 15)%Z) by lia.
  assert (H2 : passes (addListener 7%nat initial).1 3) by (left; reflexivity).
  destruct (note_messages_are_decoded (addListener 7%nat initial).1 3 60 0
              H1 H2) as (_ & E & _).
  exact E.
Defined.

(** X23. Pitch bend and controllers.  On a channel the filter lets
    through, the status [0xe0 + ch] with data bytes [lsb], [msb] is
    delivered as a pitch bend of value [(128·msb + lsb − 8192)/8192]: the
    two 7-bit bytes make one 14-bit number, the value lies in [[-1, 1)],
    it is 0 exactly at the centre [msb = 64, lsb = 0] and never reaches 1.
    The status [0xb0 + ch] is delivered as a controller change with the
    controller number and the value [data2/127]. *)
Theorem pitch_bend_is_a_14_bit_value (self : t) (ch lsb msb : Z) :
  (0 <= ch <= 15)%Z -> passes self ch -> data_byte lsb -> data_byte msb ->
  let value := (inject_Z (128 * msb + lsb) - 8192) / 8192 in
  (exists v, _onMessage self [(0xe0 + ch)%Z; lsb; msb] =
               Some (deliver self (pitchbend v ch)) /\ v == value) /\
  -1 <= value < 1 /\
  (value == 0 <-> (msb = 64 /\ lsb = 0)%Z) /\
  _onMessage self [(0xb0 + ch)%Z; lsb; msb] =
    Some (deliver self (cc lsb (inject_Z msb / 127) ch)).
Proof.
  intros Hc Hp Hl Hm value.
  pose proof (passes_not_filtered self ch Hp) as F.
  destruct (status_of 14 ch ltac:(lia) Hc) as [TE CE].
  destruct (status_of 11 ch ltac:(lia) Hc) as [TB CB].
  change (16 * 14)%Z with 0xe0%Z in TE, CE.
  change (16 * 11)%Z with 0xb0%Z in TB, CB.
  assert (R : 0 <= inject_Z (128 * msb + lsb) <= 16383).
  { destruct Hl, Hm. change 0 with (inject_Z 0).
    change 16383 with (inject_Z 16383). rewrite <- !Zle_Qle. lia. }
  split; [|split; [|split]].
  - eexists. split.
    + unfold _onMessage. rewrite TE, CE, F. cbn [Z.eqb Pos.eqb].
      reflexivity.
    + subst value. rewrite fourteen_bits; [reflexivity|exact Hl|].
      destruct Hm. unfold byte. lia.
  - subst value. split.
    + apply Qle_shift_div_l; [reflexivity|lra].
    + apply Qlt_shift_div_r; [reflexivity|lra].
  - subst value. split.
    + intros H.
      assert (E : inject_Z (128 * msb + lsb) == inject_Z 8192).
      { change (inject_Z 8192) with 8192.
        assert (E' : inject_Z (128 * msb + lsb) - 8192
                     == (inject_Z (128 * msb + lsb) - 8192) / 8192 * 8192)
          by (field; discriminate).
        rewrite H in E'. clear - E'.
        set (x := inject_Z (128 * msb + lsb)) in *. lra. }
      apply (proj1 (inject_Z_injective _ _)) in E. destruct Hl, Hm. lia.
    + intros [-> ->]. reflexivity.
  - unfold _onMessage. rewrite TB, CB, F. reflexivity.
Qed.

Lemma pitch_bend_is_a_14_bit_value_witness :
  exists v,
    _onMessage (addListener 7%nat initial).1 [0xe3%Z; 0%Z; 64%Z] =
      Some [(7%nat, pitchbend v 3)] /\ v == 0.
Proof.
  assert (H1 : (0 <= 3 <= 15)%Z) by lia.
  assert (H2 : passes (addListener 7%nat initial).1 3) by (left; reflexivity).
  assert (H3 : data_byte 0) by (unfold data_byte; lia).
  assert (H4 : data_byte 64) by (unfold data_byte; lia).
  destruct (pitch_bend_is_a_14_bit_value (addListener 7%nat initial).1
              3 0 64 H1 H2 H3 H4) as ((v & E & Hv) & _).
  exists v. split; [exact E|]. rewrite Hv. reflexivity.
Defined.

(** *** What is not forwarded *)

(** X24. [_onMessage] invokes no listener for an empty message, for a
    message on a channel other than the one set with [setChannel], or for
    a status byte whose type is not note-on, note-off, controller change or
    pitch bend (aftertouch, program change, channel pressure, system and
    real-time messages, and bytes below 0x80), whatever data follows; with
    the channel set to [null] no channel is filtered out. *)
Theorem other_messages_reach_no_listener
    (self : t) (status : Z) (rest : list Z) :
  byte status ->
  _onMessage self [] = Some [] /\
  (forall c, c <> (status mod 16)%Z ->
     _onMessage (setChannel (Some c) self) (status :: rest) = Some []) /\
  ((status / 16)%Z <> 8%Z -> (status / 16)%Z <> 9%Z ->
   (status / 16)%Z <> 11%Z -> (status / 16)%Z <> 14%Z ->
   _onMessage self (status :: rest) = Some []) /\
  filtered_out (setChannel None self) (status mod 16) = false.
Proof.
  intros Hb. destruct (status_split status Hb) as [ET EC].
  split; [reflexivity|]. split; [|split; [|reflexivity]].
  - intros c Hc. unfold _onMessage. rewrite EC.
    unfold filtered_out. cbn [setChannel _channel].
    replace (status mod 16 =? c)%Z with false
      by (symmetry; apply Z.eqb_neq; congruence).
    reflexivity.
  - intros H8 H9 H11 H14. unfold _onMessage. rewrite ET.
    destruct (filtered_out self _); [reflexivity|].
    replace (16 * (status / 16) =? 0x90)%Z with false
      by (symmetry; apply Z.eqb_neq; lia).
    replace (16 * (status / 16) =? 0x80)%Z with false
      by (symmetry; apply Z.eqb_neq; lia).
    replace (16 * (status / 16) =? 0xe0)%Z with false
      by (symmetry; apply Z.eqb_neq; lia).
    replace (16 * (status / 16) =? 0xb0)%Z with false
      by (symmetry; apply Z.eqb_neq; lia).
    reflexivity.
Qed.

Lemma other_messages_reach_no_listener_witness :
  _onMessage (setChannel (Some 2%Z) (addListener 7%nat initial).1)
    [0x93%Z; 60%Z; 100%Z] = Some [] /\
  _onMessage (addListener 7%nat initial).1 [0xc3%Z; 5%Z] = Some [].
Proof.
  assert (H1 : byte 0x93) by (unfold byte; lia).
  assert (H2 : byte 0xc3) by (unfold byte; lia).
  destruct (other_messages_reach_no_listener (addListener 7%nat initial).1
              0x93 [60%Z; 100%Z] H1) as (_ & E1 & _).
  destruct (other_messages_reach_no_listener (addListener 7%nat initial).1
              0xc3 [5%Z] H2) as (_ & _ & E2 & _).
  split.
  - apply E1. intro H. discriminate H.
  - apply E2; intro H; discriminate H.
Defined.

(** *** The listener table *)

Lemma set_property_fresh (id : Z) (fn : listener) (o : list (Z * listener)) :
  Forall (fun kv => (kv.1 < id)%Z) o -> set_property id fn o = o ++ [(id, fn)].
Proof.
  induction 1 as [|[k v] o Hk _ IH]; [reflexivity|]. cbn in *.
  replace (id =? k)%Z with false by (symmetry; apply Z.eqb_neq; lia).
  replace (id <? k)%Z with false by (symmetry; apply Z.ltb_ge; lia).
  now rewrite IH.
Qed.

Lemma delete_property_absent (id : Z) (o : list (Z * listener)) :
  Forall (fun kv => kv.1 <> id) o -> delete_property id o = o.
Proof.
  induction 1 as [|[k v] o Hk _ IH]; [reflexivity|]. cbn in *.
  replace (k =? id)%Z with false by (symmetry; apply Z.eqb_neq; lia).
  cbn. unfold delete_property in IH. now rewrite IH.
Qed.

Lemma ids_fresh_addListener (fn : listener) (self : t) :
  ids_fresh self -> ids_fresh (addListener fn self).1.
Proof.
  unfold ids_fresh. intros H. cbn.
  rewrite set_property_fresh by exact H.
  apply Forall_app. split.
  - eapply Forall_impl; [exact H|]. cbn. intros kv Hkv. lia.
  - repeat constructor. cbn. lia.
Qed.

Lemma ids_fresh_removeListener (id : Z) (self : t) :
  ids_fresh self -> ids_fresh (removeListener id self).
Proof.
  unfold ids_fresh, removeListener, delete_property. cbn.
  induction 1 as [|kv o Hk _ IH]; [constructor|]. cbn.
  destruct (negb _); [constructor; assumption|assumption].
Qed.

Lemma reachable_fresh (self : t) : reachable self -> ids_fresh self.
Proof.
  induction 1.
  - constructor.
  - now apply ids_fresh_addListener.
  - now apply ids_fresh_removeListener.
  - assumption.
Qed.

(** X25. The listener table.  In every state reached from the initial one
    by [addListener], [removeListener] and [setChannel], [addListener]
    returns an id held by no registered listener (ids start at 1, grow by
    one and are never handed out again, also after removals) and puts the
    new listener last, so a message reaches the listeners in the order of
    their registration; [removeListener] with the id just returned gives
    the table back as it was; removing an id that is not registered
    changes nothing; and a listener that was removed is no longer
    invoked. *)
Theorem listeners_are_called_in_registration_order
    (self : t) (fn : listener) (msg : message) :
  reachable self ->
  let '(self', id) := addListener fn self in
  id = _nextId self /\ _nextId self' = (id + 1)%Z /\ (1 <= id)%Z /\
  Forall (fun kv => kv.1 <> id) (_listeners self) /\
  _listeners self' = _listeners self ++ [(id, fn)] /\
  deliver self' msg = deliver self msg ++ [(fn, msg)] /\
  _listeners (removeListener id self') = _listeners self /\
  _nextId (removeListener id self') = (id + 1)%Z /\
  (forall other, Forall (fun kv => kv.1 <> other) (_listeners self) ->
     _listeners (removeListener other self) = _listeners self) /\
  (forall other, Forall (fun kv => kv.1 <> other)
                        (_listeners (removeListener other self))).
Proof.
  intros Hr. pose proof (reachable_fresh self Hr) as Hf. cbn.
  assert (Hne : Forall (fun kv : Z * listener => kv.1 <> _nextId self)
                       (_listeners self)).
  { eapply Forall_impl; [exact Hf|]. cbn. intros kv Hkv. lia. }
  assert (Hpos : (1 <= _nextId self)%Z).
  { clear Hf Hne. induction Hr; cbn; lia. }
  rewrite set_property_fresh by exact Hf.
  repeat (split; [first [reflexivity|assumption]|]).
  split; [|split; [|split; [|split]]].
  - unfold deliver, Object_values. cbn. now rewrite !map_app.
  - unfold delete_property. rewrite List.filter_app. cbn.
    rewrite Z.eqb_refl. cbn. rewrite app_nil_r.
    now apply delete_property_absent.
  - reflexivity.
  - intros other Ho. cbn. now apply delete_property_absent.
  - intros other. cbn. unfold delete_property.
    apply Forall_forall. intros kv Hkv.
    apply list_elem_of_In, filter_In in Hkv as [_ Hkv].
    apply negb_true_iff, Z.eqb_neq in Hkv. exact Hkv.
Qed.

Lemma listeners_are_called_in_registration_order_witness :
  deliver (addListener 9%nat
             (removeListener 1 (addListener 4%nat
                (addListener 7%nat initial).1).1)).1 (noteoff 60 0 0) =
    [(4%nat, noteoff 60 0 0); (9%nat, noteoff 60 0 0)] /\
  (addListener 9%nat
     (removeListener 1 (addListener 4%nat
        (addListener 7%nat initial).1).1)).2 = 3%Z.
Proof.
  pose proof (listeners_are_called_in_registration_order
                (removeListener 1 (addListener 4%nat
                   (addListener 7%nat initial).1).1)
                9%nat (noteoff 60 0 0)
                (reach_remove _ _ (reach_add _ _ (reach_add _ _
                   reach_initial)))) as H.
  cbn in H. destruct H as (H1 & _ & _ & _ & _ & H2 & _).
  split; [exact H2|exact H1].
Defined.

End MidiControllerFacts.

(** ** The drum machine's pattern callback *)

Module TR808Facts.
Import TR808.

Lemma active_keys_filter (p : pattern) (step : nat) :
  active_keys p step = List.filter (pad_on p step) _instrumentKeys.
Proof. reflexivity. Qed.

Lemma well_formed_constructor : well_formed constructor_pattern.
Proof.
  unfold well_formed, _instrumentKeys.
  repeat (constructor; [eexists; split; reflexivity|]). constructor.
Qed.

(** A pad change rewrites one pad of the row of its key and leaves the
    other rows alone. *)
Lemma row_onChange (key : string) (step : nat) (active acc : bool)
    (k : string) (p : pattern) :
  row k (onChange key step active acc p) =
  if String.eqb k key
  then (fun r => <[step := {| on := active; accent := acc |}]> r) <$> row k p
  else row k p.
Proof.
  induction p as [|[k' r] p IH]; cbn [onChange row].
  - now destruct (String.eqb k key).
  - destruct (String.eqb_spec key k') as [->|Hkey]; cbn [row].
    + destruct (String.eqb_spec k k') as [->|Hk]; reflexivity.
    + rewrite IH. destruct (String.eqb_spec k k') as [->|Hk].
      * destruct (String.eqb_spec k' key) as [->|_]; [contradiction|].
        reflexivity.
      * reflexivity.
Qed.

Lemma well_formed_onChange (key : string) (step : nat) (active acc : bool)
    (p : pattern) :
  well_formed p -> well_formed (onChange key step active acc p).
Proof.
  unfold well_formed. intros H. eapply Forall_impl; [exact H|].
  cbn. intros k (r & Hr & Hl). rewrite row_onChange, Hr.
  destruct (String.eqb k key); cbn; eexists; split; try reflexivity.
  - now rewrite length_insert.
  - exact Hl.
Qed.

Lemma pad_on_onChange (key : string) (step : nat) (active acc : bool)
    (p : pattern) (st : nat) (k : string) :
  (exists r, row k p = Some r /\ length r = _steps) -> (step < _steps)%nat ->
  pad_on (onChange key step active acc p) st k =
  if String.eqb k key && (st =? step)%nat then active else pad_on p st k.
Proof.
  intros (r & Hr & Hl) Hs. unfold pad_on. rewrite row_onChange, Hr.
  destruct (String.eqb k key); cbn; [|reflexivity].
  destruct (Nat.eqb_spec st step) as [->|Hne].
  - rewrite list_lookup_insert_eq by lia. reflexivity.
  - rewrite list_lookup_insert_ne by lia. reflexivity.
Qed.

(** On rows of full length the [forEach] triggers the voices whose pad is
    on, in the order of the keys. *)
Lemma triggers_active (keys : list string) (p : pattern) (step : nat)
    (time : Q) :
  Forall (fun k => exists r, row k p = Some r /\ length r = _steps) keys ->
  (step < _steps)%nat ->
  triggers keys p (Z.of_nat step) time =
    Some (map (fun k => Trigger k time) (List.filter (pad_on p step) keys)).
Proof.
  intros H Hs. induction H as [|k keys (r & Hr & Hl) _ IH]; [reflexivity|].
  destruct (lookup_lt_is_Some_2 r step) as [s Es]; [lia|].
  assert (E : pad_on p step k = on s) by (unfold pad_on; now rewrite Hr, Es).
  cbn [triggers List.filter]. rewrite Hr, IH, E.
  replace (Z.of_nat step <? 0)%Z with false by (symmetry; apply Z.ltb_ge; lia).
  rewrite Nat2Z.id, Es.
  now destruct (on s).
Qed.

(** X26. The drum machine plays its pattern.  With the sequencer as the
    constructor leaves it (16 steps) and started at clock reading [c0], on
    the [i]-th step event the callback triggers, at the time the event
    carries, exactly the voices whose pad at step [i mod 16] is on, in panel
    order, and then moves the highlight to that step; it never reads a pad
    that does not exist, whatever the pattern reached by pad changes.  On
    the reset signal of [stop()] it triggers nothing and clears the
    highlight.  A pad change turns exactly that pad on or off, and the
    accent flag it stores has no effect on what is triggered. *)
Theorem drum_machine_plays_the_pattern
    (p : pattern) (c0 : Q) (tm : Z) (cb : Sequencer.listener) (n i : nat)
    (e : Sequencer.StepEvent) :
  well_formed p ->
  Sequencer.emitted n
    (Sequencer.start c0 tm (Sequencer.onStep cb Sequencer.constructor)) !! i
    = Some e ->
  callback p e =
    Some (map (fun k => Trigger k (Sequencer.time e))
              (active_keys p (i mod 16))
          ++ [Highlight (Z.of_nat (i mod 16))]) /\
  callback p Sequencer.reset_event = Some [Highlight (-1)] /\
  well_formed constructor_pattern /\
  active_keys constructor_pattern (i mod 16) = [] /\
  forall key step active acc,
    (step < _steps)%nat ->
    well_formed (onChange key step active acc p) /\
    (forall st k, In k _instrumentKeys ->
       pad_on (onChange key step active acc p) st k =
       if String.eqb k key && (st =? step)%nat
       then active else pad_on p st k) /\
    callback (onChange key step active acc p) e =
    callback (onChange key step active (negb acc) p) e.
Proof.
  intros Hp He.
  set (s0 := Sequencer.start c0 tm
               (Sequencer.onStep cb Sequencer.constructor)) in *.
  apply SequencerFacts.emitted_lookup in He.
  pose proof (SequencerFacts.advance_currentStep i s0) as Hc.
  assert (Hstep : Sequencer.step e = Z.of_nat (i mod 16)).
  { subst e. cbn [Sequencer.schedule_step snd Sequencer.step].
    assert (Hcur : Sequencer._currentStep s0 = 0%Z) by reflexivity.
    assert (Hst : Sequencer._steps s0 = 16%Z) by reflexivity.
    rewrite Hc by (rewrite Hcur, Hst; lia).
    rewrite Hcur, Hst, Z.add_0_l. now rewrite Nat2Z.inj_mod. }
  assert (Hlt : (i mod 16 < _steps)%nat)
    by (unfold _steps; apply Nat.mod_upper_bound; lia).
  assert (Hcb : forall q, well_formed q ->
            callback q e =
              Some (map (fun k => Trigger k (Sequencer.time e))
                        (active_keys q (i mod 16))
                    ++ [Highlight (Z.of_nat (i mod 16))])).
  { intros q Hq. unfold callback. rewrite Hstep.
    replace (Z.of_nat (i mod 16) =? -1)%Z with false
      by (symmetry; apply Z.eqb_neq; lia).
    now rewrite (triggers_active _ q (i mod 16) _ Hq Hlt). }
  split; [now apply Hcb|]. split; [reflexivity|].
  split; [apply well_formed_constructor|]. split.
  { rewrite active_keys_filter.
    assert (E : forall k, pad_on constructor_pattern (i mod 16) k = false).
    { intros k. unfold pad_on.
      destruct (row k constructor_pattern) as [r|] eqn:Er; [|reflexivity].
      assert (Hr : r = replicate _steps {| on := false; accent := false |}).
      { revert Er. unfold constructor_pattern, _instrumentKeys.
        cbn [map row].
        repeat (destruct (String.eqb k _); [intros [= <-]; reflexivity|]).
        discriminate. }
      rewrite Hr, lookup_replicate_2 by exact Hlt. reflexivity. }
    induction _instrumentKeys as [|k ks IH]; [reflexivity|].
    cbn [List.filter]. now rewrite E. }
  intros key step active acc Hs.
  pose proof (well_formed_onChange key step active acc p Hp) as W1.
  pose proof (well_formed_onChange key step active (negb acc) p Hp) as W2.
  split; [exact W1|]. split.
  - intros st k Hk. apply pad_on_onChange; [|exact Hs].
    unfold well_formed in Hp. rewrite List.Forall_forall in Hp.
    now apply Hp.
  - rewrite (Hcb _ W1), (Hcb _ W2). do 3 f_equal.
    rewrite !active_keys_filter. apply List.filter_ext_in.
    intros k Hk.
    assert (Hrow : exists r, row k p = Some r /\ length r = _steps).
    { unfold well_formed in Hp. rewrite List.Forall_forall in Hp.
      now apply Hp. }
    now rewrite !pad_on_onChange.
Qed.

Lemma drum_machine_plays_the_pattern_witness :
  let p := onChange "SD" 4 true false
             (onChange "BD" 4 true true constructor_pattern) in
  exists e,
    Sequencer.emitted 24
      (Sequencer.start 0 1 (Sequencer.onStep 2%nat Sequencer.constructor))
      !! 20%nat = Some e /\
    callback p e =
      Some [Trigger "BD" (Sequencer.time e); Trigger "SD" (Sequencer.time e);
            Highlight 4].
Proof.
  cbv zeta.
  set (s0 := Sequencer.start 0 1
               (Sequencer.onStep 2%nat Sequencer.constructor)).
  exists (Sequencer.schedule_step (Sequencer.advance 20 s0)).2.
  split; [reflexivity|].
  destruct (drum_machine_plays_the_pattern
              (onChange "SD" 4 true false
                 (onChange "BD" 4 true true constructor_pattern))
              0 1 2%nat 24 20
              (Sequencer.schedule_step (Sequencer.advance 20 s0)).2)
    as (E & _).
  - apply well_formed_onChange, well_formed_onChange, well_formed_constructor.
  - reflexivity.
  - rewrite E. reflexivity.
Defined.

End TR808Facts.
